(** * Chord simulator: a shallow embedding of [sim/] and [warm_up]

    The development follows the Python sources module by module:
    [sim/config.py], [sim/utils.py], [sim/events.py], [sim/node.py],
    [sim/environment.py] and the [warm_up] procedure of
    [experiments/exp_4_churn.py].

    Conventions of the embedding.
    - Python integers are [Z]; the identifier ring is [[0, MAX_ID)].
    - A Python [dict] is an insertion-ordered association list ([dict]);
      iteration order, [next(iter(d))] and [min(d)] read it as Python does.
    - A function that may raise returns [result]; the exception names are
      Python's.
    - Objects mutated in place are threaded through the environment record:
      a method of [Node] takes the environment and [self] and gives back the
      environment in which [self] has been stored again under its id.
    - The module-wide random generator is an oracle [nat -> Z] read at a
      cursor; every theorem quantifies over the oracle. *)

From Stdlib Require Import ZArith QArith Lia Reals Lra String.
From stdpp Require Import base list sorting.

Local Open Scope Z_scope.

(** ** Exceptions and fallible computations *)

Inductive exn : Set :=
| AttributeError
| TypeError
| KeyError
| IndexError
| StopIteration
| RecursionError
| ValueError.

Inductive result (A : Type) : Type :=
| Ok (a : A)
| Raise (e : exn).

Arguments Ok {A} a.
Arguments Raise {A} e.

Definition rbind {A B : Type} (c : result A) (k : A -> result B) : result B :=
  match c with
  | Ok a => k a
  | Raise e => Raise e
  end.

Notation "'let!' x ':=' c 'in' k" := (rbind c (fun x => k))
  (at level 10, x name, c at level 100, k at level 200).

(** ** [sim/config.py] *)

Definition M : Z := 160.
Definition BASE_LATENCY : Q := 5 # 1000.
Definition STABILIZE_INTERVAL : Q := 1 # 1.
Definition SUCCESSOR_LIST_SIZE : Z := 16.

(** ** [sim/utils.py] *)

Definition MAX_ID : Z := 2 ^ M.

Definition in_interval (key start end_ : Z) (inc_start inc_end : bool) : bool :=
  let key := key mod MAX_ID in
  let start := start mod MAX_ID in
  let end_ := end_ mod MAX_ID in
  if start <? end_ then
    if (key =? start) && negb inc_start then false
    else if (key =? end_) && negb inc_end then false
    else if inc_start && (key =? start) then true
    else if inc_end && (key =? end_) then true
    else (start <? key) && (key <? end_)
  else
    if (key =? start) && negb inc_start then false
    else if (key =? end_) && negb inc_end then false
    else
      let in_high := (start <? key) || (inc_start && (key =? start)) in
      let in_low := (key <? end_) || (inc_end && (key =? end_)) in
      in_high || in_low.

Definition mod_add (a b : Z) : Z := (a + b) mod MAX_ID.
Definition mod_sub (a b : Z) : Z := (a - b) mod MAX_ID.

(** ** Python containers *)

(** A [dict] with integer keys, in insertion order.  Assigning to a key
    that is present keeps its position; a new key goes to the end. *)
Abbreviation dict V := (list (Z * V)).

Fixpoint dict_get {V : Type} (k : Z) (d : dict V) : option V :=
  match d with
  | [] => None
  | (k', v) :: d' => if k =? k' then Some v else dict_get k d'
  end.

Fixpoint dict_set {V : Type} (k : Z) (v : V) (d : dict V) : dict V :=
  match d with
  | [] => [(k, v)]
  | (k', v') :: d' =>
      if k =? k' then (k, v) :: d' else (k', v') :: dict_set k v d'
  end.

Definition dict_keys {V : Type} (d : dict V) : list Z := fst <$> d.

(** [d[k]] *)
Definition dict_getitem {V : Type} (k : Z) (d : dict V) : result V :=
  match dict_get k d with
  | Some v => Ok v
  | None => Raise KeyError
  end.

(** [min(d)], defined on a non-empty dictionary. *)
Definition dict_min {V : Type} (d : dict V) : result Z :=
  match dict_keys d with
  | [] => Raise ValueError
  | k :: ks => Ok (fold_left Z.min ks k)
  end.

(** [l[i]] with Python's negative indices. *)
Definition list_getitem {A : Type} (l : list A) (i : Z) : result A :=
  let n := Z.of_nat (length l) in
  let j := if i <? 0 then i + n else i in
  if (0 <=? j) && (j <? n) then
    match l !! Z.to_nat j with
    | Some x => Ok x
    | None => Raise IndexError
    end
  else Raise IndexError.

(** [l[i] = x] for [i >= 0]. *)
Definition list_setitem {A : Type} (l : list A) (i : nat) (x : A)
  : result (list A) :=
  if (i <? length l)%nat then Ok (<[i := x]> l) else Raise IndexError.

(** [sorted(l)] on integers. *)
Definition sorted (l : list Z) : list Z := merge_sort Z.le l.

(** [bisect.bisect_left(l, x)] on a sorted list [l]: the number of leading
    elements smaller than [x]. *)
Fixpoint bisect_left (l : list Z) (x : Z) : nat :=
  match l with
  | [] => 0
  | y :: l' => if y <? x then S (bisect_left l' x) else 0
  end.

(** The owner of [key] in a sorted ring, as the callers of [bisect_left]
    compute it:
    [idx = bisect_left(ring, key); if idx == len(ring): idx = 0; ring[idx]]. *)
Definition ring_owner (ring : list Z) (key : Z) : result Z :=
  let idx := bisect_left ring key in
  let idx := if (idx =? length ring)%nat then 0%nat else idx in
  list_getitem ring (Z.of_nat idx).

(** ** Values carried by messages *)

Inductive pyval : Type :=
| VNone
| VInt (z : Z)
| VList (l : list (option Z)).

Definition as_int (v : pyval) : result Z :=
  match v with
  | VInt z => Ok z
  | _ => Raise TypeError
  end.

Definition opt_int (o : option Z) : result Z :=
  match o with
  | Some z => Ok z
  | None => Raise TypeError
  end.

Definition of_opt (o : option Z) : pyval :=
  match o with
  | Some z => VInt z
  | None => VNone
  end.

Definition pyval_eqb (a b : pyval) : bool :=
  match a, b with
  | VNone, VNone => true
  | VInt x, VInt y => x =? y
  | VList l, VList l' => bool_decide (l = l')
  | _, _ => false
  end.

(** ** [sim/events.py] *)

(** No caller in the repository passes keyword arguments to
    [send_message]; the [kwargs] field of the two message events is always
    the empty dictionary and is left out. *)
Inductive Event : Type :=
| NodeJoin (node_id : option Z)
| NodeFail (node_id : option Z)
| SendMessage (src_id : Z) (dst_id : option Z) (rpc_name : string)
    (args : list pyval)
| ReceiveMessage (src_id : Z) (dst_id : option Z) (rpc_name : string)
    (args : list pyval)
| TimeoutExpired (node_id : Z) (timer_id : string)
| StabilizeTick (node_id : Z)
| LookupEvent (start_id key_id : Z).

(** ** State of a node and of the environment *)

Record Node : Type := mkNode {
  node_id : Z;
  bootstrap_id : option Z;
  physical_id : Z;
  count_stats : bool;
  finger : list (option Z);
  successor : option Z;
  predecessor : option Z;
  successor_list : list (option Z);
  next_finger : Z;
  active : bool;
  lookups : Z;
  lookup_fail : Z;
  pending : list (pyval * Z)
}.

Definition set_finger (n : Node) (f : list (option Z)) : Node :=
  mkNode n.(node_id) n.(bootstrap_id) n.(physical_id) n.(count_stats) f
    n.(successor) n.(predecessor) n.(successor_list) n.(next_finger)
    n.(active) n.(lookups) n.(lookup_fail) n.(pending).

Definition set_successor (n : Node) (s : option Z) : Node :=
  mkNode n.(node_id) n.(bootstrap_id) n.(physical_id) n.(count_stats)
    n.(finger) s n.(predecessor) n.(successor_list) n.(next_finger)
    n.(active) n.(lookups) n.(lookup_fail) n.(pending).

Definition set_predecessor (n : Node) (p : option Z) : Node :=
  mkNode n.(node_id) n.(bootstrap_id) n.(physical_id) n.(count_stats)
    n.(finger) n.(successor) p n.(successor_list) n.(next_finger)
    n.(active) n.(lookups) n.(lookup_fail) n.(pending).

Definition set_successor_list (n : Node) (l : list (option Z)) : Node :=
  mkNode n.(node_id) n.(bootstrap_id) n.(physical_id) n.(count_stats)
    n.(finger) n.(successor) n.(predecessor) l n.(next_finger)
    n.(active) n.(lookups) n.(lookup_fail) n.(pending).

Definition set_active (n : Node) (a : bool) : Node :=
  mkNode n.(node_id) n.(bootstrap_id) n.(physical_id) n.(count_stats)
    n.(finger) n.(successor) n.(predecessor) n.(successor_list)
    n.(next_finger) a n.(lookups) n.(lookup_fail) n.(pending).

Definition set_counters (n : Node) (l f : Z) : Node :=
  mkNode n.(node_id) n.(bootstrap_id) n.(physical_id) n.(count_stats)
    n.(finger) n.(successor) n.(predecessor) n.(successor_list)
    n.(next_finger) n.(active) l f n.(pending).

Definition set_pending (n : Node) (p : list (pyval * Z)) : Node :=
  mkNode n.(node_id) n.(bootstrap_id) n.(physical_id) n.(count_stats)
    n.(finger) n.(successor) n.(predecessor) n.(successor_list)
    n.(next_finger) n.(active) n.(lookups) n.(lookup_fail) p.

(** The environment.  [queue] is the simulator's agenda, kept in delivery
    order (time, then insertion).  [latest_ring] is [None] until the
    attribute is first assigned.  [rng] and [rng_pos] are the random
    generator; [stabilize_override] records that [exp_4_churn] has been
    imported and has replaced [Node._schedule_stabilize] by a no-op. *)
Record Env : Type := mkEnv {
  now : Q;
  queue : list (Q * Event);
  nodes : dict Node;
  latest_ring : option (list Z);
  rng : nat -> Z;
  rng_pos : nat;
  stabilize_override : bool
}.

Definition set_now (e : Env) (t : Q) : Env :=
  mkEnv t e.(queue) e.(nodes) e.(latest_ring) e.(rng) e.(rng_pos)
    e.(stabilize_override).

Definition set_queue (e : Env) (q : list (Q * Event)) : Env :=
  mkEnv e.(now) q e.(nodes) e.(latest_ring) e.(rng) e.(rng_pos)
    e.(stabilize_override).

Definition set_nodes (e : Env) (d : dict Node) : Env :=
  mkEnv e.(now) e.(queue) d e.(latest_ring) e.(rng) e.(rng_pos)
    e.(stabilize_override).

Definition set_latest_ring (e : Env) (r : list Z) : Env :=
  mkEnv e.(now) e.(queue) e.(nodes) (Some r) e.(rng) e.(rng_pos)
    e.(stabilize_override).

Definition set_rng_pos (e : Env) (p : nat) : Env :=
  mkEnv e.(now) e.(queue) e.(nodes) e.(latest_ring) e.(rng) p
    e.(stabilize_override).

(** [SimEnvironment(seed)]: the seed fixes the oracle. *)
Definition SimEnvironment (oracle : nat -> Z) : Env :=
  mkEnv 0%Q [] [] None oracle 0%nat false.

(** ** The random module *)

(** [random.getrandbits(k)] *)
Definition getrandbits (e : Env) (k : Z) : Z * Env :=
  (e.(rng) e.(rng_pos) mod 2 ^ k, set_rng_pos e (S e.(rng_pos))).

(** [random.choice(seq)] *)
Definition choice {A : Type} (e : Env) (seq : list A) : result (A * Env) :=
  match seq !! Z.to_nat (e.(rng) e.(rng_pos) mod Z.of_nat (length seq)) with
  | Some x => Ok (x, set_rng_pos e (S e.(rng_pos)))
  | None => Raise IndexError
  end.

(** ** [sim/environment.py]: scheduling *)

(** Insertion in the agenda: after every entry that is due no later. *)
Fixpoint enqueue (t : Q) (ev : Event) (q : list (Q * Event))
  : list (Q * Event) :=
  match q with
  | [] => [(t, ev)]
  | (t', ev') :: q' =>
      if Qle_bool t' t then (t', ev') :: enqueue t ev q'
      else (t, ev) :: q
  end.

Definition schedule_event (e : Env) (delay : Q) (ev : Event) : Env :=
  set_queue e (enqueue (Qred (e.(now) + delay)) ev e.(queue)).

Definition register_node (e : Env) (n : Node) : Env :=
  set_nodes e (dict_set n.(node_id) n e.(nodes)).

Definition send_message (e : Env) (src_id : Z) (dst_id : option Z)
    (rpc_name : string) (args : list pyval) : Env :=
  schedule_event e 0 (SendMessage src_id dst_id rpc_name args).

(** Node ids of the active nodes, in dictionary order:
    [nid for nid, n in self.nodes.items() if n.active]. *)
Definition active_ids (d : dict Node) : list Z :=
  fst <$> filter (fun kv => active kv.2 = true) d.

(** ** [sim/node.py] *)

(** Writes the fields of [self] back: the object registered under
    [self.node_id] is the one the method has mutated. *)
Definition store (e : Env) (self : Node) : Env :=
  set_nodes e (dict_set self.(node_id) self e.(nodes)).

(** Python's default recursion limit, which bounds
    [find_successor_local]. *)
Definition RECURSION_LIMIT : nat := 1000.

Definition _schedule_stabilize (e : Env) (self : Node) : Env :=
  if e.(stabilize_override) then e
  else schedule_event e STABILIZE_INTERVAL (StabilizeTick self.(node_id)).

Definition _create_ring (self : Node) : Node :=
  let self := set_predecessor self None in
  let self := set_successor self (Some self.(node_id)) in
  let self :=
    set_finger self
      (fold_left (fun f i => <[i := Some self.(node_id)]> f)
         (seq 0 (Z.to_nat M)) self.(finger)) in
  set_successor_list self
    (replicate (Z.to_nat SUCCESSOR_LIST_SIZE) (Some self.(node_id))).

Fixpoint scan_fingers (self_id id_key : Z) (fs : list (option Z)) : Z :=
  match fs with
  | [] => self_id
  | Some f :: fs' =>
      if in_interval f self_id id_key false false then f
      else scan_fingers self_id id_key fs'
  | None :: fs' => scan_fingers self_id id_key fs'
  end.

(** The scan reads [finger[M-1]] first, so a table shorter than [M]
    raises at once; a longer one is read on its first [M] entries. *)
Definition closest_preceding_finger_local (self : Node) (id_key : Z)
  : result Z :=
  if (length self.(finger) <? Z.to_nat M)%nat then Raise IndexError
  else
    Ok (scan_fingers self.(node_id) id_key
          (reverse (take (Z.to_nat M) self.(finger)))).

Fixpoint find_successor_local (fuel : nat) (d : dict Node) (self : Node)
    (id_key : Z) : result Node :=
  match fuel with
  | O => Raise RecursionError
  | S fuel' =>
      if id_key =? self.(node_id) then Ok self
      else
        let! s := opt_int self.(successor) in
        if in_interval id_key self.(node_id) s false true then
          dict_getitem s d
        else
          let! cp_id := closest_preceding_finger_local self id_key in
          let! cp := dict_getitem cp_id d in
          find_successor_local fuel' d cp id_key
  end.

Definition _join (e : Env) (self : Node) (bootstrap : Z)
  : result (Env * Node) :=
  let! b := dict_getitem bootstrap e.(nodes) in
  let! successor_node :=
    find_successor_local RECURSION_LIMIT e.(nodes) b self.(node_id) in
  let self := set_successor self (Some successor_node.(node_id)) in
  let self :=
    set_finger self
      (self.(successor)
         :: replicate (Z.to_nat (M - 1)) (Some self.(node_id))) in
  let self := set_successor_list self [self.(successor)] in
  let self := set_predecessor self None in
  Ok (send_message e self.(node_id) self.(successor) "notify" [], self).

(** [Node(env, bootstrap_id, physical_id, count_stats)].  The constructor
    returns the new node's id together with the environment in which the
    node is registered. *)
Definition Node_init (e : Env) (bootstrap : option Z)
    (phys : option Z) (stats : bool) : result (Z * Env) :=
  let (nid, e) := getrandbits e M in
  let self :=
    mkNode nid bootstrap (default nid phys) stats
      (replicate (Z.to_nat M) None) None None [] 0 true 0 0 [] in
  let e := register_node e self in
  let e := _schedule_stabilize e self in
  let! es :=
    match bootstrap with
    | None => Ok (e, _create_ring self)
    | Some b => _join e self b
    end in
  Ok (nid, store es.1 es.2).

(** The number of active nodes, [sum(1 for node in ... if node.active)]. *)
Definition count_active (d : dict Node) : nat := length (active_ids d).

(** [math.log2] on the reals. *)
Definition log2 (x : R) : R := (ln x / ln 2)%R.

(** [timeout_duration]; Python's floats are read as real numbers. *)
Definition timeout_duration (e : Env) : R :=
  let no_of_nodes := Z.max 1 (Z.of_nat (count_active e.(nodes))) in
  (4 * Q2R BASE_LATENCY * log2 (IZR no_of_nodes))%R.

(** *** Event handlers and periodic tasks *)

Definition join (e : Env) (self : Node) : result Env :=
  match self.(bootstrap_id) with
  | None => Raise KeyError
  | Some b =>
      let! es := _join e self b in
      Ok (store es.1 es.2)
  end.

Definition fail (e : Env) (self : Node) : result Env :=
  Ok (store e (set_active self false)).

Definition stabilize (e : Env) (self : Node) : result Env :=
  match self.(successor) with
  | Some s =>
      let e := send_message e self.(node_id) (Some s) "get_predecessor" [] in
      Ok (send_message e self.(node_id) (Some s) "get_successor_list" [])
  | None => Ok e
  end.

Definition check_predecessor (e : Env) (self : Node) : result Env :=
  match self.(predecessor) with
  | Some p =>
      match dict_get p e.(nodes) with
      | Some node =>
          if node.(active) then Ok e
          else Ok (store e (set_predecessor self None))
      | None => Ok (store e (set_predecessor self None))
      end
  | None => Ok e
  end.

(** *** RPC handlers *)

Definition rpc_find_successor (e : Env) (self : Node) (src_id : Z)
    (id_key req_id : pyval) : result Env :=
  let successor := self.(successor) in
  let! k := as_int id_key in
  let! s := opt_int successor in
  if in_interval k self.(node_id) s false true then
    Ok (send_message e self.(node_id) (Some src_id)
          "find_successor_response" [id_key; req_id])
  else
    let! cp := closest_preceding_finger_local self k in
    Ok (send_message e self.(node_id) (Some cp)
          "find_successor" [id_key; req_id]).

(** [req_id in self.pending] and [self.pending.pop(req_id)]; a list is
    not hashable. *)
Fixpoint pending_get (req_id : pyval) (p : list (pyval * Z)) : option Z :=
  match p with
  | [] => None
  | (r, k) :: p' => if pyval_eqb req_id r then Some k else pending_get req_id p'
  end.

Fixpoint pending_pop (req_id : pyval) (p : list (pyval * Z))
  : list (pyval * Z) :=
  match p with
  | [] => []
  | (r, k) :: p' =>
      if pyval_eqb req_id r then p' else (r, k) :: pending_pop req_id p'
  end.

Definition rpc_find_successor_response (e : Env) (self : Node) (src_id : Z)
    (successor_id req_id : pyval) : result Env :=
  match req_id with
  | VList _ => Raise TypeError
  | _ =>
      match pending_get req_id self.(pending) with
      | Some key =>
          let self := set_pending self (pending_pop req_id self.(pending)) in
          let ring := default [] e.(latest_ring) in
          let! owner := ring_owner ring key in
          if negb (pyval_eqb successor_id (VInt owner)) then
            Ok (store e
                  (set_counters self self.(lookups) (self.(lookup_fail) + 1)))
          else Ok (store e self)
      | None =>
          Ok (send_message e self.(node_id) (Some src_id)
                "find_successor_response" [successor_id; req_id])
      end
  end.

Definition rpc_notify (e : Env) (self : Node) (src_id : Z) : result Env :=
  match self.(predecessor) with
  | None => Ok (store e (set_predecessor self (Some src_id)))
  | Some p =>
      if in_interval src_id p self.(node_id) false false then
        Ok (store e (set_predecessor self (Some src_id)))
      else Ok e
  end.

Definition rpc_get_predecessor (e : Env) (self : Node) (src_id : Z)
  : result Env :=
  Ok (send_message e self.(node_id) (Some src_id)
        "get_predecessor_response" [of_opt self.(predecessor)]).

Definition rpc_get_successor_list (e : Env) (self : Node) (src_id : Z)
  : result Env :=
  Ok (send_message e self.(node_id) (Some src_id)
        "get_successor_list_response" [VList self.(successor_list)]).

Definition rpc_get_predecessor_response (e : Env) (self : Node)
    (pred_id : pyval) : result Env :=
  let! self :=
    match pred_id with
    | VNone => Ok self
    | _ =>
        let! p := as_int pred_id in
        let! s := opt_int self.(successor) in
        if in_interval p self.(node_id) s false false then
          Ok (set_successor self (Some p))
        else Ok self
    end in
  let e := store e self in
  let e := send_message e self.(node_id) self.(successor) "notify" [] in
  Ok (send_message e self.(node_id) self.(successor) "get_successor_list" []).

Definition rpc_get_successor_list_response (e : Env) (self : Node)
    (successor_list : pyval) : result Env :=
  match successor_list with
  | VList l =>
      let updated :=
        self.(successor) :: take (Z.to_nat (SUCCESSOR_LIST_SIZE - 1)) l in
      Ok (store e (set_successor_list self updated))
  | _ => Raise TypeError
  end.

Definition rpc_notify_sync (e : Env) (self : Node) (src_id : Z)
  : result Env :=
  match self.(predecessor) with
  | None => Ok (store e (set_predecessor self (Some src_id)))
  | Some p =>
      if in_interval src_id p self.(node_id) false false then
        Ok (store e (set_predecessor self (Some src_id)))
      else Ok e
  end.

(** [receive_message]: [getattr(self, "rpc_" + rpc_name, None)] finds the
    handler, which is then called as [handler(src_id, *args)].  The
    positional arguments [src_id :: args] are bound to the parameters the
    handler declares after [self]; a different count raises [TypeError].
    A name without a handler is ignored. *)
Definition receive_message (e : Env) (self : Node) (src_id : Z)
    (rpc_name : string) (args : list pyval) : result Env :=
  if String.eqb rpc_name "find_successor" then
    match args with
    | [id_key; req_id] => rpc_find_successor e self src_id id_key req_id
    | _ => Raise TypeError
    end
  else if String.eqb rpc_name "find_successor_response" then
    match args with
    | [successor_id; req_id] =>
        rpc_find_successor_response e self src_id successor_id req_id
    | _ => Raise TypeError
    end
  else if String.eqb rpc_name "notify" then
    match args with
    | [] => rpc_notify e self src_id
    | _ => Raise TypeError
    end
  else if String.eqb rpc_name "get_predecessor" then
    match args with
    | [] => rpc_get_predecessor e self src_id
    | _ => Raise TypeError
    end
  else if String.eqb rpc_name "get_successor_list" then
    match args with
    | [] => rpc_get_successor_list e self src_id
    | _ => Raise TypeError
    end
  else if String.eqb rpc_name "get_predecessor_response" then
    match args with
    | [] => rpc_get_predecessor_response e self (VInt src_id)
    | _ => Raise TypeError
    end
  else if String.eqb rpc_name "get_successor_list_response" then
    match args with
    | [] => rpc_get_successor_list_response e self (VInt src_id)
    | _ => Raise TypeError
    end
  else if String.eqb rpc_name "notify_sync" then
    match args with
    | [] => rpc_notify_sync e self src_id
    | _ => Raise TypeError
    end
  else Ok e.

(** *** Lookup API *)

(** [2 * math.ceil(math.log2(len(self.env.nodes) + 1))] *)
Definition hop_budget (d : dict Node) : nat :=
  (2 * Z.to_nat (Z.log2_up (Z.of_nat (length d) + 1)))%nat.

(** The successor-chain walk of the statistics branch; the result is
    [found_valid_successor]. *)
Fixpoint repair_chain (d : dict Node) (actual : Z) (cur : option Z)
    (n : nat) : bool :=
  match n with
  | O => false
  | S n' =>
      match cur ≫= (fun c => dict_get c d) with
      | None => false
      | Some nxt =>
          if negb nxt.(active) then false
          else
            let cur := nxt.(successor) in
            if bool_decide (cur = Some actual) then true
            else repair_chain d actual cur n'
      end
  end.

(** The [for _ in range(hop_budget)] loop.  The result pairs the returned
    value with whether [lookup_fail] has been incremented. *)
Fixpoint lookup_loop (d : dict Node) (key_id : Z) (stats : bool)
    (budget : nat) (nid : Z) (visited : list Z)
  : result (option Z * bool) :=
  match budget with
  | O => Ok (None, stats)
  | S budget' =>
      match dict_get nid d with
      | None => Ok (None, stats)
      | Some node =>
          if negb node.(active) || bool_decide (nid ∈ visited) then
            Ok (None, stats)
          else if key_id =? node.(node_id) then
            Ok (Some node.(node_id), false)
          else
            let! successor := opt_int node.(successor) in
            if in_interval key_id node.(node_id) successor false true then
              if stats then
                let live_ring := sorted (active_ids d) in
                let! actual := ring_owner live_ring key_id in
                if negb (successor =? actual) then
                  let found :=
                    repair_chain d actual (Some successor)
                      (Z.to_nat (SUCCESSOR_LIST_SIZE - 1)) in
                  Ok (Some successor, negb found)
                else Ok (Some successor, false)
              else Ok (Some successor, false)
            else
              let! cp := closest_preceding_finger_local node key_id in
              lookup_loop d key_id stats budget' cp (nid :: visited)
      end
  end.

Definition lookup_iterative (e : Env) (self : Node) (key_id : Z)
    (stats : bool) : result (option Z * Env) :=
  let self :=
    if stats then set_counters self (self.(lookups) + 1) self.(lookup_fail)
    else self in
  let! r :=
    lookup_loop e.(nodes) key_id stats (hop_budget e.(nodes))
      self.(node_id) [] in
  let self :=
    if r.2 then set_counters self self.(lookups) (self.(lookup_fail) + 1)
    else self in
  Ok (r.1, if stats then store e self else e).

(** The methods of [Node] that take no argument besides [self], looked up
    by name as [node.<name>()] does; a name the class does not define
    raises [AttributeError]. *)
Definition Node_method (name : string)
  : result (Env -> Node -> result Env) :=
  if String.eqb name "join" then Ok join
  else if String.eqb name "fail" then Ok fail
  else if String.eqb name "stabilize" then Ok stabilize
  else if String.eqb name "check_predecessor" then Ok check_predecessor
  else if String.eqb name "_schedule_stabilize" then
    Ok (fun e self => Ok (_schedule_stabilize e self))
  else if String.eqb name "_create_ring" then
    Ok (fun e self => Ok (store e (_create_ring self)))
  else Raise AttributeError.

Definition call_method (e : Env) (self : Node) (name : string)
  : result Env :=
  let! m := Node_method name in
  m e self.

(** ** [sim/environment.py]: dispatch *)

Definition refresh_latest_ring (e : Env) : Env :=
  set_latest_ring e (sorted (active_ids e.(nodes))).

(** [self.nodes[failed_node].active = False] and the refresh that
    follows. *)
Definition mark_failed (e : Env) (failed_node : Z) : result Env :=
  let! n := dict_getitem failed_node e.(nodes) in
  let e := set_nodes e (dict_set failed_node (set_active n false) e.(nodes)) in
  Ok (refresh_latest_ring e).

Definition _dispatch_event (e : Env) (event : Event) : result Env :=
  match event with
  | NodeJoin _ =>
      let! r :=
        match e.(nodes) with
        | [] => Node_init e None None false
        | _ =>
            let! bootstrap := dict_min e.(nodes) in
            Node_init e (Some bootstrap) None false
        end in
      Ok (refresh_latest_ring r.2)
  | NodeFail (Some failed_node) => mark_failed e failed_node
  | NodeFail None =>
      let live := active_ids e.(nodes) in
      if (length live <=? 1)%nat then Ok e
      else
        let! c := choice e live in
        mark_failed c.2 c.1
  | SendMessage src dst rpc args =>
      Ok (schedule_event e BASE_LATENCY (ReceiveMessage src dst rpc args))
  | ReceiveMessage src dst rpc args =>
      match dst ≫= (fun d => dict_get d e.(nodes)) with
      | Some node =>
          if node.(active) then receive_message e node src rpc args
          else Ok e
      | None => Ok e
      end
  | TimeoutExpired nid _ =>
      match dict_get nid e.(nodes) with
      | Some node =>
          if node.(active) then call_method e node "handle_timeout"
          else Ok e
      | None => Ok e
      end
  | StabilizeTick nid =>
      match dict_get nid e.(nodes) with
      | Some node =>
          if node.(active) then call_method e node "handle_stabilize_tick"
          else Ok e
      | None => Ok e
      end
  | LookupEvent start key =>
      match dict_get start e.(nodes) with
      | Some node =>
          if node.(active) then
            let! r := lookup_iterative e node key true in
            Ok r.2
          else Ok e
      | None => Ok e
      end
  end.

(** [run(until)]: an [until] that is not in the future is refused; events
    due strictly before [until] are delivered in agenda order, an exception
    raised by a handler leaves [run], and the clock ends at [until].
    Without [until] the agenda is emptied.  The result is [None] when
    [fuel] deliveries were not enough. *)
Fixpoint run_loop (fuel : nat) (until : option Q) (e : Env)
  : option (result Env) :=
  match e.(queue) with
  | [] => Some (Ok (from_option (set_now e) e until))
  | (t, ev) :: q =>
      if from_option (fun u => Qle_bool u t) false until then
        Some (Ok (from_option (set_now e) e until))
      else
        match fuel with
        | O => None
        | S fuel' =>
            match _dispatch_event (set_queue (set_now e t) q) ev with
            | Ok e' => run_loop fuel' until e'
            | Raise x => Some (Raise x)
            end
        end
  end.

Definition run (fuel : nat) (until : option Q) (e : Env)
  : option (result Env) :=
  if from_option (fun u => Qle_bool u e.(now)) false until then
    Some (Raise ValueError)
  else run_loop fuel until e.

(** ** [experiments/exp_4_churn.py]: [warm_up] *)

(** [(nid + (1 << b)) % MAX_ID], the start of finger [b]. *)
Definition finger_start (nid : Z) (b : nat) : Z :=
  (nid + Z.shiftl 1 (Z.of_nat b)) mod MAX_ID.

(** The body of [for b in range(m)]. *)
Definition warm_finger (ring_ids : list Z) (nid : Z)
    (f : list (option Z)) (b : nat) : result (list (option Z)) :=
  let start := finger_start nid b in
  let! owner := ring_owner ring_ids start in
  list_setitem f b (Some owner).

Fixpoint warm_fingers (ring_ids : list Z) (nid : Z)
    (f : list (option Z)) (bs : list nat) : result (list (option Z)) :=
  match bs with
  | [] => Ok f
  | b :: bs' =>
      let! f' := warm_finger ring_ids nid f b in
      warm_fingers ring_ids nid f' bs'
  end.

(** The body of [for idx, nid in enumerate(ring_ids)] on the node found
    under [nid]. *)
Definition warm_node (ring_ids : list Z) (m : nat) (idx : nat) (nid : Z)
    (node : Node) : result Node :=
  let n_nodes := Z.of_nat (length ring_ids) in
  let r := SUCCESSOR_LIST_SIZE in
  let! s := list_getitem ring_ids ((Z.of_nat idx + 1) mod n_nodes) in
  let node := set_successor node (Some s) in
  let! p := list_getitem ring_ids (Z.of_nat idx - 1) in
  let node := set_predecessor node (Some p) in
  let! sl :=
    fold_right
      (fun j acc =>
         let! x := list_getitem ring_ids ((Z.of_nat idx + Z.of_nat j) mod n_nodes) in
         let! rest := acc in
         Ok (Some x :: rest))
      (Ok []) (seq 1 (Z.to_nat r)) in
  let node := set_successor_list node sl in
  let! f := warm_fingers ring_ids nid node.(finger) (seq 0 m) in
  Ok (set_finger node f).

Fixpoint warm_loop (ring_ids : list Z) (m : nat) (l : list (nat * Z))
    (d : dict Node) : result (dict Node) :=
  match l with
  | [] => Ok d
  | (idx, nid) :: l' =>
      let! node := dict_getitem nid d in
      let! node' := warm_node ring_ids m idx nid node in
      warm_loop ring_ids m l' (dict_set nid node' d)
  end.

Definition enumerate {A : Type} (l : list A) : list (nat * A) :=
  zip (seq 0 (length l)) l.

Definition warm_up (e : Env) : result Env :=
  let ring_ids := sorted (active_ids e.(nodes)) in
  let e := set_latest_ring e ring_ids in
  let! first :=
    match dict_keys e.(nodes) with
    | [] => Raise StopIteration
    | k :: _ => Ok k
    end in
  let! fnode := dict_getitem first e.(nodes) in
  let m := length fnode.(finger) in
  let! d := warm_loop ring_ids m (enumerate ring_ids) e.(nodes) in
  Ok (set_nodes e d).

(** ** Measures and well-formedness used in the statements *)

(** The number of ring members strictly between [cur] and the key [k],
    clockwise. *)
Definition arc_count (ring : list Z) (k cur : Z) : nat :=
  length (filter (fun x => in_interval x cur k false false = true) ring).

(** A registry as the constructors build it: every key is held once, a
    node is registered under its own id, ids are ring identifiers, and a
    finger table has [M] slots. *)
Definition registry_ok (d : dict Node) : Prop :=
  NoDup (dict_keys d) /\
  Forall (fun kv => node_id kv.2 = kv.1 /\ 0 <= kv.1 < MAX_ID /\
                    length (finger kv.2) = Z.to_nat M) d.

(** ** Sample environments *)

(** A registered, active node that knows only its successor. *)
Definition plain_node (nid : Z) (succ : option Z) : Node :=
  mkNode nid None nid false (replicate (Z.to_nat M) None) succ None [] 0
    true 0 0 [].

Definition env_of (d : dict Node) : Env :=
  mkEnv 0%Q [] d None (fun _ => 0) 0%nat false.

(** One node. *)
Definition env_one : Env := env_of [(7, plain_node 7 (Some 7))].

(** Two nodes, ids [10] and [20], each the other's successor. *)
Definition env_two : Env :=
  env_of [(10, plain_node 10 (Some 20)); (20, plain_node 20 (Some 10))].

(** A fresh environment, and the environment left by the construction of
    its first node. *)
Definition env_fresh : Env := SimEnvironment (fun _ => 42).

Definition env_first : Env :=
  match Node_init env_fresh None None false with
  | Ok (_, e) => e
  | Raise _ => env_fresh
  end.

(** Two nodes of which the one with the smallest id has failed. *)
Definition env_failed_min : Env :=
  env_of [(9, plain_node 9 (Some 9));
          (5, set_active (plain_node 5 (Some 5)) false)].

(** [env_two] after [warm_up]. *)
Definition env_two_warm : Env :=
  match warm_up env_two with
  | Ok e => e
  | Raise _ => env_two
  end.

(** Seven nodes whose ids halve the distance to the top of the ring:
    [0], [2^159], [2^159 + 2^158], ..., each step adding the next lower
    power of two. *)
Definition chain_ids : list Z :=
  [0;
   2 ^ 159;
   2 ^ 159 + 2 ^ 158;
   2 ^ 159 + 2 ^ 158 + 2 ^ 157;
   2 ^ 159 + 2 ^ 158 + 2 ^ 157 + 2 ^ 156;
   2 ^ 159 + 2 ^ 158 + 2 ^ 157 + 2 ^ 156 + 2 ^ 155;
   2 ^ 159 + 2 ^ 158 + 2 ^ 157 + 2 ^ 156 + 2 ^ 155 + 2 ^ 154].

Definition env_chain : Env :=
  env_of ((fun k => (k, plain_node k None)) <$> chain_ids).

Definition env_chain_warm : Env :=
  match warm_up env_chain with
  | Ok e => e
  | Raise _ => env_chain
  end.


(** ** [experiments/exp_3_mass_failure.py]: [owner_before_crash] *)

(** The body of [for k in keys]: [owners[k] = live_ring[idx]]. *)
Definition record_owner (live_ring : list Z) (acc : result (dict Z)) (k : Z)
  : result (dict Z) :=
  let! owners := acc in
  let! o := ring_owner live_ring k in
  Ok (dict_set k o owners).

(** The first key whose owner cannot be read ends the loop with its
    exception. *)
Definition owner_before_crash (keys live_ring : list Z) : result (dict Z) :=
  fold_left (record_owner live_ring) keys (Ok []).

(** ** [sim/node.py]: synchronous helpers of the churn loop *)

(** [check_predecessor_sync(nodes)]: [ns] is the dictionary the caller
    passes. *)
Definition check_predecessor_sync (e : Env) (self : Node) (ns : dict Node)
  : result Env :=
  match self.(predecessor) with
  | None => Ok (store e (set_predecessor self None))
  | Some p =>
      match dict_get p ns with
      | None => Ok (store e (set_predecessor self None))
      | Some node =>
          if negb node.(active) then Ok (store e (set_predecessor self None))
          else Ok e
      end
  end.

(** [fix_specific_finger_sync(idx)] for an index of [range(...)]. *)
Definition fix_specific_finger_sync (e : Env) (self : Node) (idx : nat)
  : result Env :=
  let start := finger_start self.(node_id) idx in
  let! sn := find_successor_local RECURSION_LIMIT e.(nodes) self start in
  let! f := list_setitem self.(finger) idx (Some sn.(node_id)) in
  Ok (store e (set_finger self f)).

(** [nid in nodes and nodes[nid].active], for a pointer that may be
    [None]. *)
Definition is_live (ns : dict Node) (o : option Z) : bool :=
  match o ≫= (fun s => dict_get s ns) with
  | Some n => n.(active)
  | None => false
  end.

(** [[nid for nid, n in nodes.items() if n.active and nid != self.node_id]] *)
Definition live_others (ns : dict Node) (self_id : Z) : list Z :=
  fst <$> filter (fun kv => active kv.2 = true /\ kv.1 <> self_id) ns.

(** Step 0 of [stabilize_sync], the [while] loop; [fuel] bounds its
    iterations.  The result carries the random generator, the node, and
    whether the loop was left by the [return] of an isolated node. *)
Fixpoint ensure_live_successor (fuel : nat) (e : Env) (self : Node)
    (ns : dict Node) : option (result (Env * Node * bool)) :=
  if is_live ns self.(successor) then Some (Ok (e, self, false))
  else
    match fuel with
    | O => None
    | S fuel' =>
        match self.(successor_list) with
        | x :: sl =>
            ensure_live_successor fuel' e
              (set_successor_list (set_successor self x) sl) ns
        | [] =>
            match live_others ns self.(node_id) with
            | [] =>
                Some (Ok (e, set_successor self (Some self.(node_id)), true))
            | live =>
                match choice e live with
                | Ok (c, e') =>
                    ensure_live_successor fuel' e'
                      (set_successor self (Some c)) ns
                | Raise x => Some (Raise x)
                end
            end
        end
    end.

(** Steps 1 and 2 of [stabilize_sync], once the successor is live. *)
Definition tighten_and_notify (e : Env) (self : Node) (ns : dict Node)
  : result Env :=
  match self.(successor) with
  | None => Raise KeyError
  | Some s =>
      if s =? self.(node_id) then Ok (store e self)
      else
        let! successor_node := dict_getitem s ns in
        let r := SUCCESSOR_LIST_SIZE in
        let self :=
          set_successor_list self
            (Some s :: take (Z.to_nat (r - 1)) successor_node.(successor_list)) in
        let! res :=
          match successor_node.(predecessor) with
          | Some p =>
              if is_live ns (Some p)
                 && in_interval p self.(node_id) s false false then
                let! pn := dict_getitem p ns in
                Ok (set_successor_list (set_successor self (Some p))
                      (Some p :: take (Z.to_nat (r - 1)) pn.(successor_list)),
                    pn)
              else Ok (self, successor_node)
          | None => Ok (self, successor_node)
          end in
        rpc_notify_sync (store e res.1) res.2 self.(node_id)
  end.

(** [stabilize_sync(nodes)]; [None] when [fuel] iterations of the loop
    were not enough. *)
Definition stabilize_sync (fuel : nat) (e : Env) (self : Node)
    (ns : dict Node) : option (result Env) :=
  match ensure_live_successor fuel e self ns with
  | None => None
  | Some (Raise x) => Some (Raise x)
  | Some (Ok (e, self, true)) => Some (Ok (store e self))
  | Some (Ok (e, self, false)) => Some (tighten_and_notify e self ns)
  end.

(** ** [experiments/exp_4_churn.py]: one pass of [global_stabilizer] *)

(** [max(1, math.ceil(math.log2(n_nodes)))], the logarithm read on the
    reals. *)
Definition max_no_of_fingers (n_nodes : nat) : nat :=
  Z.to_nat (Z.max 1 (Z.log2_up (Z.of_nat n_nodes))).

(** [for idx_to_fix in range(...): node.fix_specific_finger_sync(idx_to_fix)] *)
Fixpoint fix_fingers (e : Env) (nid : Z) (idxs : list nat) : result Env :=
  match idxs with
  | [] => Ok e
  | i :: rest =>
      let! node := dict_getitem nid e.(nodes) in
      let! e := fix_specific_finger_sync e node i in
      fix_fingers e nid rest
  end.

(** The body of [for idx, nid in enumerate(ring)]. *)
Definition stabilize_node (fuel : nat) (ring : list Z) (e : Env)
    (idx : nat) (nid : Z) : option (result Env) :=
  match dict_get nid e.(nodes) with
  | None => Some (Raise KeyError)
  | Some node =>
      if negb node.(active) then Some (Ok e)
      else
        let n_nodes := Z.of_nat (length ring) in
        let refreshed :=
          if is_live e.(nodes) node.(successor) then Ok (e, node)
          else
            let! s := list_getitem ring ((Z.of_nat idx + 1) mod n_nodes) in
            let node := set_successor node (Some s) in
            Ok (store e node, node) in
        match refreshed with
        | Raise x => Some (Raise x)
        | Ok (e, node) =>
            match stabilize_sync fuel e node e.(nodes) with
            | None => None
            | Some (Raise x) => Some (Raise x)
            | Some (Ok e) =>
                Some
                  (let! e :=
                     fix_fingers e nid
                       (seq 0 (max_no_of_fingers (length ring))) in
                   let! node := dict_getitem nid e.(nodes) in
                   check_predecessor_sync e node e.(nodes))
            end
        end
  end.

Fixpoint stabilize_nodes (fuel : nat) (ring : list Z) (e : Env)
    (l : list (nat * Z)) : option (result Env) :=
  match l with
  | [] => Some (Ok e)
  | (idx, nid) :: l' =>
      match stabilize_node fuel ring e idx nid with
      | Some (Ok e) => stabilize_nodes fuel ring e l'
      | r => r
      end
  end.

(** One pass of the [while] loop of [global_stabilizer], from the point
    where its timeout has elapsed; with no active node the generator
    ends. *)
Definition stabilizer_round (fuel : nat) (e : Env) : option (result Env) :=
  let ring := sorted (active_ids e.(nodes)) in
  let e := set_latest_ring e ring in
  if (length ring =? 0)%nat then Some (Ok e)
  else stabilize_nodes fuel ring e (enumerate ring).

(** ** [experiments]: bootstrapping Chord *)

(** [for _ in range(k): Node(env, bootstrap_id=first.node_id, ...)] *)
Fixpoint add_nodes (k : nat) (e : Env) (first : Z) (stats : bool)
  : result Env :=
  match k with
  | O => Ok e
  | S k' =>
      let! r := Node_init e (Some first) None stats in
      add_nodes k' r.2 first stats
  end.

(** Step 1 of [run_mass_failure] and of [run_churn]: the first node, then
    [no_of_nodes - 1] nodes that join through it. *)
Definition bootstrap_chord (no_of_nodes : Z) (e : Env) (stats : bool)
  : result (Z * Env) :=
  let! r := Node_init e None None stats in
  let! e := add_nodes (Z.to_nat (no_of_nodes - 1)) r.2 r.1 stats in
  Ok (r.1, e).

(** The shape bootstrapping leaves: [first] is registered, every node is
    active, registered under its own ring identifier, and has [first] as
    successor; a node other than [first] has no predecessor, the successor
    list [[first]], and the finger table [first] followed by [M - 1] copies
    of its own id. *)
Definition star_shaped (first : Z) (d : dict Node) : Prop :=
  first ∈ dict_keys d /\
  Forall (fun kv =>
            node_id kv.2 = kv.1 /\ 0 <= kv.1 < MAX_ID /\
            active kv.2 = true /\ successor kv.2 = Some first /\
            (kv.1 <> first ->
             predecessor kv.2 = None /\
             successor_list kv.2 = [Some first] /\
             finger kv.2
             = Some first :: replicate (Z.to_nat (M - 1)) (Some kv.1))) d.

(** A star of three nodes around node [5]. *)
Definition env_star : Env :=
  env_of
    [(5, plain_node 5 (Some 5));
     (9, set_successor_list
           (set_finger (plain_node 9 (Some 5))
              (Some 5 :: replicate (Z.to_nat (M - 1)) (Some 9)))
           [Some 5]);
     (2, set_successor_list
           (set_finger (plain_node 2 (Some 5))
              (Some 5 :: replicate (Z.to_nat (M - 1)) (Some 2)))
           [Some 5])].

(** A fresh environment as [run_mass_failure] and [run_churn] see it:
    both modules load [exp_4_churn], which replaces
    [Node._schedule_stabilize].  The generator draws [0], then [1] for
    ever. *)
Definition env_experiment : Env :=
  mkEnv 0%Q [] [] None (fun i => match i with O => 0 | S _ => 1 end) 0%nat
    true.

(** ** [experiments/exp_3_mass_failure.py]: the crash *)

(** [for nid in failed_nodes: env.nodes[nid].active = False] *)
Fixpoint crash_nodes (failed_nodes : list Z) (e : Env) : result Env :=
  match failed_nodes with
  | [] => Ok e
  | nid :: rest =>
      let! n := dict_getitem nid e.(nodes) in
      crash_nodes rest
        (set_nodes e (dict_set nid (set_active n false) e.(nodes)))
  end.

(** Step 4 of [run_mass_failure]: the crash, then
    [env.latest_ring = [nid for nid in env.latest_ring
                        if nid not in failed_nodes]]; the attribute must
    have been assigned. *)
Definition crash (failed_nodes : list Z) (e : Env) : result Env :=
  let! e := crash_nodes failed_nodes e in
  match e.(latest_ring) with
  | None => Raise AttributeError
  | Some ring =>
      Ok (set_latest_ring e (filter (fun nid => nid ∉ failed_nodes) ring))
  end.

(** ** Constructor calls in sequence *)










(** [env_two] after a [notify] from node [10] to node [20] has been sent
    and delivered. *)
Definition env_two_notified : Env :=
  match run 2 None (send_message env_two 10 (Some 20) "notify" []) with
  | Some (Ok e) => e
  | _ => env_two
  end.

(** The node registered under [10] in [env_two_warm]. *)
Definition node_10_warm : Node :=
  match dict_get 10 (nodes env_two_warm) with
  | Some n => n
  | None => plain_node 10 None
  end.
(** * Properties *)

(** ** Ring arithmetic *)

Lemma MAX_ID_pos : 1 < MAX_ID.
Proof. reflexivity. Qed.

Global Opaque MAX_ID.

(** Unfolds [in_interval] on identifiers already reduced modulo [MAX_ID]
    and splits every comparison. *)
Ltac ring_cases :=
  unfold in_interval;
  repeat match goal with
         | H : 0 <= ?x < MAX_ID |- _ =>
             rewrite (Z.mod_small x MAX_ID H) in *
         end;
  repeat match goal with
         | |- context [?a <? ?b] => destruct (Z.ltb_spec a b)
         | |- context [?a =? ?b] => destruct (Z.eqb_spec a b)
         | H : context [?a <? ?b] |- _ => destruct (Z.ltb_spec a b)
         | H : context [?a =? ?b] |- _ => destruct (Z.eqb_spec a b)
         end;
  simpl in *; try congruence; try lia.

Section IntervalFacts.

Variables x a : Z.
Hypothesis Hx : 0 <= x < MAX_ID.
Hypothesis Ha : 0 <= a < MAX_ID.

Lemma in_interval_same_open : in_interval x a a false false = negb (x =? a).
Proof. ring_cases. Qed.

Lemma in_interval_same_closed : in_interval x a a true true = true.
Proof. ring_cases. Qed.

Lemma in_interval_same_half : in_interval x a a false true = negb (x =? a).
Proof. ring_cases. Qed.

End IntervalFacts.

(** C3 (as stated, refuted): with both endpoints excluded and
    [start = end], [in_interval] is not empty: the identifier [1] lies in
    the arc from [0] to [0]. *)
Lemma in_interval_same_open_not_empty :
  0 <= 1 < MAX_ID /\ 0 <= 0 < MAX_ID /\
  in_interval 1 0 0 false false <> false.
Proof. vm_compute. repeat split; congruence. Qed.

(** C3 (amended): for identifiers [x] and [a] of the ring,
    [in_interval x a a false false] holds exactly when [x] differs from
    [a] (the whole ring without [a]), and [in_interval x a a true true]
    always holds (the whole ring). *)
Theorem in_interval_degenerate (x a : Z) :
  0 <= x < MAX_ID -> 0 <= a < MAX_ID ->
  in_interval x a a false false = negb (x =? a) /\
  in_interval x a a true true = true.
Proof.
  intros Hx Ha. split.
  - exact (in_interval_same_open x a Hx Ha).
  - exact (in_interval_same_closed x a Hx Ha).
Qed.

Lemma in_interval_degenerate_witness :
  in_interval 0 1 1 false false = negb (0 =? 1) /\
  in_interval 0 1 1 true true = true.
Proof.
  apply (in_interval_degenerate 0 1); vm_compute; split; congruence.
Defined.

(** ** Timeouts *)

Lemma Q2R_BASE_LATENCY_pos : (0 < Q2R BASE_LATENCY)%R.
Proof. unfold Q2R, BASE_LATENCY; simpl. lra. Qed.

Lemma ln_2_pos : (0 < ln 2)%R.
Proof. rewrite <- ln_1. apply ln_increasing; lra. Qed.

Lemma log2_1 : log2 1 = 0%R.
Proof. unfold log2. rewrite ln_1. field. pose proof ln_2_pos. lra. Qed.

Lemma log2_ge_1 (x : R) : (2 <= x)%R -> (1 <= log2 x)%R.
Proof.
  intros Hx. unfold log2. pose proof ln_2_pos as H2.
  assert (ln 2 <= ln x)%R as Hln.
  { destruct Hx as [Hx | <-]; [left; apply ln_increasing; lra | right; reflexivity]. }
  apply (Rmult_le_reg_r (ln 2)); [assumption|].
  unfold Rdiv. rewrite Rmult_assoc, Rinv_l by lra. lra.
Qed.

(** C7 (as stated, refuted): with exactly one active node the timeout is
    zero, below the claimed floor of [4 * BASE_LATENCY]. *)
Lemma timeout_duration_below_floor :
  count_active env_one.(nodes) = 1%nat /\
  (timeout_duration env_one < 4 * Q2R BASE_LATENCY)%R.
Proof.
  split; [reflexivity|].
  unfold timeout_duration.
  replace (Z.max 1 (Z.of_nat (count_active env_one.(nodes)))) with 1
    by reflexivity.
  rewrite log2_1. pose proof Q2R_BASE_LATENCY_pos. lra.
Qed.

(** C7 (amended): [timeout_duration] equals
    [4 * BASE_LATENCY * log2(max(1, N_active))]; it is never negative, it
    is zero when at most one node is active, and it is at least
    [4 * BASE_LATENCY] as soon as two nodes are active. *)
Theorem timeout_duration_spec (e : Env) :
  let n := count_active e.(nodes) in
  timeout_duration e
  = (4 * Q2R BASE_LATENCY * log2 (IZR (Z.max 1 (Z.of_nat n))))%R /\
  (0 <= timeout_duration e)%R /\
  ((n <= 1)%nat -> timeout_duration e = 0%R) /\
  ((2 <= n)%nat -> (4 * Q2R BASE_LATENCY <= timeout_duration e)%R).
Proof.
  intros n. pose proof Q2R_BASE_LATENCY_pos as Hb.
  unfold timeout_duration. fold n.
  split; [reflexivity|].
  assert ((n <= 1)%nat ->
          (4 * Q2R BASE_LATENCY * log2 (IZR (Z.max 1 (Z.of_nat n))))%R = 0%R)
    as Hsmall.
  { intros Hn. replace (Z.max 1 (Z.of_nat n)) with 1 by lia.
    rewrite log2_1. ring. }
  assert ((2 <= n)%nat ->
          (4 * Q2R BASE_LATENCY
           <= 4 * Q2R BASE_LATENCY * log2 (IZR (Z.max 1 (Z.of_nat n))))%R)
    as Hlarge.
  { intros Hn.
    assert (1 <= log2 (IZR (Z.max 1 (Z.of_nat n))))%R as Hl.
    { apply log2_ge_1. apply IZR_le. lia. }
    nra. }
  repeat split; try assumption.
  destruct (Nat.le_gt_cases n 1) as [Hn | Hn].
  - rewrite (Hsmall Hn). lra.
  - specialize (Hlarge Hn). lra.
Qed.

Lemma timeout_duration_spec_witness :
  (4 * Q2R BASE_LATENCY <= timeout_duration env_two)%R.
Proof.
  destruct (timeout_duration_spec env_two) as (_ & _ & _ & H).
  apply H. vm_compute. lia.
Defined.

(** ** Message-driven lookup *)

(** What [rpc_find_successor] sends, for an integer key at a node that
    knows its successor: inside the arc the reply to [src_id] carries the
    key and the request id; outside, the request goes unchanged to the
    closest preceding finger. *)
Lemma rpc_find_successor_sends (e : Env) (self : Node) (src_id k s : Z)
    (req_id : pyval) :
  self.(successor) = Some s ->
  rpc_find_successor e self src_id (VInt k) req_id
  = if in_interval k self.(node_id) s false true then
      Ok (send_message e self.(node_id) (Some src_id)
            "find_successor_response" [VInt k; req_id])
    else
      let! cp := closest_preceding_finger_local self k in
      Ok (send_message e self.(node_id) (Some cp)
            "find_successor" [VInt k; req_id]).
Proof. intros Hs. unfold rpc_find_successor. rewrite Hs. reflexivity. Qed.

(** C2 (code at the failing input): node [10] with successor [20] is asked
    by [20] for key [15], which lies in [(10, 20]]; the reply it queues
    carries the key [15] in the place where [rpc_find_successor_response]
    reads the successor, and the successor [20] is not among its
    arguments. *)
Theorem rpc_find_successor_reply_carries_key :
  in_interval 15 10 20 false true = true /\
  rpc_find_successor env_two (plain_node 10 (Some 20)) 20 (VInt 15) (VInt 1)
  = Ok (send_message env_two 10 (Some 20) "find_successor_response"
          [VInt 15; VInt 1]) /\
  VInt 20 ∉ [VInt 15; VInt 1].
Proof.
  split; [reflexivity|]. split; [reflexivity|].
  intros H. apply elem_of_cons in H as [H | H]; [discriminate|].
  apply elem_of_cons in H as [H | H]; [discriminate|].
  apply elem_of_nil in H. exact H.
Qed.

(** ** Stabilization replies *)

Lemma receive_get_predecessor_response (e : Env) (self : Node) (src : Z)
    (p : pyval) (rest : list pyval) :
  receive_message e self src "get_predecessor_response" (p :: rest)
  = Raise TypeError.
Proof. reflexivity. Qed.

Lemma receive_get_successor_list_response (e : Env) (self : Node) (src : Z)
    (p : pyval) (rest : list pyval) :
  receive_message e self src "get_successor_list_response" (p :: rest)
  = Raise TypeError.
Proof. reflexivity. Qed.

Lemma dispatch_receive_active (e : Env) (self : Node) (src dst : Z)
    (rpc : string) (args : list pyval) :
  dict_get dst e.(nodes) = Some self ->
  self.(active) = true ->
  _dispatch_event e (ReceiveMessage src (Some dst) rpc args)
  = receive_message e self src rpc args.
Proof. intros Hget Hact. simpl. rewrite Hget, Hact. reflexivity. Qed.

(** C5: delivering a [get_predecessor_response] or a
    [get_successor_list_response] that carries a payload to an active node
    raises [TypeError]; this is so in particular for the replies that
    [rpc_get_predecessor] and [rpc_get_successor_list] emit when a peer
    answers the two requests of [stabilize], so the round cannot
    complete. *)
Theorem stabilize_replies_raise (e : Env) (self : Node) (src dst : Z)
    (p : pyval) (rest : list pyval) :
  dict_get dst e.(nodes) = Some self ->
  self.(active) = true ->
  _dispatch_event e
    (ReceiveMessage src (Some dst) "get_predecessor_response" (p :: rest))
  = Raise TypeError /\
  _dispatch_event e
    (ReceiveMessage src (Some dst) "get_successor_list_response" (p :: rest))
  = Raise TypeError /\
  (forall (e' : Env) (peer : Node),
      exists args,
        rpc_get_predecessor e' peer dst
        = Ok (send_message e' peer.(node_id) (Some dst)
                "get_predecessor_response" args) /\
        _dispatch_event e
          (ReceiveMessage peer.(node_id) (Some dst)
             "get_predecessor_response" args)
        = Raise TypeError) /\
  (forall (e' : Env) (peer : Node),
      exists args,
        rpc_get_successor_list e' peer dst
        = Ok (send_message e' peer.(node_id) (Some dst)
                "get_successor_list_response" args) /\
        _dispatch_event e
          (ReceiveMessage peer.(node_id) (Some dst)
             "get_successor_list_response" args)
        = Raise TypeError).
Proof.
  intros Hget Hact. repeat split.
  - rewrite (dispatch_receive_active e self) by assumption.
    apply receive_get_predecessor_response.
  - rewrite (dispatch_receive_active e self) by assumption.
    apply receive_get_successor_list_response.
  - intros e' peer. exists [of_opt peer.(predecessor)]. split; [reflexivity|].
    rewrite (dispatch_receive_active e self) by assumption.
    apply receive_get_predecessor_response.
  - intros e' peer. exists [VList peer.(successor_list)].
    split; [reflexivity|].
    rewrite (dispatch_receive_active e self) by assumption.
    apply receive_get_successor_list_response.
Qed.

Lemma stabilize_replies_raise_witness :
  _dispatch_event env_two
    (ReceiveMessage 20 (Some 10) "get_predecessor_response" [VNone])
  = Raise TypeError.
Proof.
  apply (stabilize_replies_raise env_two (plain_node 10 (Some 20)) 20 10
           VNone []); reflexivity.
Defined.

(** A whole round on two nodes: node [10] runs [stabilize], node [20]
    answers, and the delivery of the first answer stops the run. *)
Example stabilize_round_two_nodes :
  (let! e := stabilize env_two (plain_node 10 (Some 20)) in
   Ok (run 10 None e))
  = Ok (Some (Raise TypeError)).
Proof. vm_compute. reflexivity. Qed.

(** ** Dictionaries *)

Section DictFacts.

Context {V : Type}.
Implicit Types (d : dict V) (k : Z) (v : V).

Lemma dict_get_set_eq d k v : dict_get k (dict_set k v d) = Some v.
Proof.
    induction d as [|[k' v'] d IH]; simpl.
    - rewrite Z.eqb_refl. reflexivity.
    - destruct (Z.eqb_spec k k') as [->|Hne]; simpl.
      + rewrite Z.eqb_refl. reflexivity.
      + destruct (Z.eqb_spec k k'); [contradiction|exact IH].
Qed.

Lemma dict_get_set_ne d k k' v :
    k <> k' -> dict_get k' (dict_set k v d) = dict_get k' d.
Proof.
    intros Hne. induction d as [|[k0 v0] d IH]; simpl.
    - destruct (Z.eqb_spec k' k); [congruence|reflexivity].
    - destruct (Z.eqb_spec k k0) as [->|Hk]; simpl.
      + destruct (Z.eqb_spec k' k0); [congruence|reflexivity].
      + destruct (Z.eqb_spec k' k0); [reflexivity|exact IH].
Qed.

Lemma dict_keys_set_present d k v v0 :
    dict_get k d = Some v0 -> dict_keys (dict_set k v d) = dict_keys d.
Proof.
    unfold dict_keys.
    induction d as [|[k' v'] d IH]; simpl; [discriminate|].
    destruct (Z.eqb_spec k k') as [->|Hne]; simpl; intros H.
    - reflexivity.
    - f_equal. exact (IH H).
Qed.

Lemma dict_set_same d k v : dict_get k d = Some v -> dict_set k v d = d.
Proof.
    induction d as [|[k' v'] d IH]; simpl; [discriminate|].
    destruct (Z.eqb_spec k k') as [->|Hne]; intros H.
    - congruence.
    - rewrite (IH H). reflexivity.
Qed.

Lemma dict_get_Some_elem_of d k v : dict_get k d = Some v -> (k, v) ∈ d.
Proof.
    induction d as [|[k' v'] d IH]; simpl; [discriminate|].
    destruct (Z.eqb_spec k k') as [->|Hne]; intros H.
    - injection H as ->. apply elem_of_cons. left. reflexivity.
    - apply elem_of_cons. right. exact (IH H).
Qed.

Lemma dict_get_None_keys d k : dict_get k d = None -> k ∉ dict_keys d.
Proof.
    induction d as [|[k' v'] d IH]; simpl.
    - intros _ H. apply elem_of_nil in H. exact H.
    - destruct (Z.eqb_spec k k') as [->|Hne]; [discriminate|].
      intros H Hin. apply elem_of_cons in Hin as [Hin|Hin]; [congruence|].
      exact (IH H Hin).
Qed.

Lemma dict_get_elem_of d k v :
    NoDup (dict_keys d) -> (k, v) ∈ d -> dict_get k d = Some v.
Proof.
    induction d as [|[k' v'] d IH]; simpl; intros Hnd Hin.
    - apply elem_of_nil in Hin. contradiction.
    - apply NoDup_cons in Hnd as [Hk' Hnd].
      apply elem_of_cons in Hin as [Hin|Hin].
      + injection Hin as -> ->. rewrite Z.eqb_refl. reflexivity.
      + destruct (Z.eqb_spec k k') as [->|Hne]; [|exact (IH Hnd Hin)].
        exfalso. apply Hk'. unfold dict_keys.
        apply (list_elem_of_fmap_2 fst) in Hin. exact Hin.
Qed.

Lemma dict_length_set_present d k v v0 :
    dict_get k d = Some v0 -> length (dict_set k v d) = length d.
Proof.
    intros H. apply (dict_keys_set_present d k v) in H.
    unfold dict_keys in H. apply (f_equal length) in H.
    rewrite !length_fmap in H. exact H.
Qed.

End DictFacts.

(** ** Scheduling and node construction *)

Lemma enqueue_elem (t : Q) (ev : Event) (q : list (Q * Event)) :
  (t, ev) ∈ enqueue t ev q.
Proof.
  induction q as [|[t' ev'] q IH]; simpl.
  - apply elem_of_cons. left. reflexivity.
  - destruct (Qle_bool t' t); apply elem_of_cons; [right; exact IH | left; reflexivity].
Qed.

Lemma enqueue_mono (t : Q) (ev : Event) (q : list (Q * Event)) (x : Q * Event) :
  x ∈ q -> x ∈ enqueue t ev q.
Proof.
  induction q as [|[t' ev'] q IH]; simpl; intros Hx.
  - apply elem_of_nil in Hx. contradiction.
  - destruct (Qle_bool t' t).
    + apply elem_of_cons in Hx as [-> | Hx]; apply elem_of_cons;
        [left; reflexivity | right; exact (IH Hx)].
    + apply elem_of_cons. right. exact Hx.
Qed.

Lemma join_inv (e : Env) (self : Node) (b : Z) (e' : Env) (self' : Node) :
  _join e self b = Ok (e', self') ->
  node_id self' = node_id self /\ active self' = active self /\
  bootstrap_id self' = bootstrap_id self /\
  nodes e' = nodes e /\
  (forall x, x ∈ queue e -> x ∈ queue e').
Proof.
  unfold _join.
  destruct (dict_getitem b (nodes e)) as [bn|]; cbn [rbind]; [|discriminate].
  destruct (find_successor_local RECURSION_LIMIT (nodes e) bn (node_id self))
    as [sn|]; cbn [rbind]; [|discriminate].
  intros H. injection H as <- <-. simpl. repeat split; try reflexivity.
  intros x Hx. apply enqueue_mono, Hx.
Qed.

Lemma Node_init_inv (e : Env) (b phys : option Z) (stats : bool) (nid : Z)
    (e1 : Env) :
  Node_init e b phys stats = Ok (nid, e1) ->
  nid = (getrandbits e M).1 /\
  (exists n, dict_get nid (nodes e1) = Some n /\ node_id n = nid /\
             active n = true /\ bootstrap_id n = b) /\
  (stabilize_override e = false ->
   (Qred (now e + STABILIZE_INTERVAL), StabilizeTick nid) ∈ queue e1).
Proof.
  unfold Node_init. simpl.
  set (nid0 := rng e (rng_pos e) mod 2 ^ M).
  set (self := mkNode nid0 b (default nid0 phys) stats _ None None [] 0 true 0 0 []).
  set (e0 := _schedule_stabilize _ self).
  assert (stabilize_override e = false ->
          (Qred (now e + STABILIZE_INTERVAL), StabilizeTick nid0) ∈ queue e0)
    as Htick.
  { intros Hov. unfold e0, _schedule_stabilize. simpl. rewrite Hov. simpl.
    apply enqueue_elem. }
  destruct b as [b|].
  - destruct (_join e0 self b) as [[e' self']|] eqn:Hj; simpl; [|discriminate].
    intros H. injection H as <- <-.
    apply join_inv in Hj as (Hid & Hact & Hb & _ & Hq).
    split; [reflexivity|]. split.
    + exists self'. unfold store. simpl. rewrite Hid. simpl.
      rewrite dict_get_set_eq. auto.
    + intros Hov. simpl. apply Hq, Htick, Hov.
  - simpl. intros H. injection H as <- <-.
    split; [reflexivity|]. split.
    + eexists. unfold store. simpl. rewrite dict_get_set_eq.
      split; [reflexivity|]. auto.
    + intros Hov. simpl. apply Htick, Hov.
Qed.















(** ** Failures *)

Lemma active_ids_cons (k : Z) (n : Node) (d : dict Node) :
  active_ids ((k, n) :: d)
  = if active n then k :: active_ids d else active_ids d.
Proof.
  unfold active_ids. rewrite filter_cons. simpl.
  destruct (active n); simpl.
  - destruct (decide (true = true)); [reflexivity|contradiction].
  - destruct (decide (false = true)); [discriminate|reflexivity].
Qed.

Lemma elem_of_active_ids (k : Z) (d : dict Node) :
  k ∈ active_ids d <-> exists n, (k, n) ∈ d /\ active n = true.
Proof.
  unfold active_ids. rewrite list_elem_of_fmap. split.
  - intros ([k' n] & -> & Hin). apply list_elem_of_filter in Hin as [Hact Hin].
    exists n. auto.
  - intros (n & Hin & Hact). exists (k, n). split; [reflexivity|].
    apply list_elem_of_filter. auto.
Qed.

Lemma active_ids_subset_keys (k : Z) (d : dict Node) :
  k ∈ active_ids d -> k ∈ dict_keys d.
Proof.
  intros (n & Hin & _)%elem_of_active_ids.
  unfold dict_keys. apply list_elem_of_fmap. exists (k, n). auto.
Qed.

Lemma count_active_set_inactive (d : dict Node) (f : Z) (n : Node) :
  dict_get f d = Some n ->
  active n = true ->
  S (count_active (dict_set f (set_active n false) d)) = count_active d.
Proof.
  unfold count_active.
  induction d as [|[k v] d IH]; simpl; [discriminate|].
  destruct (Z.eqb_spec f k) as [->|Hne]; intros Hget Hact.
  - injection Hget as ->. rewrite !active_ids_cons. simpl. rewrite Hact.
    reflexivity.
  - rewrite !active_ids_cons. destruct (active v); simpl;
      rewrite (IH Hget Hact); reflexivity.
Qed.

Lemma choice_elem {A : Type} (e : Env) (l : list A) :
  l <> [] ->
  exists x, x ∈ l /\ choice e l = Ok (x, set_rng_pos e (S (rng_pos e))).
Proof.
  intros Hne. unfold choice.
  assert (0 < Z.of_nat (length l)) as Hlen by (destruct l; [contradiction|simpl; lia]).
  pose proof (Z.mod_pos_bound (rng e (rng_pos e)) _ Hlen) as Hb.
  destruct (lookup_lt_is_Some_2 l
              (Z.to_nat (rng e (rng_pos e) mod Z.of_nat (length l))))
    as [x Hx]; [lia|].
  rewrite Hx. exists x. split; [|reflexivity].
  exact (list_elem_of_lookup_2 _ _ _ Hx).
Qed.

(** C6: on a well-formed registry, a [NodeFail] without [node_id] leaves
    the environment as it is when at most one node is active; when two or
    more are active it marks exactly one node inactive, a node that was
    active, every other node being left as it was, so that the number of
    active nodes drops by one; hence that number never goes from one to
    zero. *)
Theorem node_fail_unspecified (e : Env) :
  NoDup (dict_keys (nodes e)) ->
  ((count_active (nodes e) <= 1)%nat ->
   _dispatch_event e (NodeFail None) = Ok e) /\
  ((2 <= count_active (nodes e))%nat ->
   exists (f : Z) (n : Node),
     dict_get f (nodes e) = Some n /\ active n = true /\
     _dispatch_event e (NodeFail None)
     = Ok (refresh_latest_ring
             (set_nodes (set_rng_pos e (S (rng_pos e)))
                (dict_set f (set_active n false) (nodes e)))) /\
     (forall k, k <> f ->
                dict_get k (dict_set f (set_active n false) (nodes e))
                = dict_get k (nodes e)) /\
     S (count_active (dict_set f (set_active n false) (nodes e)))
     = count_active (nodes e)) /\
  (forall e',
      _dispatch_event e (NodeFail None) = Ok e' ->
      (1 <= count_active (nodes e))%nat ->
      (1 <= count_active (nodes e'))%nat).
Proof.
  intros Hnd.
  assert ((2 <= count_active (nodes e))%nat ->
          exists (f : Z) (n : Node),
            dict_get f (nodes e) = Some n /\ active n = true /\
            _dispatch_event e (NodeFail None)
            = Ok (refresh_latest_ring
                    (set_nodes (set_rng_pos e (S (rng_pos e)))
                       (dict_set f (set_active n false) (nodes e)))) /\
            (forall k, k <> f ->
                       dict_get k (dict_set f (set_active n false) (nodes e))
                       = dict_get k (nodes e)) /\
            S (count_active (dict_set f (set_active n false) (nodes e)))
            = count_active (nodes e)) as Hmany.
  { intros Hcount. unfold count_active in Hcount. simpl.
    destruct (Nat.leb_spec (length (active_ids (nodes e))) 1) as [Hle|_]; [lia|].
    destruct (choice_elem e (active_ids (nodes e))) as (f & Hf & ->).
    { intros Heq. rewrite Heq in Hcount. simpl in Hcount. lia. }
    apply elem_of_active_ids in Hf as (n & Hin & Hact).
    pose proof (dict_get_elem_of _ _ _ Hnd Hin) as Hget.
    exists f, n. split; [exact Hget|]. split; [exact Hact|].
    split.
    - cbn [rbind fst snd]. unfold mark_failed, dict_getitem. simpl.
      rewrite Hget. reflexivity.
    - split; [intros k Hk; apply dict_get_set_ne; congruence|].
      apply count_active_set_inactive; assumption. }
  split; [|split; [exact Hmany|]].
  - intros Hcount. unfold count_active in Hcount. simpl.
    destruct (Nat.leb_spec (length (active_ids (nodes e))) 1) as [_|Hgt];
      [reflexivity|lia].
  - intros e' Hd Hone.
    destruct (Nat.le_gt_cases (count_active (nodes e)) 1) as [Hle|Hgt].
    + assert (_dispatch_event e (NodeFail None) = Ok e) as He.
      { unfold count_active in Hle. simpl.
        destruct (Nat.leb_spec (length (active_ids (nodes e))) 1); [reflexivity|lia]. }
      rewrite He in Hd. injection Hd as <-. exact Hone.
    + destruct (Hmany Hgt) as (f & n & _ & _ & He & _ & Hc).
      rewrite He in Hd. injection Hd as <-. simpl. lia.
Qed.

Lemma node_fail_unspecified_witness :
  exists (f : Z) (n : Node),
    dict_get f (nodes env_two) = Some n /\ active n = true /\
    _dispatch_event env_two (NodeFail None)
    = Ok (refresh_latest_ring
            (set_nodes (set_rng_pos env_two (S (rng_pos env_two)))
               (dict_set f (set_active n false) (nodes env_two)))) /\
    (forall k, k <> f ->
               dict_get k (dict_set f (set_active n false) (nodes env_two))
               = dict_get k (nodes env_two)) /\
    S (count_active (dict_set f (set_active n false) (nodes env_two)))
    = count_active (nodes env_two).
Proof.
  destruct (node_fail_unspecified env_two) as (_ & H & _).
  - apply (bool_decide_unpack _). vm_compute. reflexivity.
  - apply H. vm_compute. lia.
Defined.

(** ** Joins *)

Lemma fold_left_min_spec (l : list Z) (a : Z) :
  fold_left Z.min l a ∈ a :: l /\
  forall x, x ∈ a :: l -> fold_left Z.min l a <= x.
Proof.
  revert a. induction l as [|y l IH]; intros a; simpl.
  - split; [apply elem_of_cons; left; reflexivity|].
    intros x Hx. apply elem_of_cons in Hx as [->|Hx]; [lia|].
    apply elem_of_nil in Hx. contradiction.
  - destruct (IH (Z.min a y)) as [Hin Hle]. split.
    + apply elem_of_cons in Hin as [Hin|Hin].
      * rewrite Hin. destruct (Z.min_spec a y) as [[_ ->]|[_ ->]].
        -- apply elem_of_cons. left. reflexivity.
        -- apply elem_of_cons. right. apply elem_of_cons. left. reflexivity.
      * apply elem_of_cons. right. apply elem_of_cons. right. exact Hin.
    + intros x Hx.
      assert (fold_left Z.min l (Z.min a y) <= Z.min a y) as Hm
          by (apply Hle, elem_of_cons; left; reflexivity).
      apply elem_of_cons in Hx as [->|Hx]; [lia|].
      apply elem_of_cons in Hx as [->|Hx]; [lia|].
      apply Hle, elem_of_cons. right. exact Hx.
Qed.

Lemma dict_min_spec {V : Type} (d : dict V) :
  d <> [] ->
  exists b, dict_min d = Ok b /\ b ∈ dict_keys d /\
            forall k, k ∈ dict_keys d -> b <= k.
Proof.
  intros Hne. unfold dict_min. destruct d as [|[k v] d]; [contradiction|].
  simpl. eexists. split; [reflexivity|].
  exact (fold_left_min_spec (dict_keys d) k).
Qed.

(** C10: the dispatch of a [NodeJoin] does not read the event's
    [node_id]; when the registry is not empty the new node is constructed
    with the smallest key of the registry as its bootstrap, whether that
    node is active or not; and the new node's id is the value drawn from the
    random generator. *)
Theorem node_join_ignores_event_id (e : Env) (ev_id : option Z) :
  _dispatch_event e (NodeJoin ev_id) = _dispatch_event e (NodeJoin None) /\
  (nodes e <> [] ->
   exists b,
     dict_min (nodes e) = Ok b /\ b ∈ dict_keys (nodes e) /\
     (forall k, k ∈ dict_keys (nodes e) -> b <= k) /\
     _dispatch_event e (NodeJoin ev_id)
     = (let! r := Node_init e (Some b) None false in
        Ok (refresh_latest_ring r.2))) /\
  (forall e',
      _dispatch_event e (NodeJoin ev_id) = Ok e' ->
      exists n,
        dict_get (getrandbits e M).1 (nodes e') = Some n /\
        node_id n = (getrandbits e M).1 /\
        (nodes e <> [] ->
         exists b, dict_min (nodes e) = Ok b /\ bootstrap_id n = Some b)).
Proof.
  split; [reflexivity|].
  assert (nodes e <> [] ->
          exists b,
            dict_min (nodes e) = Ok b /\ b ∈ dict_keys (nodes e) /\
            (forall k, k ∈ dict_keys (nodes e) -> b <= k) /\
            _dispatch_event e (NodeJoin ev_id)
            = (let! r := Node_init e (Some b) None false in
               Ok (refresh_latest_ring r.2))) as Hmin.
  { intros Hne. destruct (dict_min_spec (nodes e) Hne) as (b & Hb & Hin & Hle).
    exists b. repeat split; try assumption.
    cbn [_dispatch_event]. destruct (nodes e) as [|kv d] eqn:Hd; [contradiction|].
    rewrite Hb. reflexivity. }
  split; [exact Hmin|].
  intros e' Hd.
  destruct (nodes e) as [|kv d] eqn:Hnodes.
  - cbn [_dispatch_event] in Hd. rewrite Hnodes in Hd.
    destruct (Node_init e None None false) as [[nid e1]|] eqn:Hinit;
      cbn [rbind] in Hd; [|discriminate].
    injection Hd as <-.
    apply Node_init_inv in Hinit as (-> & (n & Hget & Hid & _ & _) & _).
    exists n. simpl. repeat split; try assumption. intros Hne. contradiction.
  - destruct Hmin as (b & Hb & _ & _ & He); [discriminate|].
    rewrite He in Hd.
    destruct (Node_init e (Some b) None false) as [[nid e1]|] eqn:Hinit;
      cbn [rbind] in Hd; [|discriminate].
    injection Hd as <-.
    apply Node_init_inv in Hinit as (-> & (n & Hget & Hid & _ & Hboot) & _).
    exists n. simpl. repeat split; try assumption.
    intros _. exists b. auto.
Qed.

Lemma node_join_ignores_event_id_witness :
  exists b,
    dict_min (nodes env_failed_min) = Ok b /\
    b ∈ dict_keys (nodes env_failed_min) /\
    (forall k, k ∈ dict_keys (nodes env_failed_min) -> b <= k) /\
    _dispatch_event env_failed_min (NodeJoin (Some 77))
    = (let! r := Node_init env_failed_min (Some b) None false in
       Ok (refresh_latest_ring r.2)).
Proof.
  destruct (node_join_ignores_event_id env_failed_min (Some 77))
    as (_ & H & _).
  apply H. discriminate.
Defined.

(** The bootstrap may be a failed node: with nodes [9] (active) and [5]
    (failed), a join goes through [5], whatever id the event names, and the
    new node, whose id [0] comes from the generator, takes the failed node
    as its successor. *)
Example node_join_through_failed_node :
  (let! e' := _dispatch_event env_failed_min (NodeJoin (Some 77)) in
   Ok (option_map (fun n => (bootstrap_id n, successor n))
         (dict_get 0 (nodes e')),
       option_map active (dict_get 5 (nodes e'))))
  = Ok (Some (Some 5, Some 5), Some false).
Proof. vm_compute. reflexivity. Qed.

(** ** Single-node ring *)

Lemma create_ring_finger (x : Z) :
  fold_left (fun f i => <[i := Some x]> f) (seq 0 (Z.to_nat M))
    (replicate (Z.to_nat M) None)
  = replicate (Z.to_nat M) (Some x).
Proof. vm_compute. reflexivity. Qed.

Lemma getrandbits_range (e : Env) : 0 <= (getrandbits e M).1 < MAX_ID.
Proof.
  simpl. change (2 ^ M) with MAX_ID.
  apply Z.mod_pos_bound. pose proof MAX_ID_pos. lia.
Qed.

Lemma lookup_single (e : Env) (n : Node) (nid k : Z) :
  0 <= k < MAX_ID -> 0 <= nid < MAX_ID ->
  nodes e = [(nid, n)] -> node_id n = nid -> active n = true ->
  successor n = Some nid ->
  lookup_iterative e n k false = Ok (Some nid, e).
Proof.
  intros Hk Hnid Hnodes Hid Hact Hsucc.
  unfold lookup_iterative. rewrite Hnodes, Hid.
  change (hop_budget [(nid, n)]) with 2%nat.
  cbn [lookup_loop dict_get]. rewrite Z.eqb_refl, Hact, Hid, Hsucc.
  destruct (decide (nid ∈ [])) as [Hin|Hnin];
    [apply elem_of_nil in Hin; contradiction|].
  rewrite (bool_decide_eq_false_2 _ Hnin). cbn [negb orb opt_int rbind].
  destruct (Z.eqb_spec k nid) as [->|Hne]; [reflexivity|].
  rewrite (in_interval_same_half k nid Hk Hnid).
  destruct (Z.eqb_spec k nid); [contradiction|]. reflexivity.
Qed.

(** C9: the first node of a fresh environment, created without bootstrap,
    is its own successor, each of its [M] fingers holds its own id, and
    [lookup_iterative] from it returns its id for every key of the ring. *)
Theorem single_node_ring (oracle : nat -> Z) (k : Z) :
  0 <= k < MAX_ID ->
  exists (nid : Z) (e1 : Env) (n : Node),
    Node_init (SimEnvironment oracle) None None false = Ok (nid, e1) /\
    nodes e1 = [(nid, n)] /\
    node_id n = nid /\
    successor n = Some nid /\
    finger n = replicate (Z.to_nat M) (Some nid) /\
    lookup_iterative e1 n k false = Ok (Some nid, e1).
Proof.
  intros Hk.
  pose proof (getrandbits_range (SimEnvironment oracle)) as Hnid.
  simpl in Hnid. set (nid := oracle 0%nat mod 2 ^ M) in *.
  destruct (Node_init (SimEnvironment oracle) None None false)
    as [[nid' e1]|] eqn:Hinit; [|discriminate].
  unfold Node_init in Hinit. simpl in Hinit. fold nid in Hinit.
  injection Hinit as <- <-.
  eexists nid, _, _. split; [reflexivity|].
  assert (nodes
            (store
               (_schedule_stabilize
                  (register_node (set_rng_pos (SimEnvironment oracle) 1)
                     (mkNode nid None nid false
                        (replicate (Z.to_nat M) None) None None [] 0 true 0 0
                        []))
                  (mkNode nid None nid false (replicate (Z.to_nat M) None)
                     None None [] 0 true 0 0 []))
               (_create_ring
                  (mkNode nid None nid false (replicate (Z.to_nat M) None)
                     None None [] 0 true 0 0 [])))
          = [(nid,
              _create_ring
                (mkNode nid None nid false (replicate (Z.to_nat M) None)
                   None None [] 0 true 0 0 []))]) as Hnodes.
  { unfold store, _schedule_stabilize, register_node.
    cbn [nodes set_nodes set_rng_pos SimEnvironment stabilize_override
           schedule_event set_queue dict_set node_id _create_ring
           set_successor_list set_finger set_successor set_predecessor].
    rewrite Z.eqb_refl. reflexivity. }
  split; [exact Hnodes|]. split; [reflexivity|]. split; [reflexivity|].
  split; [apply create_ring_finger|].
  apply lookup_single; try assumption; reflexivity.
Qed.

Lemma single_node_ring_witness :
  exists (nid : Z) (e1 : Env) (n : Node),
    Node_init (SimEnvironment (fun _ => 42)) None None false = Ok (nid, e1) /\
    nodes e1 = [(nid, n)] /\
    node_id n = nid /\
    successor n = Some nid /\
    finger n = replicate (Z.to_nat M) (Some nid) /\
    lookup_iterative e1 n 7 false = Ok (Some nid, e1).
Proof.
  apply (single_node_ring (fun _ => 42) 7). vm_compute. split; congruence.
Defined.

(** ** Warm-up *)

Lemma rbind_Ok_inv {A B : Type} (c : result A) (k : A -> result B) (b : B) :
  rbind c k = Ok b -> exists a, c = Ok a /\ k a = Ok b.
Proof. destruct c as [a|x]; simpl; [eauto|discriminate]. Qed.

Lemma list_setitem_Ok_inv {A : Type} (l l' : list A) (i : nat) (x : A) :
  list_setitem l i x = Ok l' -> (i < length l)%nat /\ l' = <[i := x]> l.
Proof.
  unfold list_setitem.
  destruct (Nat.ltb_spec i (length l)) as [Hlt|Hge]; [|discriminate].
  intros H. injection H as <-. auto.
Qed.

Lemma warm_fingers_spec (ring : list Z) (nid : Z) (bs : list nat)
    (f f' : list (option Z)) :
  warm_fingers ring nid f bs = Ok f' ->
  length f' = length f /\
  (forall b, b ∈ bs ->
             exists o, ring_owner ring (finger_start nid b) = Ok o /\
                       f' !! b = Some (Some o)) /\
  (forall b, b ∉ bs -> f' !! b = f !! b).
Proof.
  revert f. induction bs as [|b bs IH]; intros f; simpl.
  - intros H. injection H as <-. split; [reflexivity|]. split; [|reflexivity].
    intros b Hb. apply elem_of_nil in Hb. contradiction.
  - intros H. apply rbind_Ok_inv in H as (f1 & H1 & H).
    unfold warm_finger in H1.
    apply rbind_Ok_inv in H1 as (o & Ho & H1).
    apply list_setitem_Ok_inv in H1 as [Hlt ->].
    destruct (IH _ H) as (Hlen & Hin & Hout).
    rewrite length_insert in Hlen. split; [exact Hlen|]. split.
    + intros b' Hb'. destruct (decide (b' ∈ bs)) as [Hbs|Hbs]; [exact (Hin _ Hbs)|].
      apply elem_of_cons in Hb' as [->|Hb']; [|contradiction].
      exists o. split; [exact Ho|]. rewrite (Hout _ Hbs).
      apply list_lookup_insert_eq, Hlt.
    + intros b' Hb'. rewrite Hout.
      * apply list_lookup_insert_ne. intros ->. apply Hb', elem_of_cons. auto.
      * intros Hbs. apply Hb', elem_of_cons. auto.
Qed.

Lemma warm_fingers_fix (ring : list Z) (nid : Z) (bs : list nat)
    (f : list (option Z)) :
  (forall b, b ∈ bs ->
             exists o, ring_owner ring (finger_start nid b) = Ok o /\
                       f !! b = Some (Some o)) ->
  warm_fingers ring nid f bs = Ok f.
Proof.
  induction bs as [|b bs IH]; intros H; simpl; [reflexivity|].
  destruct (H b) as (o & Ho & Hb); [apply elem_of_cons; auto|].
  unfold warm_finger. rewrite Ho. cbn [rbind].
  unfold list_setitem. pose proof (lookup_lt_Some _ _ _ Hb) as Hlt.
  destruct (Nat.ltb_spec b (length f)) as [_|Hge]; [|lia]. cbn [rbind].
  rewrite (list_insert_id _ _ _ Hb). apply IH.
  intros b' Hb'. apply H, elem_of_cons. auto.
Qed.

(** What [warm_node] leaves untouched, and that running it again on its
    own result changes nothing. *)
Lemma warm_node_inv (ring : list Z) (m idx : nat) (nid : Z) (n n' : Node) :
  warm_node ring m idx nid n = Ok n' ->
  node_id n' = node_id n /\ active n' = active n /\
  length (finger n') = length (finger n) /\
  warm_node ring m idx nid n' = Ok n'.
Proof.
  unfold warm_node. intros H.
  apply rbind_Ok_inv in H as (s & Hs & H). rewrite Hs. cbn [rbind].
  apply rbind_Ok_inv in H as (p & Hp & H). rewrite Hp. cbn [rbind].
  apply rbind_Ok_inv in H as (sl & Hsl & H). rewrite Hsl. cbn [rbind].
  apply rbind_Ok_inv in H as (f & Hf & H). injection H as <-.
  destruct n as [id bo ph cs fg su pr sls nf ac lo lf pe]. simpl in *.
  apply warm_fingers_spec in Hf as (Hlen & Hin & _).
  rewrite (warm_fingers_fix _ _ _ _ Hin). auto.
Qed.

Lemma active_ids_set_same_active (d : dict Node) (k : Z) (n n' : Node) :
  dict_get k d = Some n ->
  active n' = active n ->
  active_ids (dict_set k n' d) = active_ids d.
Proof.
  induction d as [|[k0 v] d IH]; simpl; [discriminate|].
  destruct (Z.eqb_spec k k0) as [->|Hne]; intros Hget Hact.
  - injection Hget as ->. rewrite !active_ids_cons, Hact. reflexivity.
  - rewrite !active_ids_cons, (IH Hget Hact). reflexivity.
Qed.

Lemma dict_getitem_Ok_inv {V : Type} (d : dict V) (k : Z) (v : V) :
  dict_getitem k d = Ok v -> dict_get k d = Some v.
Proof.
  unfold dict_getitem. destruct (dict_get k d); [|discriminate].
  intros H. injection H as ->. reflexivity.
Qed.

(** The dictionary after the loop of [warm_up]: same keys in the same
    order and the same active nodes; a key outside the ring keeps its
    node; a key of the ring holds what [warm_node] made of its node. *)
Lemma warm_loop_spec (ring : list Z) (m : nat) (l : list (nat * Z))
    (d d' : dict Node) :
  NoDup l.*2 ->
  warm_loop ring m l d = Ok d' ->
  dict_keys d' = dict_keys d /\
  active_ids d' = active_ids d /\
  (forall k, k ∉ l.*2 -> dict_get k d' = dict_get k d) /\
  (forall idx k, (idx, k) ∈ l ->
                 exists n n', dict_get k d = Some n /\
                              warm_node ring m idx k n = Ok n' /\
                              dict_get k d' = Some n').
Proof.
  revert d. induction l as [|[idx k] l IH]; intros d Hnd; simpl.
  - intros H. injection H as <-. repeat split; try reflexivity.
    intros idx k Hin. apply elem_of_nil in Hin. contradiction.
  - intros H. apply rbind_Ok_inv in H as (n & Hn & H).
    apply rbind_Ok_inv in H as (n' & Hn' & H).
    apply dict_getitem_Ok_inv in Hn.
    simpl in Hnd. apply NoDup_cons in Hnd as [Hk Hnd].
    destruct (IH _ Hnd H) as (Hkeys & Hact & Hout & Hin).
    pose proof (warm_node_inv _ _ _ _ _ _ Hn') as (_ & Hac & _ & _).
    split; [rewrite Hkeys; exact (dict_keys_set_present _ _ _ _ Hn)|].
    split; [rewrite Hact; exact (active_ids_set_same_active _ _ _ _ Hn Hac)|].
    split.
    + intros k' Hk'. rewrite Hout.
      * apply dict_get_set_ne. intros ->. apply Hk', elem_of_cons. auto.
      * intros Hl. apply Hk', elem_of_cons. auto.
    + intros idx' k' Hin'. apply elem_of_cons in Hin' as [Heq|Hin'].
      * injection Heq as -> ->. exists n, n'. split; [exact Hn|].
        split; [exact Hn'|]. rewrite (Hout _ Hk). apply dict_get_set_eq.
      * destruct (Hin _ _ Hin') as (n1 & n1' & Hg & Hw & Hg').
        exists n1, n1'. split; [|auto].
        rewrite <- Hg. symmetry. apply dict_get_set_ne. intros ->.
        apply Hk. apply (list_elem_of_fmap_2 snd) in Hin'. exact Hin'.
Qed.

Lemma warm_loop_fix (ring : list Z) (m : nat) (l : list (nat * Z))
    (d : dict Node) :
  (forall idx k, (idx, k) ∈ l ->
                 exists n, dict_get k d = Some n /\
                           warm_node ring m idx k n = Ok n) ->
  warm_loop ring m l d = Ok d.
Proof.
  induction l as [|[idx k] l IH]; intros H; simpl; [reflexivity|].
  destruct (H idx k) as (n & Hn & Hw); [apply elem_of_cons; auto|].
  unfold dict_getitem. rewrite Hn. cbn [rbind]. rewrite Hw. cbn [rbind].
  rewrite (dict_set_same _ _ _ Hn). apply IH.
  intros idx' k' Hin. apply H, elem_of_cons. auto.
Qed.

Lemma enumerate_snd {A : Type} (l : list A) : (enumerate l).*2 = l.
Proof. unfold enumerate. apply snd_zip. rewrite length_seq. reflexivity. Qed.

Lemma NoDup_active_ids (d : dict Node) :
  NoDup (dict_keys d) -> NoDup (active_ids d).
Proof.
  unfold dict_keys, active_ids. intros Hnd.
  induction d as [|[k v] d IH]; simpl; [constructor|].
  simpl in Hnd. apply NoDup_cons in Hnd as [Hk Hnd].
  rewrite filter_cons. simpl. destruct (decide (active v = true)); simpl;
    [|exact (IH Hnd)].
  apply NoDup_cons. split; [|exact (IH Hnd)].
  intros Hin. apply Hk. apply list_elem_of_fmap in Hin as ([k' v'] & -> & Hin).
  apply list_elem_of_filter in Hin as [_ Hin].
  apply (list_elem_of_fmap_2 fst) in Hin. exact Hin.
Qed.

Lemma sorted_Permutation (l : list Z) : sorted l ≡ₚ l.
Proof. apply merge_sort_Permutation. Qed.

Lemma NoDup_sorted (l : list Z) : NoDup l -> NoDup (sorted l).
Proof. intros H. rewrite sorted_Permutation. exact H. Qed.

(** C8: on a well-formed registry, a run of [warm_up] that returns leaves
    an environment on which [warm_up] returns that same environment:
    successor, predecessor, successor list and finger table of every node,
    and [latest_ring], are those of the first run. *)
Theorem warm_up_idempotent (e e' : Env) :
  NoDup (dict_keys (nodes e)) ->
  warm_up e = Ok e' ->
  warm_up e' = Ok e'.
Proof.
  intros Hnd H. unfold warm_up in H.
  cbn [nodes set_latest_ring] in H.
  set (ring := sorted (active_ids (nodes e))) in *.
  apply rbind_Ok_inv in H as (first & Hfirst & H).
  apply rbind_Ok_inv in H as (fnode & Hfnode & H).
  apply rbind_Ok_inv in H as (d' & Hloop & H). injection H as <-.
  apply dict_getitem_Ok_inv in Hfnode.
  assert (NoDup (enumerate ring).*2) as Hndr.
  { rewrite enumerate_snd. apply NoDup_sorted, NoDup_active_ids, Hnd. }
  destruct (warm_loop_spec _ _ _ _ _ Hndr Hloop) as (Hkeys & Hact & Hout & Hin).
  assert (exists fnode', dict_get first d' = Some fnode' /\
                         length (finger fnode') = length (finger fnode))
    as (fnode' & Hfnode' & Hlen).
  { destruct (decide (first ∈ ring)) as [Hr|Hr].
    - rewrite <- (enumerate_snd ring) in Hr.
      apply list_elem_of_fmap in Hr as ([idx k] & -> & Hr).
      destruct (Hin _ _ Hr) as (n & n' & Hg & Hw & Hg'). simpl in *.
      exists n'. split; [exact Hg'|].
      apply warm_node_inv in Hw as (_ & _ & Hl & _). congruence.
    - exists fnode. split; [|reflexivity]. rewrite <- Hfnode. apply Hout.
      rewrite enumerate_snd. exact Hr. }
  unfold warm_up. cbn [nodes set_nodes set_latest_ring].
  rewrite Hact, Hkeys. fold ring. rewrite Hfirst. cbn [rbind].
  unfold dict_getitem. rewrite Hfnode'. cbn [rbind]. rewrite Hlen.
  rewrite warm_loop_fix; [reflexivity|].
  intros idx k Hik. destruct (Hin _ _ Hik) as (n & n' & _ & Hw & Hg').
  exists n'. split; [exact Hg'|].
  apply warm_node_inv in Hw as (_ & _ & _ & Hfix). exact Hfix.
Qed.

Lemma warm_up_idempotent_witness : warm_up env_two_warm = Ok env_two_warm.
Proof.
  apply (warm_up_idempotent env_two env_two_warm).
  - apply (bool_decide_unpack _). vm_compute. reflexivity.
  - vm_compute. reflexivity.
Defined.

Example warm_up_two_nodes :
  map (fun kv => (kv.1, successor kv.2, predecessor kv.2,
                  length (successor_list kv.2), finger kv.2 !! 0%nat,
                  finger kv.2 !! 159%nat))
    (nodes env_two_warm)
  = [(10, Some 20, Some 20, 16%nat, Some (Some 20), Some (Some 10));
     (20, Some 10, Some 10, 16%nat, Some (Some 10), Some (Some 10))].
Proof. vm_compute. reflexivity. Qed.

(** ** Routing on an ideal ring *)

Section ArcFacts.

Variables a b c k : Z.
Hypothesis Ha : 0 <= a < MAX_ID.
Hypothesis Hb : 0 <= b < MAX_ID.
Hypothesis Hc : 0 <= c < MAX_ID.
Hypothesis Hk : 0 <= k < MAX_ID.

(** A key that is neither at [a] nor in [(a, b]] lies beyond [b]. *)
Lemma arc_successor_precedes :
  k <> a -> in_interval k a b false true = false ->
  in_interval b a k false false = true.
Proof. revert Ha Hb Hk. clear. intros Ha Hb Hk. ring_cases. Qed.

Lemma arc_irreflexive : in_interval a a k false false = false.
Proof. revert Ha Hk. clear. intros Ha Hk. ring_cases. Qed.

(** Moving to a node of the open arc towards [k] shrinks the arc. *)
Lemma arc_shrinks :
  in_interval b a k false false = true ->
  in_interval c b k false false = true ->
  in_interval c a k false false = true.
Proof. revert Ha Hb Hc Hk. clear. intros Ha Hb Hc Hk. ring_cases. Qed.

Lemma arc_empty_owner :
  k <> a -> in_interval b a k false false = false -> b <> a ->
  in_interval k a b false true = true.
Proof. revert Ha Hb Hk. clear. intros Ha Hb Hk. ring_cases. Qed.

End ArcFacts.

(** *** Binary search in a sorted ring *)

Lemma bisect_left_le (l : list Z) (x : Z) : (bisect_left l x <= length l)%nat.
Proof. induction l as [|y l IH]; simpl; [lia|]. destruct (y <? x); simpl; lia. Qed.

Lemma bisect_left_app (l1 l2 : list Z) (x : Z) :
  Forall (fun y => y < x) l1 ->
  bisect_left (l1 ++ l2) x = (length l1 + bisect_left l2 x)%nat.
Proof.
  induction 1 as [|y l1 Hy _ IH]; simpl; [reflexivity|].
  destruct (Z.ltb_spec y x); [|lia]. rewrite IH. reflexivity.
Qed.

Lemma bisect_left_all (l : list Z) (x : Z) :
  Forall (fun y => y < x) l -> bisect_left l x = length l.
Proof.
  intros H. rewrite <- (app_nil_r l) at 1. rewrite (bisect_left_app _ _ _ H).
  simpl. lia.
Qed.

Lemma list_getitem_nat {A : Type} (l : list A) (i : nat) (x : A) :
  l !! i = Some x -> list_getitem l (Z.of_nat i) = Ok x.
Proof.
  intros H. pose proof (lookup_lt_Some _ _ _ H) as Hlt. unfold list_getitem.
  destruct (Z.ltb_spec (Z.of_nat i) 0) as [Hneg|_]; [lia|].
  destruct (Z.leb_spec 0 (Z.of_nat i)) as [_|Hneg]; [|lia].
  destruct (Z.ltb_spec (Z.of_nat i) (Z.of_nat (length l))) as [_|Hge]; [|lia].
  simpl. rewrite Nat2Z.id, H. reflexivity.
Qed.

Lemma list_getitem_Ok_inv {A : Type} (l : list A) (i : Z) (x : A) :
  0 <= i -> list_getitem l i = Ok x -> l !! Z.to_nat i = Some x.
Proof.
  intros Hi. unfold list_getitem.
  destruct (Z.ltb_spec i 0) as [Hneg|_]; [lia|].
  destruct ((0 <=? i) && (i <? Z.of_nat (length l))); [|discriminate].
  destruct (l !! Z.to_nat i); [|discriminate].
  intros H. injection H as ->. reflexivity.
Qed.

Lemma ring_owner_elem (ring : list Z) (key : Z) :
  ring <> [] -> exists o, ring_owner ring key = Ok o /\ o ∈ ring.
Proof.
  intros Hne. unfold ring_owner.
  pose proof (bisect_left_le ring key) as Hle.
  assert (0 < length ring)%nat as Hpos by (destruct ring; [contradiction|simpl; lia]).
  set (i := if (bisect_left ring key =? length ring)%nat then 0%nat
            else bisect_left ring key).
  assert (i < length ring)%nat as Hi.
  { unfold i. destruct (Nat.eqb_spec (bisect_left ring key) (length ring)); lia. }
  destruct (lookup_lt_is_Some_2 ring i Hi) as [o Ho].
  exists o. split; [exact (list_getitem_nat _ _ _ Ho)|].
  exact (list_elem_of_lookup_2 _ _ _ Ho).
Qed.

Section SortedRing.

Variable ring : list Z.
Hypothesis Hsorted : StronglySorted Z.lt ring.

Lemma sorted_split_lt (l1 l2 : list Z) (x : Z) :
  ring = l1 ++ x :: l2 ->
  Forall (fun y => y < x) l1 /\ Forall (fun y => x < y) l2.
Proof.
  intros Heq. rewrite Heq in Hsorted. split.
  - apply Forall_forall. intros y Hy.
    apply (StronglySorted_app_1_elem_of Z.lt l1 (x :: l2) y x Hsorted Hy).
    apply elem_of_cons. auto.
  - apply StronglySorted_app_1_r in Hsorted.
    apply StronglySorted_inv in Hsorted as [_ H]. exact H.
Qed.

(** A member of the ring owns itself. *)
Lemma ring_owner_member (key : Z) :
  key ∈ ring -> ring_owner ring key = Ok key.
Proof.
  intros Hin. apply list_elem_of_split in Hin as (l1 & l2 & Heq).
  destruct (sorted_split_lt _ _ _ Heq) as [Hl1 _].
  assert (bisect_left ring key = length l1) as Hb.
  { rewrite Heq, bisect_left_app by exact Hl1. simpl.
    rewrite Z.ltb_irrefl. lia. }
  assert (length ring = (length l1 + S (length l2))%nat) as Hlen.
  { rewrite Heq, length_app. reflexivity. }
  unfold ring_owner. rewrite Hb.
  destruct (Nat.eqb_spec (length l1) (length ring)); [lia|].
  apply list_getitem_nat. rewrite Heq.
  apply list_lookup_middle. reflexivity.
Qed.

(** The node that follows [x] in the ring owns the keys of [(x, s]]. *)
Lemma ring_owner_next (idx : nat) (x s key : Z) :
  (forall y, y ∈ ring -> 0 <= y < MAX_ID) ->
  ring !! idx = Some x ->
  list_getitem ring ((Z.of_nat idx + 1) mod Z.of_nat (length ring)) = Ok s ->
  0 <= key < MAX_ID -> key <> x ->
  in_interval key x s false true = true ->
  ring_owner ring key = Ok s.
Proof.
  intros Hrange Hx Hs Hkey Hne Hin.
  pose proof (lookup_lt_Some _ _ _ Hx) as Hidx.
  pose proof (Hrange x (list_elem_of_lookup_2 _ _ _ Hx)) as Hxr.
  destruct (decide (S idx < length ring)%nat) as [Hlt|Hlast].
  - rewrite Z.mod_small in Hs by lia.
    apply list_getitem_Ok_inv in Hs; [|lia].
    replace (Z.to_nat (Z.of_nat idx + 1)) with (S idx) in Hs by lia.
    pose proof (Hrange s (list_elem_of_lookup_2 _ _ _ Hs)) as Hsr.
    pose proof (take_drop_middle _ _ _ Hx) as Heq. symmetry in Heq.
    destruct (sorted_split_lt _ _ _ Heq) as [Hl1 Hl2].
    assert (drop (S idx) ring = s :: drop (S (S idx)) ring) as Hd.
    { apply drop_S. exact Hs. }
    rewrite Hd in Heq, Hl2. apply Forall_cons in Hl2 as [Hxs _].
    assert (x < key <= s) as Hk.
    { clear - Hin Hxr Hsr Hkey Hne Hxs. revert Hin. ring_cases. }
    unfold ring_owner.
    assert (bisect_left ring key = S idx) as Hb.
    { rewrite Heq. rewrite bisect_left_app.
      - rewrite length_take_le by lia. simpl.
        destruct (Z.ltb_spec x key); [|lia].
        destruct (Z.ltb_spec s key); [lia|]. lia.
      - eapply Forall_impl; [exact Hl1|]. simpl. intros; lia. }
    rewrite Hb. destruct (Nat.eqb_spec (S idx) (length ring)); [lia|].
    apply list_getitem_nat, Hs.
  - assert (S idx = length ring) as Hlen by lia.
    replace ((Z.of_nat idx + 1) mod Z.of_nat (length ring)) with 0 in Hs
      by (rewrite <- Hlen; replace (Z.of_nat idx + 1) with (Z.of_nat (S idx)) by lia;
          rewrite Z.mod_same; lia).
    apply list_getitem_Ok_inv in Hs; [|lia].
    change (Z.to_nat 0) with 0%nat in Hs.
    pose proof (Hrange s (list_elem_of_lookup_2 _ _ _ Hs)) as Hsr.
    pose proof (take_drop_middle _ _ _ Hx) as Heq. symmetry in Heq.
    destruct (sorted_split_lt _ _ _ Heq) as [Hl1 _].
    assert (drop (S idx) ring = []) as Hd by (apply drop_ge; lia).
    rewrite Hd in Heq.
    assert (s <= x) as Hsx.
    { destruct idx as [|idx].
      - rewrite Hx in Hs. injection Hs as ->. lia.
      - assert (s ∈ take (S idx) ring) as Hst.
        { apply elem_of_take. exists 0%nat. split; [exact Hs|lia]. }
        rewrite Forall_forall in Hl1. specialize (Hl1 _ Hst). lia. }
    assert (x < key \/ key <= s) as Hk.
    { clear - Hin Hxr Hsr Hkey Hne Hsx. revert Hin. ring_cases. }
    unfold ring_owner. destruct Hk as [Hk|Hk].
    + assert (bisect_left ring key = length ring) as Hb.
      { apply bisect_left_all. rewrite Heq. apply Forall_app. split.
        - eapply Forall_impl; [exact Hl1|]. simpl. intros; lia.
        - apply Forall_cons. split; [lia|constructor]. }
      rewrite Hb, Nat.eqb_refl. apply list_getitem_nat, Hs.
    + assert (bisect_left ring key = 0%nat) as Hb.
      { destruct ring as [|y r]; [discriminate|]. simpl in Hs.
        injection Hs as ->. simpl. destruct (Z.ltb_spec s key); [lia|reflexivity]. }
      rewrite Hb. destruct (Nat.eqb_spec 0 (length ring)); [lia|].
      apply list_getitem_nat, Hs.
Qed.

End SortedRing.

(** *** The walk of [lookup_iterative] *)

Lemma scan_fingers_cases (x key : Z) (fs : list (option Z)) :
  scan_fingers x key fs = x \/
  (Some (scan_fingers x key fs) ∈ fs /\
   in_interval (scan_fingers x key fs) x key false false = true).
Proof.
  induction fs as [|[f|] fs IH]; simpl; [left; reflexivity| |].
  - destruct (in_interval f x key false false) eqn:Hf.
    + right. split; [apply elem_of_cons; auto|exact Hf].
    + destruct IH as [IH|[IH1 IH2]]; [left; exact IH|right].
      split; [apply elem_of_cons; auto|exact IH2].
  - destruct IH as [IH|[IH1 IH2]]; [left; exact IH|right].
    split; [apply elem_of_cons; auto|exact IH2].
Qed.

Lemma scan_fingers_found (x key f : Z) (fs : list (option Z)) :
  Some f ∈ fs -> in_interval f x key false false = true ->
  Some (scan_fingers x key fs) ∈ fs /\
  in_interval (scan_fingers x key fs) x key false false = true.
Proof.
  induction fs as [|[g|] fs IH]; simpl; intros Hin Hf.
  - apply elem_of_nil in Hin. contradiction.
  - destruct (in_interval g x key false false) eqn:Hg.
    + split; [apply elem_of_cons; auto|exact Hg].
    + apply elem_of_cons in Hin as [Heq|Hin]; [congruence|].
      destruct (IH Hin Hf) as [IH1 IH2].
      split; [apply elem_of_cons; auto|exact IH2].
  - apply elem_of_cons in Hin as [Heq|Hin]; [discriminate|].
    destruct (IH Hin Hf) as [IH1 IH2].
    split; [apply elem_of_cons; auto|exact IH2].
Qed.

Lemma closest_preceding_finger_full (n : Node) (key : Z) :
  length (finger n) = Z.to_nat M ->
  closest_preceding_finger_local n key
  = Ok (scan_fingers (node_id n) key (reverse (finger n))).
Proof.
  intros Hlen. unfold closest_preceding_finger_local. rewrite Hlen.
  rewrite Nat.ltb_irrefl. rewrite <- Hlen at 1. rewrite firstn_all.
  reflexivity.
Qed.

Lemma filter_length_le {A : Type} (P Q : A -> Prop)
    `{!forall x, Decision (P x)} `{!forall x, Decision (Q x)} (l : list A) :
  (forall x, x ∈ l -> P x -> Q x) ->
  (length (filter P l) <= length (filter Q l))%nat.
Proof.
  induction l as [|z l IH]; intros HPQ; [reflexivity|].
  assert (forall x, x ∈ l -> P x -> Q x) as HPQ'
      by (intros x Hx; apply HPQ, elem_of_cons; auto).
  specialize (IH HPQ'). rewrite !filter_cons.
  destruct (decide (P z)) as [HP|HP].
  - destruct (decide (Q z)) as [_|HQ]; [simpl; lia|].
    destruct HQ. apply HPQ; [apply elem_of_cons; auto|exact HP].
  - destruct (decide (Q z)); simpl; lia.
Qed.

Lemma filter_length_lt {A : Type} (P Q : A -> Prop)
    `{!forall x, Decision (P x)} `{!forall x, Decision (Q x)}
    (l : list A) (y : A) :
  (forall x, x ∈ l -> P x -> Q x) -> y ∈ l -> Q y -> ~ P y ->
  (length (filter P l) < length (filter Q l))%nat.
Proof.
  intros HPQ Hy HQy HPy.
  induction l as [|x l IH]; [apply elem_of_nil in Hy; contradiction|].
  assert (forall x, x ∈ l -> P x -> Q x) as HPQ'
      by (intros x' Hx; apply HPQ, elem_of_cons; auto).
  pose proof (filter_length_le P Q l HPQ') as Hle.
  rewrite !filter_cons.
  apply elem_of_cons in Hy as [<-|Hy].
  - destruct (decide (P y)); [contradiction|].
    destruct (decide (Q y)); [simpl; lia|contradiction].
  - specialize (IH HPQ' Hy). destruct (decide (P x)) as [HP|HP].
    + destruct (decide (Q x)) as [_|HQ]; [simpl; lia|].
      destruct HQ. apply HPQ; [apply elem_of_cons; auto|exact HP].
    + destruct (decide (Q x)); simpl; lia.
Qed.

Section IdealRing.

Variables (d : dict Node) (ring : list Z) (k owner : Z).
Hypothesis Hk : 0 <= k < MAX_ID.
Hypothesis Hrange : forall x, x ∈ ring -> 0 <= x < MAX_ID.
Hypothesis Hmember : forall x, x ∈ ring -> ring_owner ring x = Ok x.
Hypothesis Howner : ring_owner ring k = Ok owner.
Hypothesis Hnode :
  forall x, x ∈ ring ->
    exists n s,
      dict_get x d = Some n /\ node_id n = x /\ active n = true /\
      length (finger n) = Z.to_nat M /\ successor n = Some s /\ s ∈ ring /\
      finger n !! 0%nat = Some (Some s) /\
      (forall f, Some f ∈ finger n -> f ∈ ring) /\
      (forall key, 0 <= key < MAX_ID -> key <> x ->
                   in_interval key x s false true = true ->
                   ring_owner ring key = Ok s).

(** Whatever the budget, the walk ends on the owner or gives up. *)
Lemma lookup_loop_safe (budget : nat) (cur : Z) (visited : list Z) :
  cur ∈ ring ->
  lookup_loop d k false budget cur visited = Ok (Some owner, false) \/
  lookup_loop d k false budget cur visited = Ok (None, false).
Proof.
  revert cur visited. induction budget as [|budget IH]; intros cur visited Hcur;
    [right; reflexivity|].
  destruct (Hnode cur Hcur)
    as (n & s & Hget & Hid & Hact & Hlen & Hsucc & Hs & _ & Hfing & Hnext).
  cbn [lookup_loop]. rewrite Hget, Hact, Hid, Hsucc. cbn [negb orb opt_int rbind].
  destruct (bool_decide (cur ∈ visited)); [right; reflexivity|].
  destruct (Z.eqb_spec k cur) as [->|Hne].
  - left. rewrite (Hmember cur Hcur) in Howner. injection Howner as ->.
    reflexivity.
  - destruct (in_interval k cur s false true) eqn:Hin.
    + left. rewrite (Hnext k Hk Hne Hin) in Howner. injection Howner as ->.
      reflexivity.
    + rewrite (closest_preceding_finger_full n k Hlen). cbn [rbind].
      apply IH. rewrite Hid.
      destruct (scan_fingers_cases cur k (reverse (finger n))) as [->|[Hf _]];
        [exact Hcur|].
      apply Hfing, elem_of_reverse, Hf.
Qed.

(** A budget above the number of ring members between the current node
    and the key is enough to reach the owner. *)
Lemma lookup_loop_live (budget : nat) (cur : Z) (visited : list Z) :
  cur ∈ ring ->
  (forall v, v ∈ visited -> v ∈ ring /\ in_interval cur v k false false = true) ->
  (arc_count ring k cur < budget)%nat ->
  lookup_loop d k false budget cur visited = Ok (Some owner, false).
Proof.
  revert cur visited. induction budget as [|budget IH];
    intros cur visited Hcur Hvis Hbud; [lia|].
  destruct (Hnode cur Hcur)
    as (n & s & Hget & Hid & Hact & Hlen & Hsucc & Hs & Hf0 & Hfing & Hnext).
  pose proof (Hrange cur Hcur) as Hcr. pose proof (Hrange s Hs) as Hsr.
  cbn [lookup_loop]. rewrite Hget, Hact, Hid, Hsucc. cbn [negb orb opt_int rbind].
  assert (cur ∉ visited) as Hnv.
  { intros Hv. destruct (Hvis cur Hv) as [_ Harc].
    rewrite (arc_irreflexive cur k Hcr Hk) in Harc. discriminate. }
  rewrite (bool_decide_eq_false_2 _ Hnv).
  destruct (Z.eqb_spec k cur) as [->|Hne].
  - rewrite (Hmember cur Hcur) in Howner. injection Howner as ->. reflexivity.
  - destruct (in_interval k cur s false true) eqn:Hin.
    + rewrite (Hnext k Hk Hne Hin) in Howner. injection Howner as ->.
      reflexivity.
    + rewrite (closest_preceding_finger_full n k Hlen). cbn [rbind].
      rewrite Hid.
      pose proof (arc_successor_precedes cur s k Hcr Hsr Hk Hne Hin) as Hsarc.
      assert (Some s ∈ reverse (finger n)) as Hsin.
      { apply elem_of_reverse. exact (list_elem_of_lookup_2 _ _ _ Hf0). }
      destruct (scan_fingers_found cur k s _ Hsin Hsarc) as [Hfin Hfarc].
      set (f := scan_fingers cur k (reverse (finger n))) in *.
      assert (f ∈ ring) as Hfr by (apply Hfing, elem_of_reverse, Hfin).
      pose proof (Hrange f Hfr) as Hfrange.
      apply IH; [exact Hfr| |].
      * intros v Hv. apply elem_of_cons in Hv as [->|Hv]; [auto|].
        destruct (Hvis v Hv) as [Hvr Hvarc]. split; [exact Hvr|].
        exact (arc_shrinks v cur f k (Hrange v Hvr) Hcr Hfrange Hk Hvarc Hfarc).
      * assert (arc_count ring k f < arc_count ring k cur)%nat; [|lia].
        unfold arc_count. apply (filter_length_lt _ _ ring f); try assumption.
        -- intros x Hxr Hx.
           exact (arc_shrinks cur f x k Hcr Hfrange (Hrange x Hxr) Hk Hfarc Hx).
        -- rewrite (arc_irreflexive f k Hfrange Hk). discriminate.
Qed.

End IdealRing.

(** *** The ring left by [warm_up] *)

Lemma StronglySorted_le_NoDup_lt (l : list Z) :
  StronglySorted Z.le l -> NoDup l -> StronglySorted Z.lt l.
Proof.
  induction 1 as [|x l Hs IH Hall]; intros Hnd; constructor.
  - apply IH. apply NoDup_cons in Hnd as [_ Hnd]. exact Hnd.
  - apply NoDup_cons in Hnd as [Hx _].
    apply Forall_forall. intros y Hy.
    pose proof (proj1 (Forall_forall _ _) Hall y Hy) as Hle.
    assert (y <> x) by (intros ->; contradiction). lia.
Qed.

Lemma sorted_StronglySorted (l : list Z) :
  NoDup l -> StronglySorted Z.lt (sorted l).
Proof.
  intros Hnd. apply StronglySorted_le_NoDup_lt.
  - unfold sorted. apply StronglySorted_merge_sort; apply _.
  - apply NoDup_sorted, Hnd.
Qed.

Lemma elem_of_sorted (l : list Z) (x : Z) : x ∈ sorted l <-> x ∈ l.
Proof. rewrite sorted_Permutation. reflexivity. Qed.

Lemma enumerate_lookup {A : Type} (l : list A) (idx : nat) (k : A) :
  (idx, k) ∈ enumerate l <-> l !! idx = Some k.
Proof.
  unfold enumerate. rewrite list_elem_of_lookup. split.
  - intros (i & Hi). apply lookup_zip_with_Some in Hi as (x & y & Heq & Hx & Hy).
    injection Heq as -> ->. apply lookup_seq in Hx as [-> _]. exact Hy.
  - intros Hk. exists idx. apply lookup_zip_with_Some. exists idx, k.
    split; [reflexivity|]. split; [|exact Hk].
    apply lookup_seq. split; [reflexivity|]. exact (lookup_lt_Some _ _ _ Hk).
Qed.

Lemma list_getitem_mod {A : Type} (l : list A) (z : Z) :
  l <> [] -> exists x, list_getitem l (z mod Z.of_nat (length l)) = Ok x.
Proof.
  intros Hne. assert (0 < Z.of_nat (length l)) as Hpos.
  { destruct l; [contradiction|]. simpl. lia. }
  pose proof (Z.mod_pos_bound z _ Hpos) as Hb.
  unfold list_getitem.
  destruct (Z.ltb_spec (z mod Z.of_nat (length l)) 0) as [Hlt|_]; [lia|].
  destruct (Z.leb_spec 0 (z mod Z.of_nat (length l))) as [_|Hlt]; [|lia].
  destruct (Z.ltb_spec (z mod Z.of_nat (length l)) (Z.of_nat (length l)))
    as [_|Hge]; [|lia].
  cbn [andb].
  destruct (lookup_lt_is_Some_2 l (Z.to_nat (z mod Z.of_nat (length l))))
    as [x Hx]; [lia|].
  rewrite Hx. eauto.
Qed.

Lemma list_getitem_pred {A : Type} (l : list A) (idx : nat) :
  (idx < length l)%nat -> exists x, list_getitem l (Z.of_nat idx - 1) = Ok x.
Proof.
  intros Hlt. unfold list_getitem.
  destruct (Z.ltb_spec (Z.of_nat idx - 1) 0) as [Hneg|Hpos].
  - destruct (Z.leb_spec 0 (Z.of_nat idx - 1 + Z.of_nat (length l)))
      as [_|Hbad]; [|lia].
    destruct (Z.ltb_spec (Z.of_nat idx - 1 + Z.of_nat (length l))
                (Z.of_nat (length l))) as [_|Hbad]; [|lia].
    cbn [andb].
    destruct (lookup_lt_is_Some_2 l
                (Z.to_nat (Z.of_nat idx - 1 + Z.of_nat (length l))))
      as [x Hx]; [lia|].
    rewrite Hx. eauto.
  - destruct (Z.leb_spec 0 (Z.of_nat idx - 1)) as [_|Hbad]; [|lia].
    destruct (Z.ltb_spec (Z.of_nat idx - 1) (Z.of_nat (length l)))
      as [_|Hbad]; [|lia].
    cbn [andb].
    destruct (lookup_lt_is_Some_2 l (Z.to_nat (Z.of_nat idx - 1)))
      as [x Hx]; [lia|].
    rewrite Hx. eauto.
Qed.

Lemma warm_fingers_returns (ring : list Z) (nid : Z) (bs : list nat)
    (f : list (option Z)) :
  ring <> [] ->
  (forall b, b ∈ bs -> (b < length f)%nat) ->
  exists f', warm_fingers ring nid f bs = Ok f'.
Proof.
  intros Hne. revert f. induction bs as [|b bs IH]; intros f Hbs; simpl;
    [eauto|].
  destruct (ring_owner_elem ring (finger_start nid b) Hne) as (o & Ho & _).
  unfold warm_finger. rewrite Ho. cbn [rbind]. unfold list_setitem.
  destruct (Nat.ltb_spec b (length f)) as [_|Hge].
  - cbn [rbind]. apply IH. intros b' Hb'. rewrite length_insert.
    apply Hbs, elem_of_cons. auto.
  - pose proof (Hbs b ltac:(apply elem_of_cons; auto)). lia.
Qed.

(** [warm_node] returns on every position of a non-empty ring. *)
Lemma warm_node_returns (ring : list Z) (m idx : nat) (nid : Z) (n : Node) :
  ring <> [] -> (idx < length ring)%nat -> (m <= length (finger n))%nat ->
  exists n', warm_node ring m idx nid n = Ok n'.
Proof.
  intros Hne Hidx Hm. unfold warm_node.
  destruct (list_getitem_mod ring (Z.of_nat idx + 1) Hne) as [s ->].
  cbn [rbind].
  destruct (list_getitem_pred ring idx Hidx) as [p ->]. cbn [rbind].
  assert (forall js, exists sl,
    fold_right
      (fun j acc =>
         let! x := list_getitem ring
                     ((Z.of_nat idx + Z.of_nat j) mod Z.of_nat (length ring)) in
         let! rest := acc in
         Ok (Some x :: rest))
      (Ok []) js = Ok sl) as Hsl.
  { induction js as [|j js [sl IH]]; simpl; [eauto|].
    destruct (list_getitem_mod ring (Z.of_nat idx + Z.of_nat j) Hne) as [x ->].
    cbn [rbind]. rewrite IH. cbn [rbind]. eauto. }
  destruct (Hsl (seq 1 (Z.to_nat SUCCESSOR_LIST_SIZE))) as [sl ->].
  cbn [rbind].
  destruct n as [id bo ph cs fg su pr sls nf ac lo lf pe]. simpl in *.
  destruct (warm_fingers_returns ring nid (seq 0 m) fg Hne) as [f' ->].
  - intros b Hb. apply elem_of_seq in Hb. lia.
  - cbn [rbind]. eauto.
Qed.

(** The successor and the finger table [warm_node] writes. *)
Lemma warm_node_fields (ring : list Z) (m idx : nat) (nid : Z) (n n' : Node) :
  warm_node ring m idx nid n = Ok n' ->
  exists s,
    list_getitem ring ((Z.of_nat idx + 1) mod Z.of_nat (length ring)) = Ok s /\
    successor n' = Some s /\
    (forall b, (b < m)%nat ->
               exists o, ring_owner ring (finger_start nid b) = Ok o /\
                         finger n' !! b = Some (Some o)).
Proof.
  unfold warm_node. intros H.
  apply rbind_Ok_inv in H as (s & Hs & H).
  apply rbind_Ok_inv in H as (p & Hp & H).
  apply rbind_Ok_inv in H as (sl & Hsl & H).
  apply rbind_Ok_inv in H as (f & Hf & H). injection H as <-.
  destruct n as [id bo ph cs fg su pr sls nf ac lo lf pe]. simpl in *.
  apply warm_fingers_spec in Hf as (_ & Hin & _).
  exists s. split; [exact Hs|]. split; [reflexivity|].
  intros b Hb. apply Hin, elem_of_seq. lia.
Qed.

Lemma warm_loop_returns (ring : list Z) (m : nat) (l : list (nat * Z))
    (d : dict Node) :
  ring <> [] ->
  (forall idx k, (idx, k) ∈ l ->
                 (idx < length ring)%nat /\
                 exists n, dict_get k d = Some n /\
                           (m <= length (finger n))%nat) ->
  exists d', warm_loop ring m l d = Ok d'.
Proof.
  intros Hne. revert d. induction l as [|[idx k] l IH]; intros d H; simpl;
    [eauto|].
  destruct (H idx k) as (Hidx & n & Hn & Hm); [apply elem_of_cons; auto|].
  unfold dict_getitem. rewrite Hn. cbn [rbind].
  destruct (warm_node_returns ring m idx k n Hne Hidx Hm) as [n' Hn'].
  rewrite Hn'. cbn [rbind]. apply IH.
  intros idx' k' Hin.
  destruct (H idx' k') as (Hidx' & n1 & Hn1 & Hm1); [apply elem_of_cons; auto|].
  split; [exact Hidx'|].
  destruct (decide (k = k')) as [<-|Hkk].
  - exists n'. split; [apply dict_get_set_eq|].
    apply warm_node_inv in Hn' as (_ & _ & Hlen & _). lia.
  - exists n1. split; [|exact Hm1]. rewrite <- Hn1.
    apply dict_get_set_ne, Hkk.
Qed.

Lemma dict_get_keys {V : Type} (d : dict V) (k : Z) :
  k ∈ dict_keys d -> exists v, dict_get k d = Some v.
Proof.
  intros Hk. destruct (dict_get k d) as [v|] eqn:Hget; [eauto|].
  apply dict_get_None_keys in Hget. contradiction.
Qed.

Lemma registry_ok_get (d : dict Node) (k : Z) (n : Node) :
  registry_ok d -> dict_get k d = Some n ->
  node_id n = k /\ 0 <= k < MAX_ID /\ length (finger n) = Z.to_nat M.
Proof.
  intros [_ Hall] Hget. apply dict_get_Some_elem_of in Hget.
  exact (proj1 (Forall_forall _ _) Hall _ Hget).
Qed.

Lemma active_ids_get (d : dict Node) (k : Z) :
  NoDup (dict_keys d) ->
  k ∈ active_ids d <-> exists n, dict_get k d = Some n /\ active n = true.
Proof.
  intros Hnd. rewrite elem_of_active_ids. split.
  - intros (n & Hin & Hact). exists n. split; [|exact Hact].
    apply dict_get_elem_of; assumption.
  - intros (n & Hget & Hact). exists n. split; [|exact Hact].
    apply dict_get_Some_elem_of, Hget.
Qed.

Lemma finger_start_range (x : Z) (b : nat) : 0 <= finger_start x b < MAX_ID.
Proof. apply Z.mod_pos_bound. pose proof MAX_ID_pos. lia. Qed.

(** The start of finger 0 lies just after the node, hence in the arc
    that ends on its ring successor. *)
Lemma finger_start_0_interval (x s : Z) :
  0 <= x < MAX_ID -> 0 <= s < MAX_ID ->
  finger_start x 0 <> x /\
  in_interval (finger_start x 0) x s false true = true.
Proof.
  intros Hx Hs. pose proof MAX_ID_pos as Hpos. unfold finger_start.
  change (Z.shiftl 1 (Z.of_nat 0)) with 1.
  destruct (Z_lt_dec (x + 1) MAX_ID) as [Hlt|Hge].
  - rewrite (Z.mod_small (x + 1)) by lia. split; [lia|].
    assert (0 <= x + 1 < MAX_ID) as Hx1 by lia.
    remember (x + 1) as y eqn:Hy. ring_cases.
  - replace (x + 1) with MAX_ID by lia. rewrite Z.mod_same by lia.
    split; [lia|].
    assert (0 <= 0 < MAX_ID) as H0 by lia. ring_cases.
Qed.

Lemma filter_length_lt_all {A : Type} (P : A -> Prop)
    `{!forall x, Decision (P x)} (l : list A) (y : A) :
  y ∈ l -> ~ P y -> (length (filter P l) < length l)%nat.
Proof.
  intros Hy HPy. induction l as [|x l IH];
    [apply elem_of_nil in Hy; contradiction|].
  pose proof (length_filter P l) as Hle. rewrite filter_cons.
  apply elem_of_cons in Hy as [<-|Hy].
  - destruct (decide (P y)); [contradiction|]. simpl. lia.
  - specialize (IH Hy). destruct (decide (P x)); simpl; lia.
Qed.

(** [warm_up] returns on a well-formed, non-empty registry. *)
Lemma warm_up_returns (e : Env) :
  registry_ok (nodes e) -> nodes e <> [] -> exists e', warm_up e = Ok e'.
Proof.
  intros Hok Hne. unfold warm_up. cbn [nodes set_latest_ring].
  set (ring := sorted (active_ids (nodes e))).
  destruct (dict_keys (nodes e)) as [|first ks] eqn:Hkeys.
  { destruct (nodes e); [contradiction|discriminate]. }
  cbn [rbind].
  destruct (dict_get_keys (nodes e) first) as [fnode Hfnode].
  { rewrite Hkeys. apply elem_of_cons. auto. }
  unfold dict_getitem at 1. rewrite Hfnode. cbn [rbind].
  destruct (registry_ok_get _ _ _ Hok Hfnode) as (_ & _ & Hlen).
  destruct (decide (ring = [])) as [Hnil|Hnn].
  { rewrite Hnil. cbn [enumerate length seq zip zip_with warm_loop rbind]. eauto. }
  destruct (warm_loop_returns ring (length (finger fnode)) (enumerate ring)
              (nodes e) Hnn) as [d' Hd'].
  - intros idx k Hik. apply enumerate_lookup in Hik.
    split; [exact (lookup_lt_Some _ _ _ Hik)|].
    apply list_elem_of_lookup_2 in Hik. apply (proj1 (elem_of_sorted _ _)) in Hik.
    apply active_ids_subset_keys, dict_get_keys in Hik as [n Hn].
    exists n. split; [exact Hn|].
    destruct (registry_ok_get _ _ _ Hok Hn) as (_ & _ & Hlen'). lia.
  - rewrite Hd'. cbn [rbind]. eauto.
Qed.

(** The registry [warm_up] leaves: the ring is strictly sorted and within
    the identifier space, and every ring member's node holds its ring
    successor and a finger table of ring owners. *)
Lemma warm_up_ring (e e' : Env) :
  registry_ok (nodes e) ->
  warm_up e = Ok e' ->
  active_ids (nodes e') = active_ids (nodes e) /\
  length (nodes e') = length (nodes e) /\
  StronglySorted Z.lt (sorted (active_ids (nodes e'))) /\
  (forall x, x ∈ sorted (active_ids (nodes e')) -> 0 <= x < MAX_ID) /\
  (forall x, x ∈ sorted (active_ids (nodes e')) ->
     exists n s,
       dict_get x (nodes e') = Some n /\ node_id n = x /\ active n = true /\
       length (finger n) = Z.to_nat M /\ successor n = Some s /\
       s ∈ sorted (active_ids (nodes e')) /\
       finger n !! 0%nat = Some (Some s) /\
       (forall f, Some f ∈ finger n -> f ∈ sorted (active_ids (nodes e'))) /\
       (forall key, 0 <= key < MAX_ID -> key <> x ->
                    in_interval key x s false true = true ->
                    ring_owner (sorted (active_ids (nodes e'))) key = Ok s)).
Proof.
  intros Hok H. pose proof Hok as [Hnd _]. unfold warm_up in H.
  cbn [nodes set_latest_ring] in H.
  set (ring := sorted (active_ids (nodes e))) in *.
  apply rbind_Ok_inv in H as (first & Hfirst & H).
  apply rbind_Ok_inv in H as (fnode & Hfnode & H).
  apply rbind_Ok_inv in H as (d' & Hloop & H). injection H as <-.
  apply dict_getitem_Ok_inv in Hfnode.
  destruct (registry_ok_get _ _ _ Hok Hfnode) as (_ & _ & Hm).
  rewrite Hm in Hloop.
  assert (NoDup (enumerate ring).*2) as Hndr.
  { rewrite enumerate_snd. apply NoDup_sorted, NoDup_active_ids, Hnd. }
  destruct (warm_loop_spec _ _ _ _ _ Hndr Hloop) as (Hkeys & Hact & _ & Hin).
  cbn [nodes set_nodes]. rewrite Hact. fold ring.
  assert (StronglySorted Z.lt ring) as Hsorted
      by apply sorted_StronglySorted, NoDup_active_ids, Hnd.
  assert (forall x, x ∈ ring -> 0 <= x < MAX_ID) as Hrange.
  { intros x Hx. apply (proj1 (elem_of_sorted _ _)), active_ids_subset_keys in Hx.
    apply dict_get_keys in Hx as [n Hn].
    exact (proj1 (proj2 (registry_ok_get _ _ _ Hok Hn))). }
  split; [reflexivity|]. split.
  { unfold dict_keys in Hkeys. apply (f_equal length) in Hkeys.
    rewrite !length_fmap in Hkeys. exact Hkeys. }
  split; [exact Hsorted|]. split; [exact Hrange|].
  intros x Hx.
  assert (ring <> []) as Hne by (intros Hnil; rewrite Hnil in Hx;
                                  apply elem_of_nil in Hx; contradiction).
  pose proof Hx as Hxl. apply list_elem_of_lookup_1 in Hxl as [idx Hidx].
  destruct (Hin idx x) as (n & n' & Hn & Hw & Hn');
    [apply enumerate_lookup, Hidx|].
  destruct (registry_ok_get _ _ _ Hok Hn) as (Hid & _ & Hlen).
  pose proof (warm_node_inv _ _ _ _ _ _ Hw) as (Hid' & Hact' & Hlen' & _).
  destruct (warm_node_fields _ _ _ _ _ _ Hw) as (s & Hs & Hsucc & Hfing).
  assert (active n = true) as Hactive.
  { apply (proj1 (elem_of_sorted _ _)), (proj1 (active_ids_get _ _ Hnd)) in Hx
      as (n0 & Hn0 & Ha).
    congruence. }
  assert (s ∈ ring) as Hsr.
  { apply list_getitem_Ok_inv in Hs.
    - exact (list_elem_of_lookup_2 _ _ _ Hs).
    - apply Z.mod_pos_bound. destruct ring; [contradiction|]. simpl. lia. }
  assert (forall key, 0 <= key < MAX_ID -> key <> x ->
                      in_interval key x s false true = true ->
                      ring_owner ring key = Ok s) as Hnext.
  { intros key Hkey Hne' Hint.
    exact (ring_owner_next ring Hsorted idx x s key Hrange Hidx Hs Hkey Hne' Hint). }
  exists n', s. split; [exact Hn'|]. split; [congruence|].
  split; [congruence|]. split; [congruence|]. split; [exact Hsucc|].
  split; [exact Hsr|]. split; [|split; [|exact Hnext]].
  - destruct (Hfing 0%nat) as (o & Ho & Hf0); [unfold M; lia|].
    destruct (finger_start_0_interval x s (Hrange x Hx) (Hrange s Hsr))
      as [Hne0 Hint0].
    rewrite (Hnext _ (finger_start_range x 0) Hne0 Hint0) in Ho.
    injection Ho as <-. exact Hf0.
  - intros f Hf. apply list_elem_of_lookup_1 in Hf as [b Hb].
    pose proof (lookup_lt_Some _ _ _ Hb) as Hblt.
    destruct (Hfing b) as (o & Ho & Hfb); [lia|].
    destruct (ring_owner_elem ring (finger_start x b) Hne) as (o' & Ho' & Hor).
    congruence.
Qed.

(** *** Lookups on a warmed ring *)

Lemma lookup_iterative_plain (e : Env) (n : Node) (k : Z) (r : option Z) :
  lookup_loop (nodes e) k false (hop_budget (nodes e)) (node_id n) []
  = Ok (r, false) ->
  lookup_iterative e n k false = Ok (r, e).
Proof. unfold lookup_iterative. intros ->. reflexivity. Qed.

(** C1 (as stated, refuted): on seven active nodes whose ids halve the
    distance to the top of the ring, after [warm_up] the lookup of the key
    [2^160 - 1] from node [0] uses up the hop budget of 6 and returns
    [None], although the binary-search owner of the key is node [0]. *)
Theorem lookup_exhausts_hop_budget :
  registry_ok (nodes env_chain) /\
  warm_up env_chain = Ok env_chain_warm /\
  count_active (nodes env_chain_warm) = 7%nat /\
  hop_budget (nodes env_chain_warm) = 6%nat /\
  0 <= 2 ^ 160 - 1 < 2 ^ M /\
  ring_owner (sorted (active_ids (nodes env_chain_warm))) (2 ^ 160 - 1) = Ok 0 /\
  exists n, dict_get 0 (nodes env_chain_warm) = Some n /\ active n = true /\
            lookup_iterative env_chain_warm n (2 ^ 160 - 1) false
            = Ok (None, env_chain_warm).
Proof.
  split.
  { split.
    - apply (bool_decide_unpack _). vm_compute. reflexivity.
    - apply (bool_decide_unpack _). vm_compute. reflexivity. }
  split; [vm_compute; reflexivity|].
  split; [vm_compute; reflexivity|].
  split; [vm_compute; reflexivity|].
  split; [vm_compute; split; [discriminate|reflexivity]|].
  split; [vm_compute; reflexivity|].
  eexists. split; [vm_compute; reflexivity|].
  split; [reflexivity|]. vm_compute. reflexivity.
Qed.

(** C1 (amended): on a well-formed registry, [warm_up] returns, and on the
    environment it leaves, for every key [k] in [0, 2^m) and every active
    start node, [lookup_iterative(k)] without statistics leaves the
    environment unchanged and returns either the binary-search owner of
    [k] in the sorted active ids or [None]; it returns the owner whenever
    fewer active nodes lie strictly between the start node and [k] than
    the hop budget allows, in particular whenever the number of active
    nodes is at most the hop budget. *)
Theorem lookup_after_warm_up (e : Env) (start k : Z) :
  registry_ok (nodes e) ->
  start ∈ active_ids (nodes e) ->
  0 <= k < MAX_ID ->
  exists e' n owner,
    warm_up e = Ok e' /\
    dict_get start (nodes e') = Some n /\
    ring_owner (sorted (active_ids (nodes e'))) k = Ok owner /\
    (lookup_iterative e' n k false = Ok (Some owner, e') \/
     lookup_iterative e' n k false = Ok (None, e')) /\
    ((arc_count (sorted (active_ids (nodes e'))) k start
      < hop_budget (nodes e'))%nat ->
     lookup_iterative e' n k false = Ok (Some owner, e')) /\
    ((count_active (nodes e') <= hop_budget (nodes e'))%nat ->
     lookup_iterative e' n k false = Ok (Some owner, e')).
Proof.
  intros Hok Hstart Hk.
  destruct (warm_up_returns e Hok) as [e' Hwarm].
  { intros Hnil. rewrite Hnil in Hstart. apply elem_of_nil in Hstart.
    contradiction. }
  destruct (warm_up_ring e e' Hok Hwarm)
    as (Hact & _ & Hsorted & Hrange & Hnode).
  set (ring := sorted (active_ids (nodes e'))) in *.
  assert (start ∈ ring) as Hsr.
  { apply elem_of_sorted. rewrite Hact. exact Hstart. }
  assert (ring <> []) as Hne by (intros Hnil; rewrite Hnil in Hsr;
                                  apply elem_of_nil in Hsr; contradiction).
  destruct (ring_owner_elem ring k Hne) as (owner & Howner & _).
  destruct (Hnode start Hsr) as (n & s & Hn & Hid & _).
  pose proof (ring_owner_member ring Hsorted) as Hmember.
  assert ((arc_count ring k start < hop_budget (nodes e'))%nat ->
          lookup_iterative e' n k false = Ok (Some owner, e')) as Hlive.
  { intros Hbud. apply lookup_iterative_plain. rewrite Hid.
    apply (lookup_loop_live (nodes e') ring k owner); try assumption.
    intros v Hv. apply elem_of_nil in Hv. contradiction. }
  exists e', n, owner. split; [exact Hwarm|]. split; [exact Hn|].
  split; [exact Howner|]. split; [|split; [exact Hlive|]].
  - rewrite <- Hid in Hsr.
    assert (lookup_loop (nodes e') k false (hop_budget (nodes e')) (node_id n) []
            = Ok (Some owner, false) \/
            lookup_loop (nodes e') k false (hop_budget (nodes e')) (node_id n) []
            = Ok (None, false)) as [Hl|Hl]
        by (apply (lookup_loop_safe (nodes e') ring k owner); assumption).
    + left. apply lookup_iterative_plain, Hl.
    + right. apply lookup_iterative_plain, Hl.
  - intros Hcount. apply Hlive.
    assert (arc_count ring k start < count_active (nodes e'))%nat; [|lia].
    unfold arc_count, count_active.
    rewrite <- (Permutation_length (sorted_Permutation (active_ids (nodes e')))).
    apply (filter_length_lt_all _ ring start Hsr).
    rewrite (arc_irreflexive start k (Hrange start Hsr) Hk). discriminate.
Qed.

Lemma lookup_after_warm_up_witness :
  exists e' n owner,
    warm_up env_two = Ok e' /\
    dict_get 10 (nodes e') = Some n /\
    ring_owner (sorted (active_ids (nodes e'))) 15 = Ok owner /\
    (lookup_iterative e' n 15 false = Ok (Some owner, e') \/
     lookup_iterative e' n 15 false = Ok (None, e')) /\
    ((arc_count (sorted (active_ids (nodes e'))) 15 10
      < hop_budget (nodes e'))%nat ->
     lookup_iterative e' n 15 false = Ok (Some owner, e')) /\
    ((count_active (nodes e') <= hop_budget (nodes e'))%nat ->
     lookup_iterative e' n 15 false = Ok (Some owner, e')).
Proof.
  apply (lookup_after_warm_up env_two 10 15).
  - split.
    + apply (bool_decide_unpack _). vm_compute. reflexivity.
    + apply (bool_decide_unpack _). vm_compute. reflexivity.
  - apply (bool_decide_unpack _). vm_compute. reflexivity.
  - vm_compute. split; [discriminate|reflexivity].
Defined.

(** On the two-node ring every lookup reaches the owner. *)
Example lookup_two_nodes :
  exists n, dict_get 20 (nodes env_two_warm) = Some n /\
            lookup_iterative env_two_warm n 15 false
            = Ok (Some 20, env_two_warm) /\
            lookup_iterative env_two_warm n 5 false
            = Ok (Some 10, env_two_warm).
Proof.
  eexists. split; [vm_compute; reflexivity|].
  split; vm_compute; reflexivity.
Qed.

(** * Further properties of the code *)

(** ** [sim/utils.py] *)

(** For two different ring positions [a] and [b], the arc from [a] to [b]
    and the arc from [b] to [a] with the opposite endpoint conventions are
    complements of each other: every identifier lies in exactly one. *)
Theorem in_interval_complement (x a b : Z) (s t : bool) :
  0 <= x < MAX_ID -> 0 <= a < MAX_ID -> 0 <= b < MAX_ID -> a <> b ->
  in_interval x a b s t = negb (in_interval x b a (negb t) (negb s)).
Proof.
  intros Hx Ha Hb Hab. destruct s, t; ring_cases.
Qed.

Lemma in_interval_complement_witness :
  in_interval 3 10 20 false true = negb (in_interval 3 20 10 false true).
Proof.
  apply (in_interval_complement 3 10 20 false true);
    vm_compute; try split; congruence.
Defined.

Lemma mod_add_cases (x d : Z) :
  0 <= x < MAX_ID -> 0 <= d < MAX_ID ->
  (mod_add x d = x + d /\ x + d < MAX_ID) \/
  (mod_add x d = x + d - MAX_ID /\ MAX_ID <= x + d).
Proof.
  intros Hx Hd. unfold mod_add.
  destruct (Z_lt_dec (x + d) MAX_ID) as [Hlt|Hge].
  - left. split; [apply Z.mod_small; lia|exact Hlt].
  - right. split; [|lia].
    symmetry. apply (Z.mod_unique _ _ 1); [left; lia|lia].
Qed.

Lemma in_interval_mod (x a b : Z) (s t : bool) :
  in_interval x a b s t
  = in_interval (x mod MAX_ID) (a mod MAX_ID) (b mod MAX_ID) s t.
Proof. unfold in_interval. rewrite !Z.mod_mod by (pose proof MAX_ID_pos; lia). reflexivity. Qed.

Lemma mod_add_mod (x d : Z) :
  mod_add x d = mod_add (x mod MAX_ID) (d mod MAX_ID).
Proof. unfold mod_add. apply Z.add_mod. pose proof MAX_ID_pos. lia. Qed.

(** Case analysis on the comparisons of a goal, leaving a branch as soon
    as its comparisons contradict each other. *)
Ltac split_cmp :=
  cbn [andb orb negb];
  lazymatch goal with
  | |- context [?u <? ?v] =>
      destruct (Z.ltb_spec u v); try (exfalso; lia); split_cmp
  | |- context [?u =? ?v] =>
      destruct (Z.eqb_spec u v); try (exfalso; lia); split_cmp
  | |- _ => reflexivity
  end.

Lemma in_interval_rotate_small (x a b d : Z) (s t : bool) :
  0 <= x < MAX_ID -> 0 <= a < MAX_ID -> 0 <= b < MAX_ID -> 0 <= d < MAX_ID ->
  in_interval (mod_add x d) (mod_add a d) (mod_add b d) s t
  = in_interval x a b s t.
Proof.
  intros Hx Ha Hb Hd.
  destruct (mod_add_cases x d Hx Hd) as [[Ex Hxd]|[Ex Hxd]];
  destruct (mod_add_cases a d Ha Hd) as [[Ea Had]|[Ea Had]];
  destruct (mod_add_cases b d Hb Hd) as [[Eb Hbd]|[Eb Hbd]];
  assert (0 <= mod_add x d < MAX_ID) as Hx' by lia;
  assert (0 <= mod_add a d < MAX_ID) as Ha' by lia;
  assert (0 <= mod_add b d < MAX_ID) as Hb' by lia;
  revert Hx' Ha' Hb'; rewrite Ex, Ea, Eb; intros Hx' Ha' Hb';
  unfold in_interval;
  rewrite ?(Z.mod_small _ MAX_ID) by assumption;
  destruct s, t; split_cmp.
Qed.

(** Membership in an arc depends only on relative positions: moving the
    identifier and both endpoints by the same offset with [mod_add] does
    not change the answer of [in_interval]. *)
Theorem in_interval_rotate (x a b d : Z) (s t : bool) :
  in_interval (mod_add x d) (mod_add a d) (mod_add b d) s t
  = in_interval x a b s t.
Proof.
  pose proof MAX_ID_pos as Hpos.
  rewrite (mod_add_mod x d), (mod_add_mod a d), (mod_add_mod b d).
  rewrite (in_interval_mod x a b).
  apply in_interval_rotate_small; apply Z.mod_pos_bound; lia.
Qed.

(** [mod_sub] undoes [mod_add] and [mod_add] undoes [mod_sub]; both return
    identifiers of the ring. *)
Theorem mod_add_sub_round_trip (a b : Z) :
  mod_sub (mod_add a b) b = a mod MAX_ID /\
  mod_add (mod_sub a b) b = a mod MAX_ID /\
  0 <= mod_add a b < MAX_ID /\ 0 <= mod_sub a b < MAX_ID.
Proof.
  pose proof MAX_ID_pos as Hpos. unfold mod_add, mod_sub.
  split; [|split; [|split]].
  - rewrite Zminus_mod_idemp_l. f_equal. ring.
  - rewrite Zplus_mod_idemp_l. f_equal. ring.
  - apply Z.mod_pos_bound. lia.
  - apply Z.mod_pos_bound. lia.
Qed.

(** ** [bisect_left] and ring ownership *)

Lemma bisect_left_split (l : list Z) (x : Z) :
  exists l1 l2,
    l = l1 ++ l2 /\ length l1 = bisect_left l x /\
    Forall (fun y => y < x) l1 /\
    match l2 with [] => True | y :: _ => x <= y end.
Proof.
  induction l as [|y l (l1 & l2 & Hl & Hlen & Hall & Hhd)]; simpl.
  - exists [], []. repeat split; constructor.
  - destruct (Z.ltb_spec y x) as [Hlt|Hge].
    + exists (y :: l1), l2. rewrite Hl at 1. simpl. rewrite Hlen.
      repeat split; [constructor; assumption|exact Hhd].
    + exists [], (y :: l). repeat split; [constructor|exact Hge].
Qed.

Lemma ring_owner_char (ring : list Z) (key : Z) :
  StronglySorted Z.lt ring -> ring <> [] ->
  exists o,
    ring_owner ring key = Ok o /\ o ∈ ring /\
    ((key <= o /\ forall x, x ∈ ring -> x < key \/ o <= x) \/
     ((forall x, x ∈ ring -> x < key) /\ forall x, x ∈ ring -> o <= x)).
Proof.
  intros Hsorted Hne.
  destruct (bisect_left_split ring key) as (l1 & l2 & Hl & Hlen & Hall & Hhd).
  unfold ring_owner. rewrite <- Hlen.
  destruct l2 as [|y l2].
  - rewrite app_nil_r in Hl. subst l1. rewrite Nat.eqb_refl.
    destruct ring as [|o ring]; [contradiction|].
    exists o. split; [reflexivity|]. split; [apply elem_of_cons; auto|].
    right. split.
    + intros x Hx. exact (proj1 (Forall_forall _ _) Hall x Hx).
    + intros x Hx. apply elem_of_cons in Hx as [->|Hx]; [lia|].
      apply StronglySorted_inv in Hsorted as [_ Hlt].
      pose proof (proj1 (Forall_forall _ _) Hlt x Hx). lia.
  - assert (length ring = (length l1 + S (length l2))%nat) as Hlr
        by (rewrite Hl, length_app; reflexivity).
    destruct (Nat.eqb_spec (length l1) (length ring)) as [Heq|_]; [lia|].
    exists y. split.
    { apply list_getitem_nat. rewrite Hl.
      rewrite lookup_app_r by lia. rewrite Nat.sub_diag. reflexivity. }
    split; [rewrite Hl; apply elem_of_app; right; apply elem_of_cons; auto|].
    left. split; [exact Hhd|].
    intros x Hx. rewrite Hl in Hx. apply elem_of_app in Hx as [Hx|Hx].
    + left. exact (proj1 (Forall_forall _ _) Hall x Hx).
    + right. apply elem_of_cons in Hx as [->|Hx]; [lia|].
      rewrite Hl in Hsorted. apply StronglySorted_app_1_r in Hsorted.
      apply StronglySorted_inv in Hsorted as [_ Hlt].
      pose proof (proj1 (Forall_forall _ _) Hlt x Hx). lia.
Qed.

Lemma ring_owner_unique (ring : list Z) (key o : Z) :
  StronglySorted Z.lt ring -> o ∈ ring ->
  (key <= o /\ forall x, x ∈ ring -> x < key \/ o <= x) \/
  ((forall x, x ∈ ring -> x < key) /\ forall x, x ∈ ring -> o <= x) ->
  ring_owner ring key = Ok o.
Proof.
  intros Hsorted Ho Hchar.
  destruct (list_elem_of_split _ _ Ho) as (l1 & l2 & Hl).
  destruct (sorted_split_lt ring Hsorted l1 l2 o Hl) as [H1 H2].
  unfold ring_owner. destruct Hchar as [[Hko Hgap]|[Hall Hmin]].
  - assert (bisect_left ring key = length l1) as ->.
    { rewrite Hl, bisect_left_app.
      - simpl. destruct (Z.ltb_spec o key); lia.
      - apply Forall_forall. intros x Hx.
        pose proof (proj1 (Forall_forall _ _) H1 x Hx) as Hxo.
        cbv beta in Hxo.
        assert (x ∈ ring) as Hxr by (rewrite Hl; apply elem_of_app; auto).
        destruct (Hgap x Hxr) as [Hlt|Hge]; [exact Hlt|lia]. }
    assert (length ring = (length l1 + S (length l2))%nat) as Hlr
        by (rewrite Hl, length_app; reflexivity).
    destruct (Nat.eqb_spec (length l1) (length ring)) as [Heq|_]; [lia|].
    apply list_getitem_nat. rewrite Hl.
    rewrite lookup_app_r by lia. rewrite Nat.sub_diag. reflexivity.
  - rewrite bisect_left_all by (apply Forall_forall; exact Hall).
    rewrite Nat.eqb_refl.
    destruct l1 as [|y l1].
    + rewrite Hl. reflexivity.
    + exfalso. pose proof (proj1 (Forall_forall _ _) H1 y) as Hy.
      specialize (Hy ltac:(apply elem_of_cons; auto)). cbv beta in Hy.
      specialize (Hmin y). rewrite Hl in Hmin.
      specialize (Hmin ltac:(apply elem_of_cons; auto)). lia.
Qed.

(** On a strictly sorted ring, [ring_owner] returns [o] exactly when [o]
    is the first member that is not below the key, or the smallest member
    when every member is below the key. *)
Theorem ring_owner_first_not_below (ring : list Z) (key o : Z) :
  StronglySorted Z.lt ring ->
  ring_owner ring key = Ok o <->
  o ∈ ring /\
  ((key <= o /\ forall x, x ∈ ring -> x < key \/ o <= x) \/
   ((forall x, x ∈ ring -> x < key) /\ forall x, x ∈ ring -> o <= x)).
Proof.
  intros Hsorted. split.
  - intros Ho. destruct ring as [|y ring]; [discriminate|].
    destruct (ring_owner_char (y :: ring) key Hsorted) as (o' & Ho' & Hin & Hc);
      [discriminate|].
    assert (o' = o) as -> by congruence. auto.
  - intros [Hin Hc]. exact (ring_owner_unique ring key o Hsorted Hin Hc).
Qed.

Lemma ring_owner_first_not_below_witness :
  ring_owner [10; 20] 15 = Ok 20 <->
  20 ∈ [10; 20] /\
  ((15 <= 20 /\ forall x, x ∈ [10; 20] -> x < 15 \/ 20 <= x) \/
   ((forall x, x ∈ [10; 20] -> x < 15) /\ forall x, x ∈ [10; 20] -> 20 <= x)).
Proof.
  apply (ring_owner_first_not_below [10; 20] 15 20).
  repeat constructor; lia.
Defined.

Lemma StronglySorted_filter {A : Type} (R : A -> A -> Prop) (P : A -> Prop)
    `{!forall x, Decision (P x)} (l : list A) :
  StronglySorted R l -> StronglySorted R (filter P l).
Proof.
  intros Hsorted. induction Hsorted as [|x l Hs IH Hall]; [constructor|].
  rewrite filter_cons. destruct (decide (P x)); [|exact IH].
  constructor; [exact IH|].
  apply Forall_forall. intros y Hy. apply list_elem_of_filter in Hy as [_ Hy].
  exact (proj1 (Forall_forall _ _) Hall y Hy).
Qed.

(** Removing members other than the owner does not move a key: on a
    strictly sorted ring, a key whose owner is not among the failed nodes
    has the same owner in the ring filtered as [run_mass_failure]
    does. *)
Theorem owner_survives_failures (ring failed : list Z) (key o : Z) :
  StronglySorted Z.lt ring ->
  ring_owner ring key = Ok o ->
  o ∉ failed ->
  ring_owner (filter (fun nid => nid ∉ failed) ring) key = Ok o.
Proof.
  intros Hsorted Ho Hlive.
  destruct ring as [|y ring]; [discriminate|].
  destruct (ring_owner_char (y :: ring) key Hsorted) as (o' & Ho' & Hin & Hc);
    [discriminate|].
  assert (o' = o) as -> by congruence.
  apply ring_owner_unique.
  - apply StronglySorted_filter, Hsorted.
  - apply list_elem_of_filter. auto.
  - destruct Hc as [[Hko Hgap]|[Hall Hmin]]; [left|right].
    + split; [exact Hko|]. intros x Hx.
      apply list_elem_of_filter in Hx as [_ Hx]. auto.
    + split; intros x Hx; apply list_elem_of_filter in Hx as [_ Hx]; auto.
Qed.

Lemma owner_survives_failures_witness :
  ring_owner (filter (fun nid => nid ∉ [10; 30]) [10; 20; 30]) 15 = Ok 20.
Proof.
  apply (owner_survives_failures [10; 20; 30] [10; 30] 15 20).
  - repeat constructor; lia.
  - reflexivity.
  - apply (bool_decide_unpack _). vm_compute. reflexivity.
Defined.

(** ** [experiments/exp_3_mass_failure.py] *)

Lemma owner_before_crash_fold (ring : list Z) (keys : list Z) (acc : dict Z) :
  ring <> [] ->
  exists owners,
    fold_left (record_owner ring) keys (Ok acc) = Ok owners /\
    forall k o,
      dict_get k owners = Some o <->
      (k ∈ keys /\ ring_owner ring k = Ok o) \/
      ((k ∉ keys) /\ dict_get k acc = Some o).
Proof.
  intros Hne. revert acc.
  induction keys as [|k0 keys IH]; intros acc; cbn [fold_left].
  - exists acc. split; [reflexivity|]. intros k o. split.
    + intros H. right. split; [apply not_elem_of_nil|exact H].
    + intros [[H _]|[_ H]]; [apply elem_of_nil in H; contradiction|exact H].
  - destruct (ring_owner_elem ring k0 Hne) as (o0 & Ho0 & _).
    unfold record_owner at 2. cbn [rbind]. rewrite Ho0. cbn [rbind].
    destruct (IH (dict_set k0 o0 acc)) as (owners & Hfold & Hspec).
    exists owners. split; [exact Hfold|].
    intros k o. rewrite Hspec. split.
    + intros [[Hin Ho]|[Hnin Hget]].
      * left. split; [apply elem_of_cons; auto|exact Ho].
      * destruct (decide (k = k0)) as [->|Hkk].
        -- rewrite dict_get_set_eq in Hget. injection Hget as <-.
           left. split; [apply elem_of_cons; auto|exact Ho0].
        -- rewrite dict_get_set_ne in Hget by congruence.
           right. split; [|exact Hget].
           intros Hin. apply elem_of_cons in Hin as [?|?]; contradiction.
    + intros [[Hin Ho]|[Hnin Hget]].
      * destruct (decide (k ∈ keys)) as [Hk|Hk]; [left; auto|].
        apply elem_of_cons in Hin as [->|Hin]; [|contradiction].
        right. split; [exact Hk|]. rewrite dict_get_set_eq. congruence.
      * right. split.
        -- intros Hin. apply Hnin, elem_of_cons. auto.
        -- rewrite dict_get_set_ne; [exact Hget|].
           intros ->. apply Hnin, elem_of_cons. auto.
Qed.

(** [owner_before_crash] on a strictly increasing ring (its docstring
    requires a sorted one): on a non-empty ring it returns a dictionary
    that holds exactly the given keys, each with the owner [ring_owner]
    computes for it, which is the first ring member not below the key, or
    the smallest member when every member is below it; on an empty ring
    with at least one key it raises [IndexError]. *)
Theorem owner_before_crash_spec (keys ring : list Z) :
  StronglySorted Z.lt ring ->
  (ring <> [] ->
   exists owners,
     owner_before_crash keys ring = Ok owners /\
     (forall k o,
        dict_get k owners = Some o <->
        k ∈ keys /\ ring_owner ring k = Ok o) /\
     (forall k o,
        dict_get k owners = Some o ->
        o ∈ ring /\
        ((k <= o /\ forall x, x ∈ ring -> x < k \/ o <= x) \/
         ((forall x, x ∈ ring -> x < k) /\
          forall x, x ∈ ring -> o <= x)))) /\
  (keys <> [] -> owner_before_crash keys [] = Raise IndexError).
Proof.
  intros Hsorted. split.
  - intros Hne. unfold owner_before_crash.
    destruct (owner_before_crash_fold ring keys [] Hne) as (owners & Hf & Hs).
    exists owners. split; [exact Hf|].
    assert (forall k o,
              dict_get k owners = Some o <->
              k ∈ keys /\ ring_owner ring k = Ok o) as Hspec.
    { intros k o. rewrite Hs. split.
      - intros [H|[_ H]]; [exact H|discriminate].
      - intros H. left. exact H. }
    split; [exact Hspec|]. intros k o Hget.
    apply Hspec in Hget as [_ Ho].
    destruct (ring_owner_char ring k Hsorted Hne) as (o' & Ho' & Hin & Hc).
    assert (o' = o) as -> by congruence. auto.
  - intros Hne. destruct keys as [|k keys]; [contradiction|].
    unfold owner_before_crash. clear Hne. cbn [fold_left].
    change (record_owner [] (Ok []) k) with (@Raise (dict Z) IndexError).
    induction keys as [|k' keys IH]; [reflexivity|exact IH].
Qed.

Lemma owner_before_crash_spec_witness :
  ([10; 20] <> [] ->
   exists owners,
     owner_before_crash [15; 25] [10; 20] = Ok owners /\
     (forall k o,
        dict_get k owners = Some o <->
        k ∈ [15; 25] /\ ring_owner [10; 20] k = Ok o) /\
     (forall k o,
        dict_get k owners = Some o ->
        o ∈ [10; 20] /\
        ((k <= o /\ forall x, x ∈ [10; 20] -> x < k \/ o <= x) \/
         ((forall x, x ∈ [10; 20] -> x < k) /\
          forall x, x ∈ [10; 20] -> o <= x)))) /\
  ([15; 25] <> [] -> owner_before_crash [15; 25] [] = Raise IndexError).
Proof.
  apply (owner_before_crash_spec [15; 25] [10; 20]).
  repeat constructor; lia.
Defined.

(** ** [sim/node.py]: the finger scan *)

Lemma scan_fingers_first (x key : Z) (fs : list (option Z)) :
  (scan_fingers x key fs = x /\
   forall f, Some f ∈ fs -> in_interval f x key false false = false) \/
  (exists i,
     fs !! i = Some (Some (scan_fingers x key fs)) /\
     in_interval (scan_fingers x key fs) x key false false = true /\
     forall j f, (j < i)%nat -> fs !! j = Some (Some f) ->
                 in_interval f x key false false = false).
Proof.
  induction fs as [|[g|] fs IH]; simpl.
  - left. split; [reflexivity|]. intros f Hf. apply elem_of_nil in Hf.
    contradiction.
  - destruct (in_interval g x key false false) eqn:Hg.
    + right. exists 0%nat. split; [reflexivity|]. split; [exact Hg|].
      intros j f Hj. lia.
    + destruct IH as [[IH1 IH2]|(i & IH1 & IH2 & IH3)].
      * left. split; [exact IH1|]. intros f Hf.
        apply elem_of_cons in Hf as [Hf|Hf]; [congruence|auto].
      * right. exists (S i). split; [exact IH1|]. split; [exact IH2|].
        intros [|j] f Hj Hf; simpl in Hf; [congruence|].
        apply (IH3 j f); [lia|exact Hf].
  - destruct IH as [[IH1 IH2]|(i & IH1 & IH2 & IH3)].
    + left. split; [exact IH1|]. intros f Hf.
      apply elem_of_cons in Hf as [Hf|Hf]; [discriminate|auto].
    + right. exists (S i). split; [exact IH1|]. split; [exact IH2|].
      intros [|j] f Hj Hf; simpl in Hf; [discriminate|].
      apply (IH3 j f); [lia|exact Hf].
Qed.

(** [closest_preceding_finger_local] raises [IndexError] on a finger table
    with fewer than [M] slots.  Otherwise it returns, among the first [M]
    slots, the entry of the highest slot that lies strictly between the
    node and the key, and the node's own id when no slot holds such an
    entry. *)
Theorem closest_preceding_finger_highest (self : Node) (key : Z) :
  ((length (finger self) < Z.to_nat M)%nat ->
   closest_preceding_finger_local self key = Raise IndexError) /\
  ((Z.to_nat M <= length (finger self))%nat ->
   exists r,
     closest_preceding_finger_local self key = Ok r /\
     ((r = node_id self /\
       forall i f, (i < Z.to_nat M)%nat -> finger self !! i = Some (Some f) ->
                   in_interval f (node_id self) key false false = false) \/
      (exists i,
         (i < Z.to_nat M)%nat /\ finger self !! i = Some (Some r) /\
         in_interval r (node_id self) key false false = true /\
         forall j f, (i < j < Z.to_nat M)%nat ->
                     finger self !! j = Some (Some f) ->
                     in_interval f (node_id self) key false false = false))).
Proof.
  unfold closest_preceding_finger_local. split; intros Hlen.
  - destruct (Nat.ltb_spec (length (finger self)) (Z.to_nat M)); [reflexivity|lia].
  - destruct (Nat.ltb_spec (length (finger self)) (Z.to_nat M)) as [Hlt|_]; [lia|].
    set (m := Z.to_nat M) in *. set (fs := take m (finger self)).
    assert (length fs = m) as Hfs by (unfold fs; rewrite length_take; lia).
    assert (forall i, (i < m)%nat ->
                      reverse fs !! (m - S i)%nat = finger self !! i) as Hrev.
    { intros i Hi. rewrite reverse_lookup by lia. rewrite Hfs.
      replace (m - S (m - S i))%nat with i by lia.
      unfold fs. apply lookup_take_lt. exact Hi. }
    eexists. split; [reflexivity|].
    destruct (scan_fingers_first (node_id self) key (reverse fs))
      as [[H1 H2]|(i & H1 & H2 & H3)].
    + left. split; [exact H1|]. intros i f Hi Hf. apply H2.
      rewrite <- (Hrev i Hi) in Hf. exact (list_elem_of_lookup_2 _ _ _ Hf).
    + right. pose proof (lookup_lt_Some _ _ _ H1) as Hi.
      rewrite length_reverse, Hfs in Hi.
      exists (m - S i)%nat. split; [lia|]. split.
      * rewrite <- Hrev by lia. replace (m - S (m - S i))%nat with i by lia.
        exact H1.
      * split; [exact H2|]. intros j f Hj Hf.
        apply (H3 (m - S j)%nat f); [lia|]. rewrite Hrev by lia. exact Hf.
Qed.

(** ** [sim/node.py]: recursive search and joins on a warmed ring *)

Section IdealRingSearch.

Variables (d : dict Node) (ring : list Z) (k owner : Z).
Hypothesis Hk : 0 <= k < MAX_ID.
Hypothesis Hrange : forall x, x ∈ ring -> 0 <= x < MAX_ID.
Hypothesis Hmember : forall x, x ∈ ring -> ring_owner ring x = Ok x.
Hypothesis Howner : ring_owner ring k = Ok owner.
Hypothesis Hnode :
  forall x, x ∈ ring ->
    exists n s,
      dict_get x d = Some n /\ node_id n = x /\ active n = true /\
      length (finger n) = Z.to_nat M /\ successor n = Some s /\ s ∈ ring /\
      finger n !! 0%nat = Some (Some s) /\
      (forall f, Some f ∈ finger n -> f ∈ ring) /\
      (forall key, 0 <= key < MAX_ID -> key <> x ->
                   in_interval key x s false true = true ->
                   ring_owner ring key = Ok s).

(** A recursion depth above the number of ring members between the
    current node and the key is enough for [find_successor_local] to
    return the owner's node. *)
Lemma find_successor_local_live (fuel : nat) (cur : Z) (n : Node) :
  cur ∈ ring -> dict_get cur d = Some n ->
  (arc_count ring k cur < fuel)%nat ->
  exists no,
    find_successor_local fuel d n k = Ok no /\
    dict_get owner d = Some no /\ node_id no = owner.
Proof.
  revert cur n. induction fuel as [|fuel IH]; intros cur n Hcur Hn Hfuel; [lia|].
  destruct (Hnode cur Hcur)
    as (n0 & s & Hget & Hid & Hact & Hlen & Hsucc & Hs & Hf0 & Hfing & Hnext).
  assert (n0 = n) as -> by congruence.
  pose proof (Hrange cur Hcur) as Hcr. pose proof (Hrange s Hs) as Hsr.
  cbn [find_successor_local]. rewrite Hid, Hsucc. cbn [opt_int rbind].
  destruct (Z.eqb_spec k cur) as [->|Hne].
  - rewrite (Hmember cur Hcur) in Howner. injection Howner as <-.
    exists n. auto.
  - destruct (in_interval k cur s false true) eqn:Hin.
    + rewrite (Hnext k Hk Hne Hin) in Howner. injection Howner as <-.
      destruct (Hnode s Hs) as (ns & _ & Hgs & Hids & _).
      exists ns. unfold dict_getitem. rewrite Hgs. auto.
    + rewrite (closest_preceding_finger_full n k Hlen). cbn [rbind].
      rewrite Hid.
      pose proof (arc_successor_precedes cur s k Hcr Hsr Hk Hne Hin) as Hsarc.
      assert (Some s ∈ reverse (finger n)) as Hsin.
      { apply elem_of_reverse. exact (list_elem_of_lookup_2 _ _ _ Hf0). }
      destruct (scan_fingers_found cur k s _ Hsin Hsarc) as [Hfin Hfarc].
      set (f := scan_fingers cur k (reverse (finger n))) in *.
      assert (f ∈ ring) as Hfr by (apply Hfing, elem_of_reverse, Hfin).
      pose proof (Hrange f Hfr) as Hfrange.
      destruct (Hnode f Hfr) as (nf & _ & Hgf & _).
      unfold dict_getitem. rewrite Hgf. cbn [rbind].
      apply (IH f nf Hfr Hgf).
      assert (arc_count ring k f < arc_count ring k cur)%nat; [|lia].
      unfold arc_count. apply (filter_length_lt _ _ ring f); try assumption.
      * intros x Hxr Hx.
        exact (arc_shrinks cur f x k Hcr Hfrange (Hrange x Hxr) Hk Hfarc Hx).
      * rewrite (arc_irreflexive f k Hfrange Hk). discriminate.
Qed.

End IdealRingSearch.

Lemma arc_count_lt_length (ring : list Z) (k cur : Z) :
  cur ∈ ring -> 0 <= cur < MAX_ID -> 0 <= k < MAX_ID ->
  (arc_count ring k cur < length ring)%nat.
Proof.
  intros Hcur Hc Hk. unfold arc_count.
  apply (filter_length_lt_all _ ring cur Hcur).
  rewrite (arc_irreflexive cur k Hc Hk). discriminate.
Qed.

(** After [warm_up], [find_successor_local] from any active node returns
    the node of the binary-search owner of the key, as long as the ring
    has no more active nodes than the interpreter allows nested calls. *)
Theorem find_successor_local_after_warm_up (e : Env) (start k : Z) :
  registry_ok (nodes e) ->
  start ∈ active_ids (nodes e) ->
  0 <= k < MAX_ID ->
  (count_active (nodes e) <= RECURSION_LIMIT)%nat ->
  exists e' n owner no,
    warm_up e = Ok e' /\
    dict_get start (nodes e') = Some n /\
    ring_owner (sorted (active_ids (nodes e'))) k = Ok owner /\
    find_successor_local RECURSION_LIMIT (nodes e') n k = Ok no /\
    dict_get owner (nodes e') = Some no /\ node_id no = owner.
Proof.
  intros Hok Hstart Hk Hcount.
  destruct (warm_up_returns e Hok) as [e' Hwarm].
  { intros Hnil. rewrite Hnil in Hstart. apply elem_of_nil in Hstart.
    contradiction. }
  destruct (warm_up_ring e e' Hok Hwarm)
    as (Hact & _ & Hsorted & Hrange & Hnode).
  set (ring := sorted (active_ids (nodes e'))) in *.
  assert (start ∈ ring) as Hsr.
  { apply elem_of_sorted. rewrite Hact. exact Hstart. }
  assert (ring <> []) as Hne by (intros Hnil; rewrite Hnil in Hsr;
                                  apply elem_of_nil in Hsr; contradiction).
  destruct (ring_owner_elem ring k Hne) as (owner & Howner & _).
  destruct (Hnode start Hsr) as (n & s & Hn & Hid & _).
  pose proof (ring_owner_member ring Hsorted) as Hmember.
  destruct (find_successor_local_live (nodes e') ring k owner Hk Hrange Hmember
              Howner Hnode RECURSION_LIMIT start n Hsr Hn)
    as (no & Hfind & Hno & Hido).
  { pose proof (arc_count_lt_length ring k start Hsr (Hrange start Hsr) Hk).
    assert (length ring = count_active (nodes e)) as Hlen.
    { unfold count_active. rewrite <- Hact.
      exact (Permutation_length (sorted_Permutation _)). }
    lia. }
  exists e', n, owner, no. auto 10.
Qed.

Lemma find_successor_local_after_warm_up_witness :
  exists e' n owner no,
    warm_up env_two = Ok e' /\
    dict_get 20 (nodes e') = Some n /\
    ring_owner (sorted (active_ids (nodes e'))) 5 = Ok owner /\
    find_successor_local RECURSION_LIMIT (nodes e') n 5 = Ok no /\
    dict_get owner (nodes e') = Some no /\ node_id no = owner.
Proof.
  apply (find_successor_local_after_warm_up env_two 20 5).
  - split.
    + apply (bool_decide_unpack _). vm_compute. reflexivity.
    + apply (bool_decide_unpack _). vm_compute. reflexivity.
  - apply (bool_decide_unpack _). vm_compute. reflexivity.
  - vm_compute. split; [discriminate|reflexivity].
  - vm_compute. lia.
Defined.

(** A node that joins a warmed ring through an active bootstrap, under an
    identifier no registered node holds, gets the binary-search owner of
    its identifier as successor, in finger slot 0 and as the only entry of
    its successor list; its predecessor is unset, a [notify] for the
    successor is queued, and no other node is touched. *)
Theorem join_warmed_ring (e e' : Env) (b : Z) (phys : option Z)
    (stats : bool) :
  registry_ok (nodes e) ->
  warm_up e = Ok e' ->
  b ∈ active_ids (nodes e) ->
  (getrandbits e' M).1 ∉ dict_keys (nodes e') ->
  (count_active (nodes e) <= RECURSION_LIMIT)%nat ->
  exists e2 n owner,
    Node_init e' (Some b) phys stats = Ok ((getrandbits e' M).1, e2) /\
    ring_owner (sorted (active_ids (nodes e'))) (getrandbits e' M).1
    = Ok owner /\
    dict_get (getrandbits e' M).1 (nodes e2) = Some n /\
    successor n = Some owner /\
    finger n
    = Some owner :: replicate (Z.to_nat (M - 1)) (Some (getrandbits e' M).1) /\
    successor_list n = [Some owner] /\
    predecessor n = None /\ active n = true /\
    (Qred (now e' + 0), SendMessage (getrandbits e' M).1 (Some owner) "notify" [])
      ∈ queue e2 /\
    forall x, x <> (getrandbits e' M).1 ->
              dict_get x (nodes e2) = dict_get x (nodes e').
Proof.
  intros Hok Hwarm Hb Hfresh Hcount.
  destruct (warm_up_ring e e' Hok Hwarm)
    as (Hact & _ & Hsorted & Hrange & Hnode).
  pose proof (getrandbits_range e') as Hk.
  set (ring := sorted (active_ids (nodes e'))) in *.
  assert (b ∈ ring) as Hbr.
  { apply elem_of_sorted. rewrite Hact. exact Hb. }
  assert (ring <> []) as Hne by (intros Hnil; rewrite Hnil in Hbr;
                                  apply elem_of_nil in Hbr; contradiction).
  destruct (ring_owner_elem ring (getrandbits e' M).1 Hne)
    as (owner & Howner & _).
  pose proof (ring_owner_member ring Hsorted) as Hmember.
  unfold Node_init. revert Hk Hfresh Howner. simpl.
  set (nid := rng e' (rng_pos e') mod 2 ^ M). intros Hk Hfresh Howner.
  set (self := mkNode nid (Some b) (default nid phys) stats _ None None [] 0
                 true 0 0 []).
  set (e0 := _schedule_stabilize _ self).
  assert (nodes e0 = dict_set nid self (nodes e')) as Hnodes0.
  { unfold e0, _schedule_stabilize, register_node, schedule_event.
    destruct (stabilize_override _); reflexivity. }
  assert (now e0 = now e') as Hnow0.
  { unfold e0, _schedule_stabilize, register_node, schedule_event.
    destruct (stabilize_override _); reflexivity. }
  assert (forall x, x ∈ ring -> x <> nid) as Hxne.
  { intros x Hx ->. apply Hfresh.
    apply (proj1 (elem_of_sorted _ _)), active_ids_subset_keys in Hx.
    exact Hx. }
  assert (forall x, x ∈ ring ->
            exists n s,
              dict_get x (nodes e0) = Some n /\ node_id n = x /\
              active n = true /\
              length (finger n) = Z.to_nat M /\ successor n = Some s /\
              s ∈ ring /\ finger n !! 0%nat = Some (Some s) /\
              (forall f, Some f ∈ finger n -> f ∈ ring) /\
              (forall key, 0 <= key < MAX_ID -> key <> x ->
                           in_interval key x s false true = true ->
                           ring_owner ring key = Ok s)) as Hnode0.
  { intros x Hx. destruct (Hnode x Hx) as (n & s & Hget & Hrest).
    exists n, s. split; [|exact Hrest].
    rewrite Hnodes0, dict_get_set_ne; [exact Hget|].
    intros Heq. exact (Hxne x Hx (eq_sym Heq)). }
  destruct (Hnode0 b Hbr) as (bn & sb & Hgb & _).
  destruct (find_successor_local_live (nodes e0) ring nid owner Hk Hrange
              Hmember Howner Hnode0 RECURSION_LIMIT b bn Hbr Hgb)
    as (no & Hfind & Hno & Hido).
  { pose proof (arc_count_lt_length ring nid b Hbr (Hrange b Hbr) Hk).
    assert (length ring = count_active (nodes e)) as Hlen.
    { unfold count_active. rewrite <- Hact.
      exact (Permutation_length (sorted_Permutation _)). }
    lia. }
  unfold _join. unfold dict_getitem at 1. rewrite Hgb. cbn [rbind].
  change (node_id self) with nid. rewrite Hfind. cbn [rbind]. rewrite Hido.
  eexists. eexists. exists owner.
  split; [reflexivity|]. split; [exact Howner|].
  cbn [fst snd]. unfold store, send_message, schedule_event.
  cbn [nodes set_nodes set_queue queue node_id set_predecessor
       set_successor_list set_finger set_successor successor].
  rewrite dict_get_set_eq.
  split; [reflexivity|]. split; [reflexivity|]. split; [reflexivity|].
  split; [reflexivity|]. split; [reflexivity|]. split; [reflexivity|].
  split.
  - cbn [now]. rewrite Hnow0. apply enqueue_elem.
  - intros x Hx. change (node_id self) with nid.
    rewrite dict_get_set_ne by congruence.
    rewrite Hnodes0. apply dict_get_set_ne. congruence.
Qed.

Lemma join_warmed_ring_witness :
  exists e2 n owner,
    Node_init env_two_warm (Some 10) None false
    = Ok ((getrandbits env_two_warm M).1, e2) /\
    ring_owner (sorted (active_ids (nodes env_two_warm)))
      (getrandbits env_two_warm M).1 = Ok owner /\
    dict_get (getrandbits env_two_warm M).1 (nodes e2) = Some n /\
    successor n = Some owner /\
    finger n
    = Some owner
        :: replicate (Z.to_nat (M - 1)) (Some (getrandbits env_two_warm M).1) /\
    successor_list n = [Some owner] /\
    predecessor n = None /\ active n = true /\
    (Qred (now env_two_warm + 0),
     SendMessage (getrandbits env_two_warm M).1 (Some owner) "notify" [])
      ∈ queue e2 /\
    forall x, x <> (getrandbits env_two_warm M).1 ->
              dict_get x (nodes e2) = dict_get x (nodes env_two_warm).
Proof.
  apply (join_warmed_ring env_two env_two_warm 10 None false).
  - split.
    + apply (bool_decide_unpack _). vm_compute. reflexivity.
    + apply (bool_decide_unpack _). vm_compute. reflexivity.
  - vm_compute. reflexivity.
  - apply (bool_decide_unpack _). vm_compute. reflexivity.
  - apply (bool_decide_unpack _). vm_compute. reflexivity.
  - vm_compute. lia.
Defined.

(** ** [sim/node.py]: predecessor maintenance *)

Lemma in_interval_start_excluded (a b : Z) (t : bool) :
  in_interval a a b false t = false.
Proof.
  unfold in_interval. rewrite Z.eqb_refl. simpl.
  destruct (_ <? _); reflexivity.
Qed.

Lemma store_registered (e : Env) (self : Node) :
  dict_get (node_id self) (nodes e) = Some self -> store e self = e.
Proof.
  intros Hget. unfold store. rewrite (dict_set_same _ _ _ Hget).
  destruct e. reflexivity.
Qed.

(** [rpc_notify] never leaves the predecessor unset: an unset predecessor
    becomes the sender, a set one is kept or replaced by the sender; and a
    second notification from the same sender changes nothing. *)
Theorem rpc_notify_idempotent (e : Env) (self : Node) (src : Z) :
  dict_get (node_id self) (nodes e) = Some self ->
  exists e1 self1,
    rpc_notify e self src = Ok e1 /\
    dict_get (node_id self) (nodes e1) = Some self1 /\
    (predecessor self = None -> predecessor self1 = Some src) /\
    (predecessor self1 = Some src \/
     predecessor self1 = predecessor self /\ predecessor self <> None) /\
    rpc_notify e1 self1 src = Ok e1.
Proof.
  intros Hget. unfold rpc_notify at 1.
  destruct (predecessor self) as [p|] eqn:Hp.
  - destruct (in_interval src p (node_id self) false false) eqn:Hin.
    + exists (store e (set_predecessor self (Some src))),
        (set_predecessor self (Some src)).
      split; [reflexivity|]. split; [apply dict_get_set_eq|].
      split; [discriminate|]. split; [left; reflexivity|].
      unfold rpc_notify. cbn [predecessor set_predecessor node_id].
      rewrite in_interval_start_excluded. reflexivity.
    + exists e, self. split; [reflexivity|]. split; [exact Hget|].
      split; [discriminate|]. split; [right; split; congruence|].
      unfold rpc_notify. rewrite Hp, Hin. reflexivity.
  - exists (store e (set_predecessor self (Some src))),
      (set_predecessor self (Some src)).
    split; [reflexivity|]. split; [apply dict_get_set_eq|].
    split; [reflexivity|]. split; [left; reflexivity|].
    unfold rpc_notify. cbn [predecessor set_predecessor node_id].
    rewrite in_interval_start_excluded. reflexivity.
Qed.

Lemma rpc_notify_idempotent_witness :
  exists e1 self1,
    rpc_notify env_two (plain_node 10 (Some 20)) 20 = Ok e1 /\
    dict_get (node_id (plain_node 10 (Some 20))) (nodes e1) = Some self1 /\
    (predecessor (plain_node 10 (Some 20)) = None ->
     predecessor self1 = Some 20) /\
    (predecessor self1 = Some 20 \/
     predecessor self1 = predecessor (plain_node 10 (Some 20)) /\
     predecessor (plain_node 10 (Some 20)) <> None) /\
    rpc_notify e1 self1 20 = Ok e1.
Proof.
  apply (rpc_notify_idempotent env_two (plain_node 10 (Some 20)) 20).
  reflexivity.
Defined.

(** [check_predecessor] keeps a predecessor that is registered and
    active, clears one that is not, and touches nothing else: afterwards
    the predecessor is unset or names a live node. *)
Theorem check_predecessor_keeps_live (e : Env) (self : Node) :
  dict_get (node_id self) (nodes e) = Some self ->
  exists e1 self1,
    check_predecessor e self = Ok e1 /\
    dict_get (node_id self) (nodes e1) = Some self1 /\
    (forall k, k <> node_id self ->
               dict_get k (nodes e1) = dict_get k (nodes e)) /\
    (forall p n, predecessor self = Some p -> dict_get p (nodes e) = Some n ->
                 active n = true -> e1 = e /\ self1 = self) /\
    (forall p, predecessor self1 = Some p ->
               predecessor self = Some p /\
               exists n, dict_get p (nodes e) = Some n /\ active n = true) /\
    self1 = set_predecessor self (predecessor self1).
Proof.
  intros Hget. unfold check_predecessor.
  destruct (predecessor self) as [p|] eqn:Hp.
  - destruct (dict_get p (nodes e)) as [n|] eqn:Hn.
    + destruct (active n) eqn:Hact.
      * exists e, self. split; [reflexivity|]. split; [exact Hget|].
        split; [reflexivity|]. split; [auto|]. split.
        -- intros p' Hp'. rewrite Hp in Hp'. injection Hp' as <-.
           split; [reflexivity|]. exists n. auto.
        -- rewrite Hp. destruct self. simpl in *. subst. reflexivity.
      * exists (store e (set_predecessor self None)), (set_predecessor self None).
        split; [reflexivity|]. split; [apply dict_get_set_eq|].
        split; [intros k Hk; apply dict_get_set_ne; cbn; congruence|].
        split; [intros p' n' Hp' Hn' Ha; congruence|].
        split; [discriminate|reflexivity].
    + exists (store e (set_predecessor self None)), (set_predecessor self None).
      split; [reflexivity|]. split; [apply dict_get_set_eq|].
      split; [intros k Hk; apply dict_get_set_ne; cbn; congruence|].
      split; [intros p' n' Hp' Hn' Ha; congruence|].
      split; [discriminate|reflexivity].
  - exists e, self. split; [reflexivity|]. split; [exact Hget|].
    split; [reflexivity|]. split; [discriminate|]. split.
    + intros p Hp'. congruence.
    + rewrite Hp. destruct self. simpl in *. subst. reflexivity.
Qed.

Lemma check_predecessor_keeps_live_witness :
  exists e1 self1,
    check_predecessor env_two (plain_node 10 (Some 20)) = Ok e1 /\
    dict_get (node_id (plain_node 10 (Some 20))) (nodes e1) = Some self1 /\
    (forall k, k <> node_id (plain_node 10 (Some 20)) ->
               dict_get k (nodes e1) = dict_get k (nodes env_two)) /\
    (forall p n, predecessor (plain_node 10 (Some 20)) = Some p ->
                 dict_get p (nodes env_two) = Some n ->
                 active n = true -> e1 = env_two /\ self1 = plain_node 10 (Some 20)) /\
    (forall p, predecessor self1 = Some p ->
               predecessor (plain_node 10 (Some 20)) = Some p /\
               exists n, dict_get p (nodes env_two) = Some n /\ active n = true) /\
    self1 = set_predecessor (plain_node 10 (Some 20)) (predecessor self1).
Proof.
  apply (check_predecessor_keeps_live env_two (plain_node 10 (Some 20))).
  reflexivity.
Defined.

(** Called with the registry of the environment on a registered node,
    [check_predecessor_sync] does what [check_predecessor] does. *)
Theorem check_predecessor_sync_agrees (e : Env) (self : Node) :
  dict_get (node_id self) (nodes e) = Some self ->
  check_predecessor_sync e self (nodes e) = check_predecessor e self.
Proof.
  intros Hget. unfold check_predecessor_sync, check_predecessor.
  destruct (predecessor self) as [p|] eqn:Hp.
  - destruct (dict_get p (nodes e)) as [n|]; [|reflexivity].
    destruct (active n); reflexivity.
  - f_equal. rewrite <- (store_registered e self Hget) at 2. f_equal.
    destruct self. simpl in *. subst. reflexivity.
Qed.

Lemma check_predecessor_sync_agrees_witness :
  check_predecessor_sync env_two (plain_node 10 (Some 20)) (nodes env_two)
  = check_predecessor env_two (plain_node 10 (Some 20)).
Proof.
  apply (check_predecessor_sync_agrees env_two (plain_node 10 (Some 20))).
  reflexivity.
Defined.

(** ** [sim/environment.py]: failures and timers *)

(** A [NodeFail] that names a node raises [KeyError] when no such node is
    registered.  Otherwise it marks the node inactive whatever the number
    of active nodes, so the last active node can be failed; on a node
    that is already inactive it changes no node. *)
Theorem node_fail_named (e : Env) (f : Z) :
  (dict_get f (nodes e) = None ->
   _dispatch_event e (NodeFail (Some f)) = Raise KeyError) /\
  (forall n, dict_get f (nodes e) = Some n ->
     exists e1,
       _dispatch_event e (NodeFail (Some f)) = Ok e1 /\
       dict_get f (nodes e1) = Some (set_active n false) /\
       (forall k, k <> f -> dict_get k (nodes e1) = dict_get k (nodes e)) /\
       latest_ring e1 = Some (sorted (active_ids (nodes e1))) /\
       (active n = true ->
        S (count_active (nodes e1)) = count_active (nodes e)) /\
       (active n = false -> nodes e1 = nodes e)).
Proof.
  split.
  - intros Hget. simpl. unfold mark_failed, dict_getitem. rewrite Hget.
    reflexivity.
  - intros n Hget. simpl. unfold mark_failed, dict_getitem. rewrite Hget.
    cbn [rbind]. eexists. split; [reflexivity|].
    cbn [nodes refresh_latest_ring set_latest_ring set_nodes latest_ring].
    split; [apply dict_get_set_eq|].
    split; [intros k Hk; apply dict_get_set_ne; congruence|].
    split; [reflexivity|]. split.
    + intros Hact. apply count_active_set_inactive; assumption.
    + intros Hact. apply dict_set_same. rewrite Hget. f_equal.
      destruct n. simpl in *. subst. reflexivity.
Qed.

(** A [TimeoutExpired] for a registered, active node raises
    [AttributeError], since [Node] defines no [handle_timeout]; for any
    other node it is dropped. *)
Theorem timeout_expired_unhandled (e : Env) (nid : Z) (timer : string) :
  (forall n, dict_get nid (nodes e) = Some n -> active n = true ->
             _dispatch_event e (TimeoutExpired nid timer)
             = Raise AttributeError) /\
  (forall n, dict_get nid (nodes e) = Some n -> active n = false ->
             _dispatch_event e (TimeoutExpired nid timer) = Ok e) /\
  (dict_get nid (nodes e) = None ->
   _dispatch_event e (TimeoutExpired nid timer) = Ok e).
Proof.
  split; [|split].
  - intros n Hget Hact. simpl. rewrite Hget, Hact. reflexivity.
  - intros n Hget Hact. simpl. rewrite Hget, Hact. reflexivity.
  - intros Hget. simpl. rewrite Hget. reflexivity.
Qed.

(** ** Messages in transit *)

(** A message handed to [send_message] while the agenda is empty is the
    next thing the simulation delivers: the destination's handler runs
    with the clock [BASE_LATENCY] after the send, and the run goes on from
    the state it leaves. *)
Theorem message_latency (e : Env) (src : Z) (dst : option Z) (rpc : string)
    (args : list pyval) (fuel : nat) :
  queue e = [] ->
  (Qred (Qred (now e + 0) + BASE_LATENCY) == now e + BASE_LATENCY)%Q /\
  run_loop (S (S fuel)) None (send_message e src dst rpc args)
  = match
      _dispatch_event
        (set_now e (Qred (Qred (now e + 0) + BASE_LATENCY)))
        (ReceiveMessage src dst rpc args)
    with
    | Ok e' => run_loop fuel None e'
    | Raise x => Some (Raise x)
    end.
Proof.
  intros Hq. split.
  - rewrite !Qred_correct. ring.
  - destruct e as [nw q nd lr rg rp ov]. simpl in Hq. subst q.
    reflexivity.
Qed.

Lemma message_latency_witness :
  (Qred (Qred (now env_two + 0) + BASE_LATENCY) == now env_two + BASE_LATENCY)%Q /\
  run_loop 2 None (send_message env_two 10 (Some 20) "notify" [])
  = match
      _dispatch_event
        (set_now env_two (Qred (Qred (now env_two + 0) + BASE_LATENCY)))
        (ReceiveMessage 10 (Some 20) "notify" [])
    with
    | Ok e' => run_loop 0 None e'
    | Raise x => Some (Raise x)
    end.
Proof.
  apply (message_latency env_two 10 (Some 20) "notify" [] 0). reflexivity.
Defined.

(** The two shapes of a [find_successor_response] travelling between
    [x] and [y]. *)
Lemma response_bounce (e : Env) (x y : Z) (ny : Node) (s r : pyval) :
  dict_get y (nodes e) = Some ny -> active ny = true -> node_id ny = y ->
  (forall l, r <> VList l) -> pending_get r (pending ny) = None ->
  _dispatch_event e (ReceiveMessage x (Some y) "find_successor_response" [s; r])
  = Ok (send_message e y (Some x) "find_successor_response" [s; r]).
Proof.
  intros Hget Hact Hid Hr Hpend. simpl. rewrite Hget, Hact.
  unfold receive_message. cbn [String.eqb Ascii.eqb Bool.eqb andb].
  unfold rpc_find_successor_response. rewrite Hpend, Hid.
  destruct r as [|z|l]; [reflexivity|reflexivity|].
  exfalso. exact (Hr l eq_refl).
Qed.

(** No handler ever records a pending request, so a
    [find_successor_response] that reaches an active node is sent back to
    its sender.  Between two active nodes neither of which expects the
    request, the response travels back and forth for ever: [run] without
    [until] never returns, whatever the number of deliveries allowed. *)
Theorem find_successor_response_bounces_forever (e : Env) (t : Q)
    (a b : Z) (na nb : Node) (s r : pyval) (fuel : nat) :
  queue e = [(t, ReceiveMessage a (Some b) "find_successor_response" [s; r])] ->
  dict_get a (nodes e) = Some na -> active na = true -> node_id na = a ->
  dict_get b (nodes e) = Some nb -> active nb = true -> node_id nb = b ->
  (forall l, r <> VList l) ->
  pending_get r (pending na) = None -> pending_get r (pending nb) = None ->
  run_loop fuel None e = None.
Proof.
  intros Hq Ha Haa Hia Hb Hba Hib Hr Hpa Hpb.
  assert (forall fuel e' t',
            nodes e' = nodes e ->
            (exists x y,
               (x = a /\ y = b \/ x = b /\ y = a) /\
               (queue e'
                = [(t', ReceiveMessage x (Some y) "find_successor_response" [s; r])] \/
                queue e'
                = [(t', SendMessage x (Some y) "find_successor_response" [s; r])])) ->
            run_loop fuel None e' = None) as Hinv.
  { clear fuel Hq. induction fuel as [|fuel IH]; intros e' t' Hn (x & y & Hxy & Hq').
    - destruct Hq' as [Hq'|Hq']; simpl; rewrite Hq'; reflexivity.
    - destruct Hq' as [Hq'|Hq'].
      + cbn [run_loop]. rewrite Hq'. cbn [from_option].
        assert (exists ny, dict_get y (nodes e) = Some ny /\ active ny = true /\
                           node_id ny = y /\ pending_get r (pending ny) = None)
          as (ny & Hy1 & Hy2 & Hy3 & Hy4).
        { destruct Hxy as [[-> ->]|[-> ->]]; eauto 10. }
        rewrite (response_bounce _ x y ny s r); try assumption;
          [|cbn [nodes set_queue set_now]; rewrite Hn; exact Hy1].
        apply (IH _ (Qred (t' + 0))); [cbn; exact Hn|].
        exists y, x. split; [tauto|]. right. reflexivity.
      + cbn [run_loop]. rewrite Hq'. cbn [from_option _dispatch_event].
        apply (IH _ (Qred (t' + BASE_LATENCY))); [cbn; exact Hn|].
        exists x, y. split; [exact Hxy|]. left. reflexivity. }
  apply (Hinv fuel e t); [reflexivity|].
  exists a, b. split; [left; auto|]. left. exact Hq.
Qed.

Lemma find_successor_response_bounces_forever_witness :
  run_loop 100 None
    (set_queue env_two
       [(0%Q, ReceiveMessage 10 (Some 20) "find_successor_response"
                [VInt 20; VInt 1])])
  = None.
Proof.
  apply (find_successor_response_bounces_forever _ 0%Q 10 20
           (plain_node 10 (Some 20)) (plain_node 20 (Some 10))
           (VInt 20) (VInt 1) 100);
    try reflexivity.
  intros l. discriminate.
Defined.

(** ** [sim/node.py]: statistics of [lookup_iterative] *)

Lemma lookup_loop_stats (d : dict Node) (k : Z) (budget : nat) (nid : Z)
    (visited : list Z) :
  match lookup_loop d k false budget nid visited with
  | Ok (r, _) =>
      exists f, lookup_loop d k true budget nid visited = Ok (r, f) /\
                (r = None -> f = true)
  | Raise x => lookup_loop d k true budget nid visited = Raise x
  end.
Proof.
  revert nid visited. induction budget as [|budget IH]; intros nid visited;
    cbn [lookup_loop].
  - exists true. auto.
  - destruct (dict_get nid d) as [node|] eqn:Hget; [|exists true; auto].
    destruct (negb (active node) || bool_decide (nid ∈ visited)) eqn:Hdead;
      [exists true; auto|].
    destruct (k =? node_id node); [exists false; split; [reflexivity|discriminate]|].
    destruct (successor node) as [s|]; cbn [opt_int rbind]; [|reflexivity].
    destruct (in_interval k (node_id node) s false true).
    + assert (sorted (active_ids d) <> []) as Hne.
      { apply orb_false_elim in Hdead as [Hact _].
        apply negb_false_iff in Hact.
        assert (nid ∈ sorted (active_ids d)) as Hin.
        { apply elem_of_sorted, elem_of_active_ids. exists node.
          split; [apply dict_get_Some_elem_of, Hget|exact Hact]. }
        intros Hnil. rewrite Hnil in Hin. apply elem_of_nil in Hin.
        contradiction. }
      destruct (ring_owner_elem _ k Hne) as (o & -> & _). cbn [rbind].
      destruct (negb (s =? o)); eexists; (split; [reflexivity|discriminate]).
    + destruct (closest_preceding_finger_local node k) as [cp|x];
        cbn [rbind]; [apply IH|reflexivity].
Qed.

(** Counting statistics does not change what [lookup_iterative] returns.
    Called on a registered node, with [count_stats] the caller's [lookups]
    grows by one and its [lookup_fail] by at most one; a lookup that
    returns [None] always counts as failed; nothing else of the caller
    and no other node changes. *)
Theorem lookup_iterative_count_stats (e e' : Env) (self : Node) (k : Z)
    (r : option Z) :
  dict_get (node_id self) (nodes e) = Some self ->
  lookup_iterative e self k false = Ok (r, e') ->
  e' = e /\
  exists fails e2,
    lookup_iterative e self k true = Ok (r, e2) /\
    e2 = store e (set_counters self (lookups self + 1) fails) /\
    (fails = lookup_fail self \/ fails = lookup_fail self + 1) /\
    (r = None -> fails = lookup_fail self + 1) /\
    dict_get (node_id self) (nodes e2)
    = Some (set_counters self (lookups self + 1) fails) /\
    (forall x, x <> node_id self ->
               dict_get x (nodes e2) = dict_get x (nodes e)) /\
    dict_keys (nodes e2) = dict_keys (nodes e).
Proof.
  intros Hreg. unfold lookup_iterative. cbn [node_id set_counters].
  pose proof (lookup_loop_stats (nodes e) k (hop_budget (nodes e))
                (node_id self) []) as Hstats.
  destruct (lookup_loop (nodes e) k false (hop_budget (nodes e))
              (node_id self) []) as [[r0 f0]|x]; cbn [rbind]; [|discriminate].
  intros H. injection H as <- <-. split; [reflexivity|].
  destruct Hstats as (f & -> & Hf). cbn [rbind fst snd].
  assert (forall fails,
            dict_get (node_id self)
              (nodes (store e (set_counters self (lookups self + 1) fails)))
            = Some (set_counters self (lookups self + 1) fails) /\
            (forall x, x <> node_id self ->
               dict_get x
                 (nodes (store e (set_counters self (lookups self + 1) fails)))
               = dict_get x (nodes e)) /\
            dict_keys
              (nodes (store e (set_counters self (lookups self + 1) fails)))
            = dict_keys (nodes e)) as Hframe.
  { intros fails. unfold store. cbn [nodes set_nodes node_id set_counters].
    split; [apply dict_get_set_eq|]. split.
    - intros x Hx. apply dict_get_set_ne. congruence.
    - exact (dict_keys_set_present _ _ _ _ Hreg). }
  destruct f.
  - exists (lookup_fail self + 1). eexists. split; [reflexivity|].
    split; [reflexivity|]. split; [auto|]. split; [auto|]. apply Hframe.
  - exists (lookup_fail self). eexists. split; [reflexivity|].
    split; [reflexivity|]. split; [auto|]. split.
    + intros Hr. specialize (Hf Hr). discriminate.
    + apply Hframe.
Qed.

Lemma lookup_iterative_count_stats_witness :
  env_two_warm = env_two_warm /\
  exists fails e2,
    lookup_iterative env_two_warm node_10_warm 15 true = Ok (Some 20, e2) /\
    e2 = store env_two_warm
           (set_counters node_10_warm (lookups node_10_warm + 1) fails) /\
    (fails = lookup_fail node_10_warm \/
     fails = lookup_fail node_10_warm + 1) /\
    (Some 20 = None -> fails = lookup_fail node_10_warm + 1) /\
    dict_get (node_id node_10_warm) (nodes e2)
    = Some (set_counters node_10_warm (lookups node_10_warm + 1) fails) /\
    (forall x, x <> node_id node_10_warm ->
               dict_get x (nodes e2) = dict_get x (nodes env_two_warm)) /\
    dict_keys (nodes e2) = dict_keys (nodes env_two_warm).
Proof.
  apply (lookup_iterative_count_stats env_two_warm env_two_warm
           node_10_warm 15 (Some 20)).
  - vm_compute. reflexivity.
  - vm_compute. reflexivity.
Defined.

(** ** [experiments/exp_4_churn.py]: what [warm_up] writes *)

Lemma successor_list_fold (ring : list Z) (idx : nat) (js : list nat)
    (sl : list (option Z)) :
  fold_right
    (fun j acc =>
       let! x := list_getitem ring
                   ((Z.of_nat idx + Z.of_nat j) mod Z.of_nat (length ring)) in
       let! rest := acc in
       Ok (Some x :: rest))
    (Ok []) js = Ok sl ->
  length sl = length js /\
  forall i j, js !! i = Some j ->
    exists x,
      list_getitem ring
        ((Z.of_nat idx + Z.of_nat j) mod Z.of_nat (length ring)) = Ok x /\
      sl !! i = Some (Some x).
Proof.
  revert sl. induction js as [|j0 js IH]; intros sl; simpl.
  - intros H. injection H as <-. split; [reflexivity|]. intros i j Hi.
    discriminate.
  - intros H. apply rbind_Ok_inv in H as (x & Hx & H).
    apply rbind_Ok_inv in H as (rest & Hrest & H). injection H as <-.
    destruct (IH rest Hrest) as [Hlen Hall]. split; [simpl; lia|].
    intros [|i] j Hi; simpl in Hi.
    + injection Hi as <-. exists x. auto.
    + exact (Hall i j Hi).
Qed.

(** The predecessor and the successor list [warm_node] writes. *)
Lemma warm_node_pointers (ring : list Z) (m idx : nat) (nid : Z)
    (n n' : Node) :
  warm_node ring m idx nid n = Ok n' ->
  (exists p, list_getitem ring (Z.of_nat idx - 1) = Ok p /\
             predecessor n' = Some p) /\
  length (successor_list n') = Z.to_nat SUCCESSOR_LIST_SIZE /\
  (forall j, (j < Z.to_nat SUCCESSOR_LIST_SIZE)%nat ->
     exists x,
       list_getitem ring
         ((Z.of_nat idx + Z.of_nat (S j)) mod Z.of_nat (length ring)) = Ok x /\
       successor_list n' !! j = Some (Some x)).
Proof.
  unfold warm_node. intros H.
  apply rbind_Ok_inv in H as (s & Hs & H).
  apply rbind_Ok_inv in H as (p & Hp & H).
  apply rbind_Ok_inv in H as (sl & Hsl & H).
  apply rbind_Ok_inv in H as (f & Hf & H). injection H as <-.
  destruct n as [id bo ph cs fg su pr sls nf ac lo lf pe].
  cbn [predecessor successor_list set_finger set_successor_list
       set_predecessor set_successor].
  apply successor_list_fold in Hsl as [Hlen Hall].
  rewrite length_seq in Hlen.
  split; [exists p; auto|]. split; [exact Hlen|].
  intros j Hj. apply (Hall j (S j)). apply lookup_seq. split; [reflexivity|lia].
Qed.

Lemma list_getitem_lookup {A : Type} (l : list A) (i : Z) (x : A) :
  list_getitem l i = Ok x ->
  l !! Z.to_nat (i mod Z.of_nat (length l)) = Some x.
Proof.
  unfold list_getitem. intros H.
  destruct (Z.ltb_spec i 0) as [Hneg|Hpos].
  - destruct (Z.leb_spec 0 (i + Z.of_nat (length l))) as [H0|]; [|discriminate].
    destruct (Z.ltb_spec (i + Z.of_nat (length l)) (Z.of_nat (length l)))
      as [H1|]; [|discriminate].
    cbn [andb] in H.
    replace (i mod Z.of_nat (length l)) with (i + Z.of_nat (length l)).
    + destruct (l !! _); [congruence|discriminate].
    + apply (Z.mod_unique _ _ (-1)); [left; lia|lia].
  - destruct (Z.leb_spec 0 i) as [H0|]; [|discriminate].
    destruct (Z.ltb_spec i (Z.of_nat (length l))) as [H1|]; [|discriminate].
    cbn [andb] in H. rewrite Z.mod_small by lia.
    destruct (l !! _); [congruence|discriminate].
Qed.

(** [warm_up] raises [StopIteration] on an empty registry.  On a
    well-formed registry that is not empty it returns; it records the
    sorted active ids as [latest_ring], keeps the registry's keys, leaves
    every inactive node, the clock, the agenda and the random generator as
    they were, and changes neither the id nor the active flag of a node. *)
Theorem warm_up_total (e : Env) :
  (nodes e = [] -> warm_up e = Raise StopIteration) /\
  (registry_ok (nodes e) -> nodes e <> [] ->
   exists e',
     warm_up e = Ok e' /\
     latest_ring e' = Some (sorted (active_ids (nodes e))) /\
     dict_keys (nodes e') = dict_keys (nodes e) /\
     active_ids (nodes e') = active_ids (nodes e) /\
     registry_ok (nodes e') /\
     (forall k n, dict_get k (nodes e) = Some n -> active n = false ->
                  dict_get k (nodes e') = Some n) /\
     now e' = now e /\ queue e' = queue e /\ rng_pos e' = rng_pos e).
Proof.
  split.
  - intros Hnil. unfold warm_up. cbn [nodes set_latest_ring]. rewrite Hnil.
    reflexivity.
  - intros Hok Hne. destruct (warm_up_returns e Hok Hne) as [e' Hwarm].
    exists e'. split; [exact Hwarm|].
    pose proof Hok as [Hnd Hall]. unfold warm_up in Hwarm.
    cbn [nodes set_latest_ring] in Hwarm.
    set (ring := sorted (active_ids (nodes e))) in *.
    apply rbind_Ok_inv in Hwarm as (first & Hfirst & H).
    apply rbind_Ok_inv in H as (fnode & Hfnode & H).
    apply rbind_Ok_inv in H as (d' & Hloop & H). injection H as <-.
    assert (NoDup (enumerate ring).*2) as Hndr.
    { rewrite enumerate_snd. apply NoDup_sorted, NoDup_active_ids, Hnd. }
    destruct (warm_loop_spec _ _ _ _ _ Hndr Hloop) as (Hkeys & Hact & Hout & Hin).
    cbn [nodes set_nodes latest_ring now queue rng_pos set_latest_ring].
    split; [reflexivity|]. split; [exact Hkeys|]. split; [exact Hact|].
    split; [|split; [|auto]].
    + split; [rewrite Hkeys; exact Hnd|].
      apply Forall_forall. intros [k n'] Hkn. cbn [fst snd].
      assert (dict_get k d' = Some n') as Hget'.
      { apply dict_get_elem_of; [rewrite Hkeys; exact Hnd|exact Hkn]. }
      destruct (decide (k ∈ ring)) as [Hr|Hr].
      * apply list_elem_of_lookup_1 in Hr as [idx Hidx].
        destruct (Hin idx k) as (n0 & n1 & Hg0 & Hw & Hg1);
          [apply enumerate_lookup, Hidx|].
        assert (n1 = n') as -> by congruence.
        destruct (registry_ok_get _ _ _ Hok Hg0) as (Hid & Hrk & Hlen).
        apply warm_node_inv in Hw as (Hid' & _ & Hlen' & _).
        split; [congruence|]. split; [exact Hrk|congruence].
      * rewrite Hout in Hget' by (rewrite enumerate_snd; exact Hr).
        exact (registry_ok_get _ _ _ Hok Hget').
    + intros k n Hget Hinact. rewrite Hout; [exact Hget|].
      rewrite enumerate_snd. intros Hr.
      apply (proj1 (elem_of_sorted _ _)), (proj1 (active_ids_get _ _ Hnd)) in Hr
        as (n0 & Hn0 & Ha).
      congruence.
Qed.

(** After [warm_up] the pointers of the active nodes follow the sorted
    ring: the node at position [idx] has the next member as successor and
    the previous one as predecessor, both wrapping around; its successor
    list holds the [SUCCESSOR_LIST_SIZE] members that follow it, with
    repetitions on a short ring; and it is the predecessor of its
    successor. *)
Theorem warm_up_pointers (e e' : Env) (idx : nat) (x : Z) :
  registry_ok (nodes e) ->
  warm_up e = Ok e' ->
  sorted (active_ids (nodes e)) !! idx = Some x ->
  exists n s p ns,
    dict_get x (nodes e') = Some n /\
    successor n = Some s /\
    sorted (active_ids (nodes e))
      !! Z.to_nat ((Z.of_nat idx + 1) mod Z.of_nat (count_active (nodes e)))
    = Some s /\
    predecessor n = Some p /\
    sorted (active_ids (nodes e))
      !! Z.to_nat ((Z.of_nat idx - 1) mod Z.of_nat (count_active (nodes e)))
    = Some p /\
    length (successor_list n) = Z.to_nat SUCCESSOR_LIST_SIZE /\
    (forall j, (j < Z.to_nat SUCCESSOR_LIST_SIZE)%nat ->
       exists y,
         sorted (active_ids (nodes e))
           !! Z.to_nat ((Z.of_nat idx + Z.of_nat (S j))
                        mod Z.of_nat (count_active (nodes e)))
         = Some y /\
         successor_list n !! j = Some (Some y)) /\
    dict_get s (nodes e') = Some ns /\ predecessor ns = Some x.
Proof.
  intros Hok H Hidx. pose proof Hok as [Hnd _]. unfold warm_up in H.
  cbn [nodes set_latest_ring] in H.
  assert (length (sorted (active_ids (nodes e))) = count_active (nodes e))
    as HN by exact (Permutation_length (sorted_Permutation _)).
  rewrite <- HN. set (ring := sorted (active_ids (nodes e))) in *.
  apply rbind_Ok_inv in H as (first & Hfirst & H).
  apply rbind_Ok_inv in H as (fnode & Hfnode & H).
  apply rbind_Ok_inv in H as (d' & Hloop & H). injection H as <-.
  assert (NoDup ring) as Hndring by apply NoDup_sorted, NoDup_active_ids, Hnd.
  assert (NoDup (enumerate ring).*2) as Hndr
      by (rewrite enumerate_snd; exact Hndring).
  destruct (warm_loop_spec _ _ _ _ _ Hndr Hloop) as (_ & _ & _ & Hin).
  cbn [nodes set_nodes].
  destruct (Hin idx x) as (n0 & n & Hg0 & Hw & Hg);
    [apply enumerate_lookup, Hidx|].
  destruct (warm_node_fields _ _ _ _ _ _ Hw) as (s & Hs & Hsucc & _).
  destruct (warm_node_pointers _ _ _ _ _ _ Hw) as ((p & Hp & Hpred) & Hlen & Hsl).
  pose proof (lookup_lt_Some _ _ _ Hidx) as Hlt.
  assert (0 < Z.of_nat (length ring)) as Hpos by lia.
  assert (ring !! Z.to_nat ((Z.of_nat idx + 1) mod Z.of_nat (length ring))
          = Some s) as Hs'.
  { apply list_getitem_lookup in Hs. rewrite Z.mod_mod in Hs by lia. exact Hs. }
  pose proof (list_elem_of_lookup_2 _ _ _ Hs') as Hsr.
  destruct (Hin (Z.to_nat ((Z.of_nat idx + 1) mod Z.of_nat (length ring))) s)
    as (ns0 & ns & Hgs0 & Hws & Hgs); [apply enumerate_lookup, Hs'|].
  destruct (warm_node_pointers _ _ _ _ _ _ Hws) as ((ps & Hps & Hpreds) & _ & _).
  exists n, s, p, ns. split; [exact Hg|]. split; [exact Hsucc|].
  split; [exact Hs'|]. split; [exact Hpred|].
  split; [exact (list_getitem_lookup _ _ _ Hp)|]. split; [exact Hlen|].
  split.
  - intros j Hj. destruct (Hsl j Hj) as (y & Hy & Hyl). exists y.
    split; [|exact Hyl].
    apply list_getitem_lookup in Hy. rewrite Z.mod_mod in Hy by lia. exact Hy.
  - split; [exact Hgs|]. rewrite Hpreds. f_equal.
    apply list_getitem_lookup in Hps.
    pose proof (Z.mod_pos_bound (Z.of_nat idx + 1) _ Hpos) as Hb.
    rewrite Z2Nat.id in Hps by lia.
    rewrite Zminus_mod_idemp_l in Hps.
    replace (Z.of_nat idx + 1 - 1) with (Z.of_nat idx) in Hps by lia.
    rewrite Z.mod_small in Hps by lia. rewrite Nat2Z.id in Hps. congruence.
Qed.

Lemma warm_up_pointers_witness :
  exists n s p ns,
    dict_get 20 (nodes env_two_warm) = Some n /\
    successor n = Some s /\
    sorted (active_ids (nodes env_two))
      !! Z.to_nat ((Z.of_nat 1 + 1) mod Z.of_nat (count_active (nodes env_two)))
    = Some s /\
    predecessor n = Some p /\
    sorted (active_ids (nodes env_two))
      !! Z.to_nat ((Z.of_nat 1 - 1) mod Z.of_nat (count_active (nodes env_two)))
    = Some p /\
    length (successor_list n) = Z.to_nat SUCCESSOR_LIST_SIZE /\
    (forall j, (j < Z.to_nat SUCCESSOR_LIST_SIZE)%nat ->
       exists y,
         sorted (active_ids (nodes env_two))
           !! Z.to_nat ((Z.of_nat 1 + Z.of_nat (S j))
                        mod Z.of_nat (count_active (nodes env_two)))
         = Some y /\
         successor_list n !! j = Some (Some y)) /\
    dict_get s (nodes env_two_warm) = Some ns /\ predecessor ns = Some 20.
Proof.
  apply (warm_up_pointers env_two env_two_warm 1 20).
  - split.
    + apply (bool_decide_unpack _). vm_compute. reflexivity.
    + apply (bool_decide_unpack _). vm_compute. reflexivity.
  - vm_compute. reflexivity.
  - vm_compute. reflexivity.
Defined.

(** ** Well-formedness of the registry is kept *)

Lemma dict_set_elem {V : Type} (d : dict V) (k : Z) (v : V) (kv : Z * V) :
  kv ∈ dict_set k v d -> kv = (k, v) \/ kv ∈ d.
Proof.
  induction d as [|[k0 v0] d IH]; simpl.
  - intros H. apply elem_of_cons in H as [H|H]; [auto|].
    apply elem_of_nil in H. contradiction.
  - destruct (Z.eqb_spec k k0) as [->|Hne]; intros H;
      apply elem_of_cons in H as [H|H]; auto.
    + right. apply elem_of_cons. auto.
    + right. apply elem_of_cons. auto.
    + destruct (IH H) as [?|?]; [auto|]. right. apply elem_of_cons. auto.
Qed.

Lemma dict_keys_set_absent {V : Type} (d : dict V) (k : Z) (v : V) :
  k ∉ dict_keys d -> dict_set k v d = d ++ [(k, v)].
Proof.
  induction d as [|[k0 v0] d IH]; simpl; intros Hk; [reflexivity|].
  destruct (Z.eqb_spec k k0) as [->|Hne].
  - exfalso. apply Hk, elem_of_cons. auto.
  - rewrite IH; [reflexivity|]. intros Hin. apply Hk, elem_of_cons. auto.
Qed.

Lemma dict_set_cases {V : Type} (d : dict V) (k : Z) (v : V) :
  (k ∈ dict_keys d /\ dict_keys (dict_set k v d) = dict_keys d /\
   length (dict_set k v d) = length d) \/
  ((k ∉ dict_keys d) /\ dict_keys (dict_set k v d) = dict_keys d ++ [k] /\
   length (dict_set k v d) = S (length d)).
Proof.
  destruct (dict_get k d) as [v0|] eqn:Hget.
  - left. split; [|split].
    + apply dict_get_Some_elem_of in Hget.
      apply (list_elem_of_fmap_2 fst) in Hget. exact Hget.
    + exact (dict_keys_set_present _ _ _ _ Hget).
    + exact (dict_length_set_present _ _ _ _ Hget).
  - right. pose proof (dict_get_None_keys _ _ Hget) as Hk.
    split; [exact Hk|]. rewrite (dict_keys_set_absent _ _ _ Hk).
    unfold dict_keys. rewrite fmap_app, length_app. simpl.
    split; [reflexivity|lia].
Qed.

Lemma registry_ok_set (d : dict Node) (k : Z) (n : Node) :
  registry_ok d -> node_id n = k -> 0 <= k < MAX_ID ->
  length (finger n) = Z.to_nat M -> registry_ok (dict_set k n d).
Proof.
  intros [Hnd Hall] Hid Hk Hlen. split.
  - destruct (dict_set_cases d k n) as [(_ & -> & _)|(Hk' & -> & _)];
      [exact Hnd|].
    apply NoDup_app. split; [exact Hnd|]. split; [|apply NoDup_singleton].
    intros x Hx Hx'. apply list_elem_of_singleton in Hx'. subst x. contradiction.
  - apply Forall_forall. intros kv Hkv.
    apply dict_set_elem in Hkv as [->|Hkv]; [auto|].
    exact (proj1 (Forall_forall _ _) Hall kv Hkv).
Qed.

Lemma registry_ok_update (d : dict Node) (k : Z) (n n' : Node) :
  registry_ok d -> dict_get k d = Some n ->
  node_id n' = node_id n -> length (finger n') = length (finger n) ->
  registry_ok (dict_set k n' d).
Proof.
  intros Hok Hget Hid Hlen.
  destruct (registry_ok_get _ _ _ Hok Hget) as (Hid0 & Hk & Hlen0).
  apply registry_ok_set; [exact Hok|congruence|exact Hk|congruence].
Qed.

Lemma join_shape (e : Env) (self : Node) (b : Z) (e' : Env) (self' : Node) :
  _join e self b = Ok (e', self') ->
  length (finger self') = Z.to_nat M.
Proof.
  unfold _join.
  destruct (dict_getitem b (nodes e)) as [bn|]; cbn [rbind]; [|discriminate].
  destruct (find_successor_local RECURSION_LIMIT (nodes e) bn (node_id self))
    as [sn|]; cbn [rbind]; [|discriminate].
  intros H. injection H as <- <-.
  cbn [finger set_predecessor set_successor_list set_finger length].
  reflexivity.
Qed.

(** The registry after a constructor call: the new node first registered
    as created, then written back after [_create_ring] or [_join]. *)
Lemma Node_init_nodes (e : Env) (b phys : option Z) (stats : bool) (nid : Z)
    (e1 : Env) :
  Node_init e b phys stats = Ok (nid, e1) ->
  exists self0 self',
    nodes e1 = dict_set nid self' (dict_set nid self0 (nodes e)) /\
    0 <= nid < MAX_ID /\
    node_id self0 = nid /\ length (finger self0) = Z.to_nat M /\
    node_id self' = nid /\ length (finger self') = Z.to_nat M.
Proof.
  pose proof (getrandbits_range e) as Hrange. revert Hrange.
  unfold Node_init. simpl.
  set (nid0 := rng e (rng_pos e) mod 2 ^ M). intros Hrange.
  set (self := mkNode nid0 b (default nid0 phys) stats _ None None [] 0 true 0 0 []).
  set (e0 := _schedule_stabilize _ self).
  assert (nodes e0 = dict_set nid0 self (nodes e)) as Hnodes0.
  { unfold e0, _schedule_stabilize, register_node, schedule_event.
    destruct (stabilize_override _); reflexivity. }
  destruct b as [b|].
  - destruct (_join e0 self b) as [[e' self']|] eqn:Hj; simpl; [|discriminate].
    intros H. injection H as <- <-.
    pose proof (join_shape _ _ _ _ _ Hj) as Hlen.
    apply join_inv in Hj as (Hid & _ & _ & Hn & _).
    exists self, self'. unfold store. cbn [nodes set_nodes].
    rewrite Hn, Hnodes0, Hid. repeat split; try assumption; try reflexivity;
      apply Hrange.
  - simpl. intros H. injection H as <- <-.
    exists self, (_create_ring self). unfold store. cbn [nodes set_nodes].
    rewrite Hnodes0. repeat split; try reflexivity; apply Hrange.
Qed.

Lemma Node_init_registry_ok (e : Env) (b phys : option Z) (stats : bool)
    (nid : Z) (e1 : Env) :
  registry_ok (nodes e) ->
  Node_init e b phys stats = Ok (nid, e1) ->
  registry_ok (nodes e1).
Proof.
  intros Hok Hinit.
  destruct (Node_init_nodes _ _ _ _ _ _ Hinit)
    as (self0 & self' & -> & Hr & Hid0 & Hl0 & Hid' & Hl').
  apply registry_ok_set; [|assumption..].
  apply registry_ok_set; assumption.
Qed.

(** The constructor keeps the registry well-formed.  A node whose random
    identifier is already registered takes the place of the node that held
    it; otherwise the registry grows by one. *)
Theorem constructor_keeps_registry_ok (e : Env) (b phys : option Z)
    (stats : bool) (nid : Z) (e1 : Env) :
  registry_ok (nodes e) ->
  Node_init e b phys stats = Ok (nid, e1) ->
  registry_ok (nodes e1) /\
  (nid ∈ dict_keys (nodes e) -> dict_keys (nodes e1) = dict_keys (nodes e)) /\
  (nid ∉ dict_keys (nodes e) ->
   dict_keys (nodes e1) = dict_keys (nodes e) ++ [nid]).
Proof.
  intros Hok Hinit.
  destruct (Node_init_nodes _ _ _ _ _ _ Hinit)
    as (self0 & self' & Hn & Hr & Hid0 & Hl0 & Hid' & Hl').
  split.
  - rewrite Hn. apply registry_ok_set; [|assumption..].
    apply registry_ok_set; assumption.
  - rewrite Hn.
    rewrite (dict_keys_set_present _ nid self' self0 (dict_get_set_eq _ _ _)).
    destruct (dict_set_cases (nodes e) nid self0)
      as [(Hin & Hkeys & _)|(Hnin & Hkeys & _)]; rewrite Hkeys;
      split; intros H; try reflexivity; contradiction.
Qed.

Lemma constructor_keeps_registry_ok_witness :
  registry_ok (nodes env_first) /\
  ((getrandbits env_fresh M).1 ∈ dict_keys (nodes env_fresh) ->
   dict_keys (nodes env_first) = dict_keys (nodes env_fresh)) /\
  ((getrandbits env_fresh M).1 ∉ dict_keys (nodes env_fresh) ->
   dict_keys (nodes env_first)
   = dict_keys (nodes env_fresh) ++ [(getrandbits env_fresh M).1]).
Proof.
  apply (constructor_keeps_registry_ok env_fresh None None false
           (getrandbits env_fresh M).1 env_first).
  - split; [constructor|constructor].
  - vm_compute. reflexivity.
Defined.

(** A handler either leaves the registry as it is or writes back the node
    it was called on, with its id and finger table. *)
Lemma receive_message_frame (e : Env) (self : Node) (src : Z) (rpc : string)
    (args : list pyval) (e' : Env) :
  receive_message e self src rpc args = Ok e' ->
  nodes e' = nodes e \/
  exists self', node_id self' = node_id self /\
                length (finger self') = length (finger self) /\
                nodes e' = dict_set (node_id self) self' (nodes e).
Proof.
  unfold receive_message.
  repeat match goal with
         | |- context [String.eqb ?a ?b] => destruct (String.eqb a b)
         end;
    try (intros H; injection H as <-; left; reflexivity);
    (destruct args as [|a1 [|a2 [|a3 args]]]; try discriminate).
  - (* find_successor *)
    unfold rpc_find_successor.
    destruct (as_int a1) as [k|]; cbn [rbind]; [|discriminate].
    destruct (opt_int (successor self)) as [s|]; cbn [rbind]; [|discriminate].
    destruct (in_interval k (node_id self) s false true).
    + intros H. injection H as <-. left. reflexivity.
    + destruct (closest_preceding_finger_local self k); cbn [rbind];
        [|discriminate].
      intros H. injection H as <-. left. reflexivity.
  - (* find_successor_response *)
    unfold rpc_find_successor_response.
    destruct a2 as [|z|l]; try discriminate.
    + destruct (pending_get VNone (pending self)) as [key|].
      * destruct (ring_owner _ key); cbn [rbind]; [|discriminate].
        destruct (negb _); intros H; injection H as <-; right;
          eexists; (split; [|split; [|reflexivity]]); reflexivity.
      * intros H. injection H as <-. left. reflexivity.
    + destruct (pending_get (VInt z) (pending self)) as [key|].
      * destruct (ring_owner _ key); cbn [rbind]; [|discriminate].
        destruct (negb _); intros H; injection H as <-; right;
          eexists; (split; [|split; [|reflexivity]]); reflexivity.
      * intros H. injection H as <-. left. reflexivity.
  - (* notify *)
    unfold rpc_notify. destruct (predecessor self) as [p|].
    + destruct (in_interval src p (node_id self) false false);
        intros H; injection H as <-; [right|left; reflexivity].
      eexists. (split; [|split; [|reflexivity]]); reflexivity.
    + intros H; injection H as <-. right.
      eexists. (split; [|split; [|reflexivity]]); reflexivity.
  - (* get_predecessor *)
    intros H. injection H as <-. left. reflexivity.
  - (* get_successor_list *)
    intros H. injection H as <-. left. reflexivity.
  - (* get_predecessor_response *)
    unfold rpc_get_predecessor_response. cbn [as_int rbind].
    destruct (opt_int (successor self)) as [s|]; cbn [rbind]; [|discriminate].
    destruct (in_interval src (node_id self) s false false); cbn [rbind];
      intros H; injection H as <-; right;
      eexists; (split; [|split; [|reflexivity]]); reflexivity.
  - (* notify_sync *)
    unfold rpc_notify_sync. destruct (predecessor self) as [p|].
    + destruct (in_interval src p (node_id self) false false);
        intros H; injection H as <-; [right|left; reflexivity].
      eexists. (split; [|split; [|reflexivity]]); reflexivity.
    + intros H; injection H as <-. right.
      eexists. (split; [|split; [|reflexivity]]); reflexivity.
Qed.

Lemma handler_frame_ok (e : Env) (k : Z) (self : Node) (e' : Env) :
  registry_ok (nodes e) -> dict_get k (nodes e) = Some self ->
  (nodes e' = nodes e \/
  exists self', node_id self' = node_id self /\
                length (finger self') = length (finger self) /\
                nodes e' = dict_set (node_id self) self' (nodes e)) ->
  registry_ok (nodes e').
Proof.
  intros Hok Hget [->|(self' & Hid & Hlen & ->)]; [exact Hok|].
  destruct (registry_ok_get _ _ _ Hok Hget) as (Hid0 & _ & _).
  rewrite Hid0. exact (registry_ok_update _ _ _ _ Hok Hget Hid Hlen).
Qed.

Lemma dispatch_keeps_registry_ok (e : Env) (ev : Event) (e' : Env) :
  registry_ok (nodes e) -> _dispatch_event e ev = Ok e' ->
  registry_ok (nodes e').
Proof.
  intros Hok. destruct ev as [j|[f|]|src dst rpc args|src dst rpc args
                              |nid tid|nid|start key]; cbn [_dispatch_event].
  - (* NodeJoin *)
    intros H. apply rbind_Ok_inv in H as ([nid e1] & Hinit & H).
    injection H as <-. cbn [nodes refresh_latest_ring set_latest_ring snd].
    destruct (nodes e) as [|kv d] eqn:Hd.
    + rewrite <- Hd in Hok.
      exact (Node_init_registry_ok _ _ _ _ _ _ Hok Hinit).
    + apply rbind_Ok_inv in Hinit as (b & _ & Hinit). rewrite <- Hd in Hok.
      exact (Node_init_registry_ok _ _ _ _ _ _ Hok Hinit).
  - (* NodeFail, named *)
    unfold mark_failed. intros H. apply rbind_Ok_inv in H as (n & Hn & H).
    injection H as <-. apply dict_getitem_Ok_inv in Hn.
    cbn [nodes refresh_latest_ring set_latest_ring set_nodes].
    apply (registry_ok_update _ _ n); auto.
  - (* NodeFail, unnamed *)
    destruct (length (active_ids (nodes e)) <=? 1)%nat;
      [intros H; injection H as <-; exact Hok|].
    intros H. apply rbind_Ok_inv in H as ([c e1] & Hc & H).
    unfold choice in Hc. destruct (_ !! _); [|discriminate].
    injection Hc as -> <-. cbn [fst snd] in H. unfold mark_failed in H.
    apply rbind_Ok_inv in H as (n & Hn & H).
    injection H as <-. apply dict_getitem_Ok_inv in Hn.
    cbn [nodes refresh_latest_ring set_latest_ring set_nodes set_rng_pos] in *.
    apply (registry_ok_update _ _ n); auto.
  - (* SendMessage *)
    intros H. injection H as <-. exact Hok.
  - (* ReceiveMessage *)
    destruct dst as [dst|]; cbn [mbind option_bind];
      [|intros H; injection H as <-; exact Hok].
    destruct (dict_get dst (nodes e)) as [node|] eqn:Hget;
      [|intros H; injection H as <-; exact Hok].
    destruct (active node); [|intros H; injection H as <-; exact Hok].
    intros H. apply receive_message_frame in H.
    exact (handler_frame_ok _ _ _ _ Hok Hget H).
  - (* TimeoutExpired *)
    destruct (dict_get nid (nodes e)) as [node|];
      [|intros H; injection H as <-; exact Hok].
    destruct (active node); [discriminate|].
    intros H; injection H as <-; exact Hok.
  - (* StabilizeTick *)
    destruct (dict_get nid (nodes e)) as [node|];
      [|intros H; injection H as <-; exact Hok].
    destruct (active node); [discriminate|].
    intros H; injection H as <-; exact Hok.
  - (* LookupEvent *)
    destruct (dict_get start (nodes e)) as [node|] eqn:Hget;
      [|intros H; injection H as <-; exact Hok].
    destruct (active node); [|intros H; injection H as <-; exact Hok].
    intros H. apply rbind_Ok_inv in H as ([r e1] & Hl & H). injection H as <-.
    unfold lookup_iterative in Hl.
    apply rbind_Ok_inv in Hl as (r0 & _ & Hl). injection Hl as _ <-.
    cbn [snd store nodes set_nodes].
    destruct (registry_ok_get _ _ _ Hok Hget) as (Hid0 & _ & _).
    destruct (snd r0); cbn [node_id set_counters]; rewrite Hid0;
      apply (registry_ok_update _ _ node); auto.
Qed.

(** Every event dispatch and every run keep the registry well-formed: a
    node stays registered under its own id, ids stay ring identifiers and
    finger tables keep their [M] slots. *)
Theorem run_keeps_registry_ok (fuel : nat) (until : option Q) (e e' : Env) :
  registry_ok (nodes e) ->
  run fuel until e = Some (Ok e') ->
  registry_ok (nodes e') /\
  forall ev e1, _dispatch_event e' ev = Ok e1 -> registry_ok (nodes e1).
Proof.
  intros Hok Hrun.
  assert (registry_ok (nodes e')) as Hok'.
  { unfold run in Hrun.
    destruct (from_option _ false until); [discriminate|].
    revert e Hok Hrun. induction fuel as [|fuel IH]; intros e Hok;
      cbn [run_loop].
    - destruct (queue e) as [|[t ev] q].
      + intros H. injection H as <-. destruct until; exact Hok.
      + destruct (from_option _ false until); [|discriminate].
        intros H. injection H as <-. destruct until; exact Hok.
    - destruct (queue e) as [|[t ev] q].
      + intros H. injection H as <-. destruct until; exact Hok.
      + destruct (from_option _ false until).
        * intros H. injection H as <-. destruct until; exact Hok.
        * destruct (_dispatch_event _ ev) as [e1|x] eqn:Hd; [|discriminate].
          apply IH. exact (dispatch_keeps_registry_ok (set_queue (set_now e t) q) _ _ Hok Hd). }
  split; [exact Hok'|]. intros ev e1.
  exact (dispatch_keeps_registry_ok _ _ _ Hok').
Qed.

Lemma run_keeps_registry_ok_witness :
  run 2 None (send_message env_two 10 (Some 20) "notify" [])
  = Some (Ok env_two_notified) /\
  (exists n, dict_get 20 (nodes env_two_notified) = Some n /\
             predecessor n = Some 10) /\
  registry_ok (nodes env_two_notified) /\
  forall ev e1,
    _dispatch_event env_two_notified ev = Ok e1 -> registry_ok (nodes e1).
Proof.
  split; [vm_compute; reflexivity|].
  split; [eexists; split; vm_compute; reflexivity|].
  apply (run_keeps_registry_ok 2 None
           (send_message env_two 10 (Some 20) "notify" []) env_two_notified).
  - split.
    + apply (bool_decide_unpack _). vm_compute. reflexivity.
    + apply (bool_decide_unpack _). vm_compute. reflexivity.
  - vm_compute. reflexivity.
Defined.

(** ** [sim/node.py] and [exp_4_churn.py]: maintenance on a warmed ring *)

(** The node [warm_up] leaves at position [idx] of the ring is what
    [warm_node] makes of the node that was registered there. *)
Lemma warm_up_node_at (e e' : Env) (idx : nat) (x : Z) :
  registry_ok (nodes e) ->
  warm_up e = Ok e' ->
  sorted (active_ids (nodes e)) !! idx = Some x ->
  exists n0 n,
    dict_get x (nodes e) = Some n0 /\
    dict_get x (nodes e') = Some n /\
    warm_node (sorted (active_ids (nodes e))) (Z.to_nat M) idx x n0 = Ok n /\
    latest_ring e' = Some (sorted (active_ids (nodes e))) /\
    active_ids (nodes e') = active_ids (nodes e).
Proof.
  intros Hok H Hidx. pose proof Hok as [Hnd _]. unfold warm_up in H.
  cbn [nodes set_latest_ring] in H.
  set (ring := sorted (active_ids (nodes e))) in *.
  apply rbind_Ok_inv in H as (first & Hfirst & H).
  apply rbind_Ok_inv in H as (fnode & Hfnode & H).
  apply rbind_Ok_inv in H as (d' & Hloop & H). injection H as <-.
  apply dict_getitem_Ok_inv in Hfnode.
  destruct (registry_ok_get _ _ _ Hok Hfnode) as (_ & _ & Hm).
  rewrite Hm in Hloop.
  assert (NoDup (enumerate ring).*2) as Hndr.
  { rewrite enumerate_snd. apply NoDup_sorted, NoDup_active_ids, Hnd. }
  destruct (warm_loop_spec _ _ _ _ _ Hndr Hloop) as (_ & Hact & _ & Hin).
  destruct (Hin idx x) as (n0 & n & Hg0 & Hw & Hg);
    [apply enumerate_lookup, Hidx|].
  exists n0, n. cbn [nodes set_nodes latest_ring]. auto.
Qed.

Lemma set_finger_same (n : Node) : set_finger n (finger n) = n.
Proof. destruct n. reflexivity. Qed.

Lemma set_successor_list_same (n : Node) :
  set_successor_list n (successor_list n) = n.
Proof. destruct n. reflexivity. Qed.

(** On a warmed ring with at most 1000 active nodes the search
    [fix_specific_finger_sync] starts from an active node returns the node
    registered under the owner of the finger's start. *)
Lemma fix_finger_search (e e' : Env) (x : Z) (n : Node) (idx : nat) :
  registry_ok (nodes e) ->
  warm_up e = Ok e' ->
  x ∈ active_ids (nodes e) ->
  dict_get x (nodes e') = Some n ->
  (count_active (nodes e) <= RECURSION_LIMIT)%nat ->
  exists o no,
    node_id n = x /\
    ring_owner (sorted (active_ids (nodes e))) (finger_start x idx) = Ok o /\
    find_successor_local RECURSION_LIMIT (nodes e') n (finger_start x idx)
    = Ok no /\
    node_id no = o.
Proof.
  intros Hok Hwarm Hx Hn Hcount.
  destruct (warm_up_ring e e' Hok Hwarm)
    as (Hact & _ & Hsorted & Hrange & Hnode).
  rewrite Hact in *. set (ring := sorted (active_ids (nodes e))) in *.
  assert (x ∈ ring) as Hxr by (apply elem_of_sorted; exact Hx).
  assert (ring <> []) as Hne by (intros Hnil; rewrite Hnil in Hxr;
                                  apply elem_of_nil in Hxr; contradiction).
  destruct (ring_owner_elem ring (finger_start x idx) Hne) as (o & Ho & _).
  destruct (Hnode x Hxr) as (n2 & s & Hn2 & Hid & _).
  assert (n2 = n) as -> by congruence.
  pose proof (ring_owner_member ring Hsorted) as Hmember.
  destruct (find_successor_local_live (nodes e') ring (finger_start x idx) o
              (finger_start_range x idx) Hrange Hmember Ho Hnode
              RECURSION_LIMIT x n Hxr Hn)
    as (no & Hfind & Hno & Hido).
  { pose proof (arc_count_lt_length ring (finger_start x idx) x Hxr
                  (Hrange x Hxr) (finger_start_range x idx)).
    assert (length ring = count_active (nodes e)) as Hlen
        by exact (Permutation_length (sorted_Permutation _)).
    lia. }
  exists o, no. auto.
Qed.

Lemma fix_finger_warm (e e' : Env) (x : Z) (n : Node) (idx : nat) :
  registry_ok (nodes e) ->
  warm_up e = Ok e' ->
  x ∈ active_ids (nodes e) ->
  dict_get x (nodes e') = Some n ->
  (idx < Z.to_nat M)%nat ->
  (count_active (nodes e) <= RECURSION_LIMIT)%nat ->
  fix_specific_finger_sync e' n idx = Ok e'.
Proof.
  intros Hok Hwarm Hx Hn Hidx Hcount.
  destruct (fix_finger_search e e' x n idx Hok Hwarm Hx Hn Hcount)
    as (o & no & Hid & Ho & Hfind & Hido).
  assert (x ∈ sorted (active_ids (nodes e))) as Hxr
      by (apply elem_of_sorted; exact Hx).
  apply list_elem_of_lookup_1 in Hxr as [i Hi].
  destruct (warm_up_node_at e e' i x Hok Hwarm Hi)
    as (n0 & n1 & _ & Hn1 & Hw & _).
  assert (n1 = n) as -> by congruence.
  destruct (warm_node_fields _ _ _ _ _ _ Hw) as (_ & _ & _ & Hfing).
  destruct (Hfing idx Hidx) as (o' & Ho' & Hfo).
  assert (o' = o) as -> by congruence.
  unfold fix_specific_finger_sync. rewrite Hid, Hfind. cbn [rbind].
  rewrite Hido. unfold list_setitem.
  pose proof (lookup_lt_Some _ _ _ Hfo) as Hlt.
  destruct (Nat.ltb_spec idx (length (finger n))) as [_|Hge]; [|lia].
  cbn [rbind]. rewrite (list_insert_id _ _ _ Hfo), set_finger_same.
  f_equal. apply store_registered. rewrite Hid. exact Hn.
Qed.

(** On a warmed ring with at most 1000 active nodes, fixing any of the
    [M] fingers of an active node changes nothing: the finger tables
    [warm_up] writes are those [fix_specific_finger_sync] computes by
    routing.  An index past the table raises [IndexError]. *)
Theorem fix_finger_after_warm_up (e e' : Env) (x : Z) (n : Node)
    (idx : nat) :
  registry_ok (nodes e) ->
  warm_up e = Ok e' ->
  x ∈ active_ids (nodes e) ->
  dict_get x (nodes e') = Some n ->
  (count_active (nodes e) <= RECURSION_LIMIT)%nat ->
  ((idx < Z.to_nat M)%nat -> fix_specific_finger_sync e' n idx = Ok e') /\
  ((Z.to_nat M <= idx)%nat ->
   fix_specific_finger_sync e' n idx = Raise IndexError).
Proof.
  intros Hok Hwarm Hx Hn Hcount. split; intros Hidx.
  - exact (fix_finger_warm e e' x n idx Hok Hwarm Hx Hn Hidx Hcount).
  - destruct (fix_finger_search e e' x n idx Hok Hwarm Hx Hn Hcount)
      as (o & no & Hid & Ho & Hfind & Hido).
    assert (length (finger n) = Z.to_nat M) as Hlen.
    { destruct (warm_up_ring e e' Hok Hwarm) as (Hact & _ & _ & _ & Hnode).
      destruct (Hnode x) as (n2 & s & Hn2 & _ & _ & Hl & _).
      - apply elem_of_sorted. rewrite Hact. exact Hx.
      - congruence. }
    unfold fix_specific_finger_sync. rewrite Hid, Hfind. cbn [rbind].
    unfold list_setitem.
    destruct (Nat.ltb_spec idx (length (finger n))) as [Hlt|_]; [lia|].
    reflexivity.
Qed.

Lemma fix_finger_after_warm_up_witness :
  ((3 < Z.to_nat M)%nat ->
   fix_specific_finger_sync env_two_warm
     (match dict_get 20 (nodes env_two_warm) with
      | Some n => n
      | None => plain_node 20 None
      end) 3
   = Ok env_two_warm) /\
  ((Z.to_nat M <= 3)%nat ->
   fix_specific_finger_sync env_two_warm
     (match dict_get 20 (nodes env_two_warm) with
      | Some n => n
      | None => plain_node 20 None
      end) 3
   = Raise IndexError).
Proof.
  apply (fix_finger_after_warm_up env_two env_two_warm 20 _ 3).
  - split.
    + apply (bool_decide_unpack _). vm_compute. reflexivity.
    + apply (bool_decide_unpack _). vm_compute. reflexivity.
  - vm_compute. reflexivity.
  - apply (bool_decide_unpack _). vm_compute. reflexivity.
  - vm_compute. reflexivity.
  - vm_compute. lia.
Defined.

(** ** [sim/node.py]: [stabilize_sync] *)

Lemma is_live_Some (ns : dict Node) (o : option Z) :
  is_live ns o = true <->
  exists s n, o = Some s /\ dict_get s ns = Some n /\ active n = true.
Proof.
  unfold is_live. split.
  - destruct o as [s|]; cbn [mbind option_bind]; [|discriminate].
    destruct (dict_get s ns) as [n|] eqn:Hn; [|discriminate].
    intros Ha. exists s, n. auto.
  - intros (s & n & -> & Hn & Ha). cbn [mbind option_bind]. rewrite Hn.
    exact Ha.
Qed.

Lemma elem_of_live_others (ns : dict Node) (self_id c : Z) :
  c ∈ live_others ns self_id ->
  exists n, (c, n) ∈ ns /\ active n = true /\ c <> self_id.
Proof.
  unfold live_others. intros Hc.
  apply list_elem_of_fmap in Hc as ([c' n] & -> & Hin).
  apply list_elem_of_filter in Hin as [[Ha Hne] Hin]. exists n. auto.
Qed.

(** The loop of [stabilize_sync] ends within one iteration per backup
    successor, plus one. *)
Lemma ensure_live_successor_spec (fuel : nat) (e : Env) (self : Node)
    (ns : dict Node) :
  NoDup (dict_keys ns) ->
  (length (successor_list self) < fuel)%nat ->
  exists e1 self1 alone,
    ensure_live_successor fuel e self ns = Some (Ok (e1, self1, alone)) /\
    node_id self1 = node_id self /\ nodes e1 = nodes e /\
    finger self1 = finger self /\
    (if alone : bool then successor self1 = Some (node_id self)
     else is_live ns (successor self1) = true).
Proof.
  intros Hnd. revert e self. induction fuel as [|fuel IH]; intros e self Hlen;
    [lia|].
  cbn [ensure_live_successor].
  destruct (is_live ns (successor self)) eqn:Hlive.
  { exists e, self, false. auto. }
  destruct (successor_list self) as [|x sl] eqn:Hsl.
  - destruct (live_others ns (node_id self)) as [|c0 live0] eqn:Hlo.
    + exists e, (set_successor self (Some (node_id self))), true. auto.
    + destruct (choice_elem e (c0 :: live0)) as (c & Hc & Hch); [discriminate|].
      rewrite Hch. rewrite <- Hlo in Hc.
      apply elem_of_live_others in Hc as (n & Hin & Ha & _).
      assert (is_live ns (Some c) = true) as Hlc.
      { apply is_live_Some. exists c, n. split; [reflexivity|].
        split; [apply dict_get_elem_of; assumption|exact Ha]. }
      exists (set_rng_pos e (S (rng_pos e))), (set_successor self (Some c)),
        false.
      split; [|auto].
      destruct fuel; cbn [ensure_live_successor successor set_successor];
        rewrite Hlc; reflexivity.
  - destruct (IH e (set_successor_list (set_successor self x) sl))
      as (e1 & self1 & alone & Hr & Hid & Hn & Hf & Hpost).
    { cbn [successor_list set_successor_list]. simpl in Hlen. lia. }
    exists e1, self1, alone. auto.
Qed.

(** [stabilize_sync], called on a registered node with the registry of
    the environment, returns without an exception as soon as the loop is
    allowed one iteration per backup successor, plus one.  Afterwards the
    node is registered with its id and finger table, and its successor is
    either itself or a registered, active node; no node other than the
    node and that successor has changed, and the registry has the keys it
    had. *)
Theorem stabilize_sync_live_successor (fuel : nat) (e : Env) (self : Node) :
  registry_ok (nodes e) ->
  dict_get (node_id self) (nodes e) = Some self ->
  (length (successor_list self) < fuel)%nat ->
  exists e' self',
    stabilize_sync fuel e self (nodes e) = Some (Ok e') /\
    dict_get (node_id self) (nodes e') = Some self' /\
    node_id self' = node_id self /\ finger self' = finger self /\
    (successor self' = Some (node_id self) \/
     is_live (nodes e') (successor self') = true) /\
    (forall k, k <> node_id self -> Some k <> successor self' ->
               dict_get k (nodes e') = dict_get k (nodes e)) /\
    dict_keys (nodes e') = dict_keys (nodes e).
Proof.
  intros Hok Hreg Hfuel. pose proof Hok as [Hnd _].
  destruct (ensure_live_successor_spec fuel e self (nodes e) Hnd Hfuel)
    as (e1 & self1 & alone & Hloop & Hid1 & Hn1 & Hf1 & Hpost).
  unfold stabilize_sync. rewrite Hloop. destruct alone.
  - (* isolated *)
    exists (store e1 self1), self1. split; [reflexivity|].
    unfold store. cbn [nodes set_nodes].
    split; [rewrite Hid1; apply dict_get_set_eq|]. split; [exact Hid1|].
    split; [exact Hf1|]. split; [left; exact Hpost|].
    split; [intros k Hk _; rewrite Hn1; apply dict_get_set_ne; congruence|].
    rewrite Hid1, Hn1. exact (dict_keys_set_present _ _ _ _ Hreg).
  - apply is_live_Some in Hpost as (s & sn & Hs & Hsn & Hsa).
    unfold tighten_and_notify. rewrite Hs, Hid1.
    destruct (Z.eqb_spec s (node_id self)) as [->|Hne].
    + exists (store e1 self1), self1. split; [reflexivity|].
      unfold store. cbn [nodes set_nodes].
      split; [rewrite Hid1; apply dict_get_set_eq|]. split; [exact Hid1|].
      split; [exact Hf1|]. split; [left; exact Hs|].
      split; [intros k Hk _; rewrite Hn1; apply dict_get_set_ne; congruence|].
      rewrite Hid1, Hn1. exact (dict_keys_set_present _ _ _ _ Hreg).
    + unfold dict_getitem at 1. rewrite Hsn. cbn [rbind].
      destruct (registry_ok_get _ _ _ Hok Hsn) as (Hsid & Hsr & _).
      set (self2 := set_successor_list self1 _).
      assert (forall self3 tn t,
                node_id self3 = node_id self -> finger self3 = finger self ->
                successor self3 = Some t -> t <> node_id self ->
                dict_get t (nodes e) = Some tn -> active tn = true ->
                exists e' self',
                  Some (rpc_notify_sync (store e1 self3) tn (node_id self))
                  = Some (Ok e') /\
                  dict_get (node_id self) (nodes e') = Some self' /\
                  node_id self' = node_id self /\ finger self' = finger self /\
                  (successor self' = Some (node_id self) \/
                   is_live (nodes e') (successor self') = true) /\
                  (forall k, k <> node_id self -> Some k <> successor self' ->
                             dict_get k (nodes e') = dict_get k (nodes e)) /\
                  dict_keys (nodes e') = dict_keys (nodes e))
        as Hnotify.
      { intros self3 tn t Hid3 Hf3 Hs3 Hts Htn Hta.
        destruct (registry_ok_get _ _ _ Hok Htn) as (Htid & _ & _).
        assert (dict_get (node_id self) (nodes (store e1 self3)) = Some self3)
          as Hg3.
        { unfold store. cbn [nodes set_nodes]. rewrite Hid3.
          apply dict_get_set_eq. }
        assert (forall k, k <> node_id self ->
                          dict_get k (nodes (store e1 self3))
                          = dict_get k (nodes e)) as Hframe.
        { intros k Hk. unfold store. cbn [nodes set_nodes].
          rewrite Hid3, Hn1. apply dict_get_set_ne. congruence. }
        assert (dict_keys (nodes (store e1 self3)) = dict_keys (nodes e))
          as Hkeys3.
        { unfold store. cbn [nodes set_nodes]. rewrite Hid3, Hn1.
          exact (dict_keys_set_present _ _ _ _ Hreg). }
        unfold rpc_notify_sync.
        assert (exists e',
                  (e' = store e1 self3 \/
                   exists tn', active tn' = true /\
                               e' = store (store e1 self3) tn' /\
                               node_id tn' = t) /\
                  match predecessor tn with
                  | Some p =>
                      if in_interval (node_id self) p (node_id tn) false false
                      then Ok (store (store e1 self3)
                                 (set_predecessor tn (Some (node_id self))))
                      else Ok (store e1 self3)
                  | None =>
                      Ok (store (store e1 self3)
                            (set_predecessor tn (Some (node_id self))))
                  end = Ok e') as (e' & Hcase & ->).
        { destruct (predecessor tn) as [p|].
          - destruct (in_interval _ p _ false false); eexists;
              (split; [|reflexivity]); [right|left; reflexivity].
            eexists. split; [|split; [reflexivity|]]; [exact Hta|exact Htid].
          - eexists. split; [|reflexivity]. right.
            eexists. split; [|split; [reflexivity|]]; [exact Hta|exact Htid]. }
        exists e', self3. split; [reflexivity|].
        destruct Hcase as [->|(tn' & Hta' & -> & Htid')].
        - split; [exact Hg3|]. split; [exact Hid3|]. split; [exact Hf3|].
          split.
          + right. rewrite Hs3. apply is_live_Some. exists t, tn.
            split; [reflexivity|]. split; [|exact Hta].
            rewrite Hframe by exact Hts. exact Htn.
          + split; [intros k Hk _; apply Hframe, Hk|exact Hkeys3].
        - assert (nodes (store (store e1 self3) tn')
                  = dict_set t tn' (nodes (store e1 self3))) as ->.
          { unfold store at 1. cbn [nodes set_nodes]. rewrite Htid'.
            reflexivity. }
          split; [rewrite dict_get_set_ne by congruence; exact Hg3|].
          split; [exact Hid3|]. split; [exact Hf3|]. split.
          + right. rewrite Hs3. apply is_live_Some. exists t, tn'.
            split; [reflexivity|]. split; [apply dict_get_set_eq|exact Hta'].
          + split.
            * intros k Hk Hks. rewrite Hs3 in Hks.
              rewrite dict_get_set_ne by congruence. apply Hframe, Hk.
            * rewrite <- Hkeys3. apply (dict_keys_set_present _ _ _ tn).
              rewrite Hframe by exact Hts. exact Htn. }
      destruct (predecessor sn) as [p|] eqn:Hp.
      * destruct (is_live (nodes e) (Some p)
                  && in_interval p (node_id self2) s false false) eqn:Hadopt.
        -- apply andb_prop in Hadopt as [Hpl Hpin].
           apply is_live_Some in Hpl as (p' & pn & Hp' & Hpn & Hpa).
           injection Hp' as <-.
           unfold dict_getitem. rewrite Hpn. cbn [rbind fst snd].
           change (node_id self2) with (node_id self1) in *.
           rewrite Hid1 in Hpin. rewrite Hid1.
           apply (Hnotify _ pn p); try assumption; try reflexivity.
           intros ->.
           rewrite in_interval_start_excluded in Hpin. discriminate.
        -- cbn [rbind fst snd].
           change (node_id self2) with (node_id self1). rewrite Hid1.
           apply (Hnotify self2 sn s); try assumption; try reflexivity.
      * cbn [rbind fst snd].
        change (node_id self2) with (node_id self1). rewrite Hid1.
        apply (Hnotify self2 sn s); try assumption; try reflexivity.
Qed.

Lemma stabilize_sync_live_successor_witness :
  exists e' self',
    stabilize_sync 1 env_two (plain_node 10 (Some 20)) (nodes env_two)
    = Some (Ok e') /\
    dict_get (node_id (plain_node 10 (Some 20))) (nodes e') = Some self' /\
    node_id self' = node_id (plain_node 10 (Some 20)) /\
    finger self' = finger (plain_node 10 (Some 20)) /\
    (successor self' = Some (node_id (plain_node 10 (Some 20))) \/
     is_live (nodes e') (successor self') = true) /\
    (forall k, k <> node_id (plain_node 10 (Some 20)) ->
               Some k <> successor self' ->
               dict_get k (nodes e') = dict_get k (nodes env_two)) /\
    dict_keys (nodes e') = dict_keys (nodes env_two).
Proof.
  apply (stabilize_sync_live_successor 1 env_two (plain_node 10 (Some 20))).
  - split.
    + apply (bool_decide_unpack _). vm_compute. reflexivity.
    + apply (bool_decide_unpack _). vm_compute. reflexivity.
  - vm_compute. reflexivity.
  - vm_compute. lia.
Defined.

(** ** [experiments/exp_4_churn.py]: a warmed ring is stable *)

Lemma warm_up_latest_ring (e e' : Env) :
  warm_up e = Ok e' -> latest_ring e' = Some (sorted (active_ids (nodes e))).
Proof.
  unfold warm_up. cbn [nodes set_latest_ring]. intros H.
  apply rbind_Ok_inv in H as (first & _ & H).
  apply rbind_Ok_inv in H as (fnode & _ & H).
  apply rbind_Ok_inv in H as (d' & _ & H). injection H as <-. reflexivity.
Qed.

Lemma set_latest_ring_same (e : Env) (r : list Z) :
  latest_ring e = Some r -> set_latest_ring e r = e.
Proof. destruct e. simpl. intros ->. reflexivity. Qed.

Lemma stabilize_nodes_fix (fuel : nat) (ring : list Z) (e : Env)
    (l : list (nat * Z)) :
  (forall idx x, (idx, x) ∈ l ->
                 stabilize_node fuel ring e idx x = Some (Ok e)) ->
  stabilize_nodes fuel ring e l = Some (Ok e).
Proof.
  induction l as [|[idx x] l IH]; intros H; cbn [stabilize_nodes];
    [reflexivity|].
  rewrite (H idx x) by (apply elem_of_cons; auto).
  apply IH. intros idx' x' Hin. apply H, elem_of_cons. auto.
Qed.

Lemma fix_fingers_fix (e : Env) (x : Z) (n : Node) (idxs : list nat) :
  dict_get x (nodes e) = Some n ->
  (forall i, i ∈ idxs -> fix_specific_finger_sync e n i = Ok e) ->
  fix_fingers e x idxs = Ok e.
Proof.
  intros Hn. induction idxs as [|i idxs IH]; intros H; cbn [fix_fingers];
    [reflexivity|].
  unfold dict_getitem. rewrite Hn. cbn [rbind].
  rewrite (H i) by (apply elem_of_cons; auto). cbn [rbind].
  apply IH. intros i' Hi'. apply H, elem_of_cons. auto.
Qed.

Lemma max_no_of_fingers_bound (n : nat) :
  (n <= RECURSION_LIMIT)%nat -> (max_no_of_fingers n <= Z.to_nat M)%nat.
Proof.
  unfold max_no_of_fingers, RECURSION_LIMIT. intros Hn.
  assert (Z.log2_up (Z.of_nat n) <= Z.log2_up 1000) as Hle
      by (apply Z.log2_up_le_mono; lia).
  change (Z.log2_up 1000) with 10 in Hle. change (Z.to_nat M) with 160%nat.
  lia.
Qed.

(** The state of a node of the warmed ring, as [stabilize_node] reads
    it. *)
Lemma warm_up_node_stable (e e' : Env) (idx : nat) (x : Z) :
  registry_ok (nodes e) ->
  warm_up e = Ok e' ->
  sorted (active_ids (nodes e)) !! idx = Some x ->
  exists n s ns p pn,
    dict_get x (nodes e') = Some n /\ node_id n = x /\ active n = true /\
    successor n = Some s /\
    dict_get s (nodes e') = Some ns /\ node_id ns = s /\ active ns = true /\
    predecessor ns = Some x /\
    successor_list n
    = Some s :: take (Z.to_nat (SUCCESSOR_LIST_SIZE - 1)) (successor_list ns) /\
    predecessor n = Some p /\
    dict_get p (nodes e') = Some pn /\ active pn = true.
Proof.
  intros Hok Hwarm Hidx. pose proof Hok as [Hnd _].
  set (ring := sorted (active_ids (nodes e))) in *.
  assert (forall i y, ring !! i = Some y ->
            exists m0 m, dict_get y (nodes e) = Some m0 /\
                         dict_get y (nodes e') = Some m /\
                         warm_node ring (Z.to_nat M) i y m0 = Ok m /\
                         node_id m = y /\ active m = true) as Hat.
  { intros i y Hi.
    destruct (warm_up_node_at e e' i y Hok Hwarm Hi)
      as (m0 & m & Hm0 & Hm & Hw & _).
    exists m0, m. split; [exact Hm0|]. split; [exact Hm|]. split; [exact Hw|].
    destruct (registry_ok_get _ _ _ Hok Hm0) as (Hid & _ & _).
    pose proof (warm_node_inv _ _ _ _ _ _ Hw) as (Hid' & Hact' & _).
    apply list_elem_of_lookup_2 in Hi.
    apply (proj1 (elem_of_sorted _ _)), (proj1 (active_ids_get _ _ Hnd)) in Hi
      as (m1 & Hm1 & Ha).
    split; congruence. }
  pose proof (lookup_lt_Some _ _ _ Hidx) as Hlt.
  assert (0 < Z.of_nat (length ring)) as Hpos by lia.
  destruct (Hat idx x Hidx) as (n0 & n & Hn0 & Hn & Hw & Hid & Hact).
  destruct (warm_node_fields _ _ _ _ _ _ Hw) as (s & Hs & Hsucc & _).
  destruct (warm_node_pointers _ _ _ _ _ _ Hw) as ((p & Hp & Hpred) & Hlen & Hsl).
  assert (ring !! Z.to_nat ((Z.of_nat idx + 1) mod Z.of_nat (length ring))
          = Some s) as Hs'.
  { apply list_getitem_lookup in Hs. rewrite Z.mod_mod in Hs by lia. exact Hs. }
  destruct (Hat _ s Hs') as (ns0 & ns & Hns0 & Hns & Hws & Hids & Hacts).
  destruct (warm_node_pointers _ _ _ _ _ _ Hws)
    as ((ps & Hps & Hpreds) & Hlens & Hsls).
  pose proof (Z.mod_pos_bound (Z.of_nat idx + 1) _ Hpos) as Hb.
  assert (ps = x) as ->.
  { apply list_getitem_lookup in Hps.
    rewrite Z2Nat.id in Hps by lia.
    rewrite Zminus_mod_idemp_l in Hps.
    replace (Z.of_nat idx + 1 - 1) with (Z.of_nat idx) in Hps by lia.
    rewrite Z.mod_small in Hps by lia. rewrite Nat2Z.id in Hps. congruence. }
  destruct (Hat _ p (list_getitem_lookup _ _ _ Hp))
    as (pn0 & pn & _ & Hpn & _ & _ & Hactp).
  exists n, s, ns, p, pn.
  split; [exact Hn|]. split; [exact Hid|]. split; [exact Hact|].
  split; [exact Hsucc|]. split; [exact Hns|]. split; [exact Hids|].
  split; [exact Hacts|]. split; [exact Hpreds|].
  split; [|split; [exact Hpred|split; [exact Hpn|exact Hactp]]].
  symmetry. apply list_eq. intros [|j].
  - destruct (Hsl 0%nat) as (y & Hy & Hy0);
      [change (Z.to_nat SUCCESSOR_LIST_SIZE) with 16%nat; lia|].
    change (Z.of_nat 1) with 1 in Hy. rewrite Hy0. simpl. congruence.
  - change (take (Z.to_nat (SUCCESSOR_LIST_SIZE - 1)) (successor_list ns) !! j
            = successor_list n !! S j).
    change (Z.to_nat (SUCCESSOR_LIST_SIZE - 1)) with 15%nat.
    change (Z.to_nat SUCCESSOR_LIST_SIZE) with 16%nat in *.
    destruct (Nat.lt_ge_cases j 15) as [Hj|Hj].
    + rewrite lookup_take_lt by exact Hj.
      destruct (Hsls j) as (y & Hy & Hyj); [lia|].
      destruct (Hsl (S j)) as (y' & Hy' & Hyj'); [lia|].
      rewrite Hyj, Hyj'. do 2 f_equal.
      rewrite Z2Nat.id in Hy by lia.
      rewrite Zplus_mod_idemp_l in Hy.
      replace (Z.of_nat idx + 1 + Z.of_nat (S j))
        with (Z.of_nat idx + Z.of_nat (S (S j))) in Hy by lia.
      congruence.
    + rewrite lookup_take_ge by exact Hj.
      symmetry. apply lookup_ge_None_2. lia.
Qed.

(** A ring that [warm_up] has written is stable: with at most 1000
    active nodes, one pass of [global_stabilizer] over it leaves the whole
    environment as it is, however few iterations its inner loop is
    allowed. *)
Theorem stabilizer_round_fixed_point (e e' : Env) (fuel : nat) :
  registry_ok (nodes e) ->
  warm_up e = Ok e' ->
  (count_active (nodes e) <= RECURSION_LIMIT)%nat ->
  stabilizer_round fuel e' = Some (Ok e').
Proof.
  intros Hok Hwarm Hcount. pose proof Hok as [Hnd _].
  assert (active_ids (nodes e') = active_ids (nodes e)) as Hact
      by exact (proj1 (warm_up_ring e e' Hok Hwarm)).
  unfold stabilizer_round. rewrite Hact.
  set (ring := sorted (active_ids (nodes e))).
  rewrite (set_latest_ring_same e' ring (warm_up_latest_ring e e' Hwarm)).
  destruct (length ring =? 0)%nat; [reflexivity|].
  apply stabilize_nodes_fix. intros idx x Hin.
  apply enumerate_lookup in Hin.
  destruct (warm_up_node_stable e e' idx x Hok Hwarm Hin)
    as (n & s & ns & p & pn & Hn & Hid & Ha & Hs & Hns & Hids & Has & Hps
        & Hsl & Hp & Hpn & Hap).
  assert (x ∈ active_ids (nodes e)) as Hx.
  { apply elem_of_sorted. exact (list_elem_of_lookup_2 _ _ _ Hin). }
  assert (is_live (nodes e') (Some s) = true) as Hlive.
  { apply is_live_Some. exists s, ns. auto. }
  assert (is_live (nodes e') (Some x) = true) as Hlivex.
  { apply is_live_Some. exists x, n. auto. }
  assert (store e' n = e') as Hstore.
  { apply store_registered. rewrite Hid. exact Hn. }
  unfold stabilize_node. rewrite Hn, Ha, Hs, Hlive. cbn [negb].
  assert (stabilize_sync fuel e' n (nodes e') = Some (Ok e')) as ->.
  { unfold stabilize_sync.
    assert (ensure_live_successor fuel e' n (nodes e')
            = Some (Ok (e', n, false))) as ->.
    { destruct fuel; cbn [ensure_live_successor]; rewrite Hs, Hlive;
        reflexivity. }
    f_equal. unfold tighten_and_notify. rewrite Hs.
    destruct (s =? node_id n); [rewrite Hstore; reflexivity|].
    unfold dict_getitem. rewrite Hns. cbn [rbind].
    rewrite <- Hsl, set_successor_list_same, Hps, Hlivex, Hid.
    rewrite in_interval_start_excluded. cbn [andb rbind fst snd].
    rewrite Hstore. unfold rpc_notify_sync. rewrite Hps.
    rewrite in_interval_start_excluded. reflexivity. }
  f_equal.
  rewrite (fix_fingers_fix e' x n _ Hn).
  - cbn [rbind]. unfold dict_getitem. rewrite Hn. cbn [rbind].
    unfold check_predecessor_sync. rewrite Hp, Hpn, Hap. reflexivity.
  - intros i Hi. apply elem_of_seq in Hi.
    apply (fix_finger_warm e e' x n i Hok Hwarm Hx Hn); [|exact Hcount].
    assert (length ring = count_active (nodes e)) as Hlen
        by exact (Permutation_length (sorted_Permutation _)).
    pose proof (max_no_of_fingers_bound (length ring)). lia.
Qed.

Lemma stabilizer_round_fixed_point_witness :
  stabilizer_round 0 env_two_warm = Some (Ok env_two_warm).
Proof.
  apply (stabilizer_round_fixed_point env_two env_two_warm 0).
  - split.
    + apply (bool_decide_unpack _). vm_compute. reflexivity.
    + apply (bool_decide_unpack _). vm_compute. reflexivity.
  - vm_compute. reflexivity.
  - vm_compute. lia.
Defined.

(** ** [experiments]: the ring before [warm_up] *)

Lemma in_interval_same_ends (x a : Z) :
  0 <= x < MAX_ID -> 0 <= a < MAX_ID -> x <> a ->
  in_interval x a a false true = true.
Proof. intros Hx Ha Hne. ring_cases. Qed.

Lemma dict_set_set {V : Type} (d : dict V) (k : Z) (v0 v : V) :
  dict_set k v (dict_set k v0 d) = dict_set k v d.
Proof.
  induction d as [|[k' v'] d IH]; simpl.
  - rewrite Z.eqb_refl. reflexivity.
  - destruct (Z.eqb_spec k k') as [->|Hnk]; simpl.
    + rewrite Z.eqb_refl. reflexivity.
    + destruct (Z.eqb_spec k k'); [contradiction|]. rewrite IH. reflexivity.
Qed.

(** One node joining through a first node that is its own successor. *)
Lemma join_through_first (e : Env) (first : Z) (nf : Node) (stats : bool) :
  dict_get first (nodes e) = Some nf -> node_id nf = first ->
  successor nf = Some first -> 0 <= first < MAX_ID ->
  (getrandbits e M).1 <> first ->
  exists e1 n,
    Node_init e (Some first) None stats = Ok ((getrandbits e M).1, e1) /\
    rng e1 = rng e /\ rng_pos e1 = S (rng_pos e) /\
    nodes e1 = dict_set (getrandbits e M).1 n (nodes e) /\
    node_id n = (getrandbits e M).1 /\
    successor n = Some first /\ predecessor n = None /\ active n = true /\
    successor_list n = [Some first] /\
    finger n
    = Some first :: replicate (Z.to_nat (M - 1)) (Some (getrandbits e M).1).
Proof.
  intros Hnf Hid Hsucc Hfirst. pose proof (getrandbits_range e) as Hrange.
  revert Hrange. unfold Node_init. simpl.
  set (nid := rng e (rng_pos e) mod 2 ^ M). intros Hrange Hne.
  set (self := mkNode nid (Some first) nid stats _ None None [] 0 true 0 0 []).
  set (e0 := _schedule_stabilize _ self).
  assert (nodes e0 = dict_set nid self (nodes e)) as Hnodes0.
  { unfold e0, _schedule_stabilize, register_node, schedule_event.
    destruct (stabilize_override _); reflexivity. }
  assert (rng e0 = rng e /\ rng_pos e0 = S (rng_pos e)) as [Hrng0 Hpos0].
  { unfold e0, _schedule_stabilize, register_node, schedule_event.
    destruct (stabilize_override _); split; reflexivity. }
  assert (dict_get first (nodes e0) = Some nf) as Hnf0.
  { rewrite Hnodes0, dict_get_set_ne by exact Hne. exact Hnf. }
  unfold _join. unfold dict_getitem at 1. rewrite Hnf0. cbn [rbind].
  change RECURSION_LIMIT with (S 999). cbn [find_successor_local].
  rewrite Hid, Hsucc. change (node_id self) with nid.
  destruct (Z.eqb_spec nid first) as [Heq|_]; [contradiction|].
  cbn [opt_int rbind].
  rewrite (in_interval_same_ends nid first Hrange Hfirst Hne).
  unfold dict_getitem. rewrite Hnf0. cbn [rbind]. rewrite Hid.
  eexists. eexists. split; [reflexivity|].
  cbn [fst snd]. unfold store, send_message, schedule_event.
  cbn [nodes set_nodes set_queue queue node_id set_predecessor rng rng_pos
       set_successor_list set_finger set_successor successor predecessor
       active successor_list finger].
  rewrite Hnodes0.
  split; [exact Hrng0|]. split; [exact Hpos0|].
  change (node_id self) with nid.
  split; [apply dict_set_set|]. repeat split; reflexivity.
Qed.

Lemma star_shaped_get (first : Z) (d : dict Node) (x : Z) (n : Node) :
  star_shaped first d -> dict_get x d = Some n ->
  node_id n = x /\ 0 <= x < MAX_ID /\ active n = true /\
  successor n = Some first /\
  (x <> first ->
   predecessor n = None /\ successor_list n = [Some first] /\
   finger n = Some first :: replicate (Z.to_nat (M - 1)) (Some x)).
Proof.
  intros [_ Hall] Hget. apply dict_get_Some_elem_of in Hget.
  exact (proj1 (Forall_forall _ _) Hall _ Hget).
Qed.

Lemma add_nodes_star (k : nat) (e : Env) (first : Z) (stats : bool) :
  star_shaped first (nodes e) ->
  (forall i, (i < k)%nat ->
             rng e (rng_pos e + i)%nat mod 2 ^ M <> first) ->
  exists e',
    add_nodes k e first stats = Ok e' /\
    star_shaped first (nodes e') /\
    dict_get first (nodes e') = dict_get first (nodes e).
Proof.
  revert e. induction k as [|k IH]; intros e Hstar Hrng.
  - exists e. auto.
  - assert ((getrandbits e M).1 <> first) as Hne.
    { specialize (Hrng 0%nat ltac:(lia)). rewrite Nat.add_0_r in Hrng.
      exact Hrng. }
    pose proof Hstar as [Hin Hall].
    destruct (dict_get_keys _ _ Hin) as [nf Hnf].
    destruct (star_shaped_get _ _ _ _ Hstar Hnf) as (Hid & Hfirst & _ & Hsucc & _).
    destruct (join_through_first e first nf stats Hnf Hid Hsucc Hfirst Hne)
      as (e1 & n & Hinit & Hr1 & Hp1 & Hn1 & Hnid & Hns & Hnp & Hna & Hnsl & Hnf1).
    cbn [add_nodes]. rewrite Hinit. cbn [rbind snd].
    destruct (IH e1) as (e' & Hadd & Hstar' & Hf').
    + rewrite Hn1. split.
      * destruct (dict_set_cases (nodes e) (getrandbits e M).1 n)
          as [(_ & -> & _)|(_ & -> & _)]; [exact Hin|].
        apply elem_of_app. auto.
      * apply Forall_forall. intros kv Hkv.
        apply dict_set_elem in Hkv as [->|Hkv].
        -- cbn [fst snd]. pose proof (getrandbits_range e). auto 10.
        -- exact (proj1 (Forall_forall _ _) Hall kv Hkv).
    + intros i Hi. rewrite Hr1, Hp1.
      replace (S (rng_pos e) + i)%nat with (rng_pos e + S i)%nat by lia.
      apply Hrng. lia.
    + exists e'. split; [exact Hadd|]. split; [exact Hstar'|].
      rewrite Hf', Hn1. apply dict_get_set_ne. exact Hne.
Qed.

(** Bootstrapping leaves a star, not a ring: on an environment with no
    node yet, when no later node draws the first node's id, the first step
    of [run_mass_failure] and [run_churn] returns a registry in which
    every node is active and has the first node as successor; the first
    node is its own successor with every finger on itself, and each joiner
    has an unset predecessor, the successor list [[first]] and the finger
    table [first] followed by [M - 1] copies of its own id.  This holds
    with and without the override of [_schedule_stabilize]. *)
Theorem bootstrap_chord_star (e : Env) (no_of_nodes : Z) (stats : bool) :
  nodes e = [] ->
  (forall i, (0 < i)%nat ->
             rng e (rng_pos e + i)%nat mod 2 ^ M <> (getrandbits e M).1) ->
  exists e' nf,
    bootstrap_chord no_of_nodes e stats = Ok ((getrandbits e M).1, e') /\
    star_shaped (getrandbits e M).1 (nodes e') /\
    dict_get (getrandbits e M).1 (nodes e') = Some nf /\
    finger nf = replicate (Z.to_nat M) (Some (getrandbits e M).1).
Proof.
  intros Hempty Hfresh. pose proof (getrandbits_range e) as Hfirst.
  revert Hfresh Hfirst. unfold bootstrap_chord.
  set (first := (getrandbits e M).1). intros Hfresh Hfirst.
  assert (exists e1 nf,
            Node_init e None None stats = Ok (first, e1) /\
            nodes e1 = [(first, nf)] /\ node_id nf = first /\
            successor nf = Some first /\ active nf = true /\
            finger nf = replicate (Z.to_nat M) (Some first) /\
            rng e1 = rng e /\ rng_pos e1 = S (rng_pos e))
    as (e1 & nf & Hinit & Hn1 & Hid & Hsucc & Hact & Hfing & Hr1 & Hp1).
  { unfold Node_init. simpl. fold first.
    eexists. eexists. split; [reflexivity|].
    unfold store, _schedule_stabilize, register_node, schedule_event.
    destruct (stabilize_override _);
      cbn [nodes set_nodes set_queue set_rng_pos _create_ring
           node_id set_successor_list set_finger set_successor set_predecessor
           fst snd finger successor active rng rng_pos];
      rewrite Hempty; cbn [dict_set]; rewrite Z.eqb_refl;
      (split; [reflexivity|]); (split; [reflexivity|]);
      (split; [reflexivity|]); (split; [reflexivity|]);
      (split; [apply create_ring_finger|]); split; reflexivity. }
  rewrite Hinit. cbn [rbind fst snd].
  assert (dict_get first (nodes e1) = Some nf) as Hget1.
  { rewrite Hn1. simpl. rewrite Z.eqb_refl. reflexivity. }
  destruct (add_nodes_star (Z.to_nat (no_of_nodes - 1)) e1 first stats)
    as (e' & Hadd & Hstar & Hf').
  { rewrite Hn1. split; [apply elem_of_cons; auto|].
    apply Forall_cons. split; [|constructor]. cbn [fst snd].
    split; [exact Hid|]. split; [exact Hfirst|]. split; [exact Hact|].
    split; [exact Hsucc|]. intros Hne. contradiction. }
  { intros i _. rewrite Hr1, Hp1.
    replace (S (rng_pos e) + i)%nat with (rng_pos e + S i)%nat by lia.
    apply Hfresh. lia. }
  rewrite Hadd. cbn [rbind]. exists e', nf. split; [reflexivity|].
  split; [exact Hstar|]. split; [congruence|exact Hfing].
Qed.

Lemma bootstrap_chord_star_witness :
  exists e' nf,
    bootstrap_chord 3 env_experiment false
    = Ok ((getrandbits env_experiment M).1, e') /\
    star_shaped (getrandbits env_experiment M).1 (nodes e') /\
    dict_get (getrandbits env_experiment M).1 (nodes e') = Some nf /\
    finger nf
    = replicate (Z.to_nat M) (Some (getrandbits env_experiment M).1).
Proof.
  apply (bootstrap_chord_star env_experiment 3 false).
  - reflexivity.
  - intros [|i] Hi; [lia|]. vm_compute. discriminate.
Defined.

Lemma scan_fingers_own (x k : Z) (m : nat) (fs : list (option Z)) :
  scan_fingers x k (replicate m (Some x) ++ fs) = scan_fingers x k fs.
Proof.
  induction m as [|m IH]; simpl; [reflexivity|].
  rewrite in_interval_start_excluded. exact IH.
Qed.

Lemma hop_budget_ge_2 (d : dict Node) :
  d <> [] -> exists b, hop_budget d = S (S b).
Proof.
  intros Hne. unfold hop_budget.
  assert (1 <= Z.log2_up (Z.of_nat (length d) + 1)) as Hlog.
  { assert (2 <= Z.of_nat (length d) + 1) as H2
        by (destruct d; [contradiction|]; simpl length; lia).
    apply Z.log2_up_le_mono in H2. exact H2. }
  exists (2 * Z.to_nat (Z.log2_up (Z.of_nat (length d) + 1)) - 2)%nat. lia.
Qed.

(** On the star that bootstrapping leaves, a lookup finds the start node
    when the key is its id and answers the first node for every other
    key, whoever owns it: before [warm_up] the ring does not route. *)
Theorem lookup_on_star (e : Env) (first start k : Z) (n : Node) :
  star_shaped first (nodes e) ->
  dict_get start (nodes e) = Some n ->
  0 <= k < MAX_ID ->
  lookup_iterative e n k false
  = Ok (Some (if k =? start then start else first), e).
Proof.
  intros Hstar Hn Hk. pose proof Hstar as [Hin _].
  destruct (dict_get_keys _ _ Hin) as [nf Hnf].
  destruct (star_shaped_get _ _ _ _ Hstar Hnf) as (Hidf & Hfr & Haf & Hsf & _).
  destruct (star_shaped_get _ _ _ _ Hstar Hn) as (Hid & Hsr & Ha & Hs & Hshape).
  apply lookup_iterative_plain.
  destruct (hop_budget_ge_2 (nodes e)) as [b ->].
  { intros Hnil. rewrite Hnil in Hn. discriminate. }
  rewrite Hid. cbn [lookup_loop]. rewrite Hn, Ha, Hid, Hs.
  cbn [negb orb opt_int rbind].
  rewrite (bool_decide_eq_false_2 _ (not_elem_of_nil start)).
  destruct (Z.eqb_spec k start) as [->|Hks]; [reflexivity|].
  destruct (in_interval k start first false true) eqn:Hin1; [reflexivity|].
  assert (start <> first) as Hsf'.
  { intros ->. rewrite (in_interval_same_ends k first Hk Hfr Hks) in Hin1.
    discriminate. }
  destruct (Hshape Hsf') as (_ & _ & Hfing).
  unfold closest_preceding_finger_local. rewrite Hfing, Hid.
  change (length (Some first :: replicate (Z.to_nat (M - 1)) (Some start))
          <? Z.to_nat M)%nat with false.
  change (take (Z.to_nat M)
            (Some first :: replicate (Z.to_nat (M - 1)) (Some start)))
    with (Some first :: replicate (Z.to_nat (M - 1)) (Some start)).
  rewrite reverse_cons, reverse_replicate, scan_fingers_own.
  cbn [scan_fingers rbind].
  rewrite (arc_successor_precedes start first k Hsr Hfr Hk Hks Hin1).
  cbn [lookup_loop]. rewrite Hnf, Haf, Hidf, Hsf.
  cbn [negb orb opt_int rbind].
  rewrite bool_decide_eq_false_2.
  - destruct (Z.eqb_spec k first) as [->|Hkf]; [reflexivity|].
    rewrite (in_interval_same_ends k first Hk Hfr Hkf). reflexivity.
  - intros Hel. apply elem_of_cons in Hel as [Heq|Hel]; [congruence|].
    apply elem_of_nil in Hel. exact Hel.
Qed.

Lemma lookup_on_star_witness :
  lookup_iterative env_star
    (match dict_get 9 (nodes env_star) with
     | Some n => n
     | None => plain_node 9 None
     end) 3 false
  = Ok (Some (if 3 =? 9 then 9 else 5), env_star).
Proof.
  apply (lookup_on_star env_star 5 9 3).
  - split.
    + apply (bool_decide_unpack _). vm_compute. reflexivity.
    + apply (bool_decide_unpack _). vm_compute. reflexivity.
  - vm_compute. reflexivity.
  - vm_compute. split; [discriminate|reflexivity].
Defined.

(** ** [experiments/exp_3_mass_failure.py]: the ring after a crash *)

Lemma filter_all {A : Type} (P : A -> Prop) `{!forall x, Decision (P x)}
    (l : list A) :
  (forall x, x ∈ l -> P x) -> filter P l = l.
Proof.
  induction l as [|x l IH]; intros Hall; [reflexivity|].
  rewrite filter_cons. destruct (decide (P x)) as [_|Hn].
  - rewrite IH; [reflexivity|]. intros y Hy. apply Hall, elem_of_cons. auto.
  - destruct Hn. apply Hall, elem_of_cons. auto.
Qed.

Lemma active_ids_set_inactive (d : dict Node) (nid : Z) (n : Node) :
  NoDup (dict_keys d) -> dict_get nid d = Some n ->
  active_ids (dict_set nid (set_active n false) d)
  = filter (fun x => x <> nid) (active_ids d).
Proof.
  induction d as [|[k v] d IH]; simpl; [discriminate|].
  intros Hnd Hget. apply NoDup_cons in Hnd as [Hk Hnd].
  destruct (Z.eqb_spec nid k) as [->|Hne].
  - injection Hget as ->. rewrite !active_ids_cons. cbn [active set_active].
    assert (filter (fun x => x <> k) (active_ids d) = active_ids d) as Hall.
    { apply filter_all. intros x Hx ->.
      apply Hk, active_ids_subset_keys, Hx. }
    destruct (active n); [|symmetry; exact Hall].
    rewrite filter_cons. destruct (decide (k <> k)) as [Hkk|_];
      [contradiction|]. symmetry. exact Hall.
  - rewrite !active_ids_cons, (IH Hnd Hget).
    destruct (active v); [|reflexivity].
    rewrite filter_cons. destruct (decide (k <> nid)) as [_|Hkk];
      [reflexivity|]. exfalso. apply Hkk. congruence.
Qed.

Lemma crash_nodes_spec (failed : list Z) (e : Env) :
  registry_ok (nodes e) ->
  (forall x, x ∈ failed -> x ∈ dict_keys (nodes e)) ->
  exists e1,
    crash_nodes failed e = Ok e1 /\
    registry_ok (nodes e1) /\
    dict_keys (nodes e1) = dict_keys (nodes e) /\
    active_ids (nodes e1)
    = filter (fun nid => nid ∉ failed) (active_ids (nodes e)) /\
    latest_ring e1 = latest_ring e.
Proof.
  revert e. induction failed as [|nid failed IH]; intros e Hok Hsub.
  - exists e. split; [reflexivity|]. split; [exact Hok|].
    split; [reflexivity|]. split; [|reflexivity].
    symmetry. apply filter_all. intros x _. apply not_elem_of_nil.
  - destruct (dict_get_keys (nodes e) nid) as [n Hn];
      [apply Hsub, elem_of_cons; auto|].
    cbn [crash_nodes]. unfold dict_getitem. rewrite Hn. cbn [rbind].
    pose proof Hok as [Hnd _].
    destruct (IH (set_nodes e (dict_set nid (set_active n false) (nodes e))))
      as (e1 & Hcrash & Hok1 & Hkeys1 & Hact1 & Hlr1).
    + cbn [nodes set_nodes]. apply (registry_ok_update _ _ n); auto.
    + intros x Hx. cbn [nodes set_nodes].
      rewrite (dict_keys_set_present _ _ _ _ Hn).
      apply Hsub, elem_of_cons. auto.
    + exists e1. split; [exact Hcrash|]. split; [exact Hok1|].
      cbn [nodes set_nodes latest_ring] in *.
      split; [rewrite Hkeys1; exact (dict_keys_set_present _ _ _ _ Hn)|].
      split; [|exact Hlr1].
      rewrite Hact1, (active_ids_set_inactive _ _ _ Hnd Hn).
      rewrite list_filter_filter. apply list_filter_iff. intros x.
      rewrite not_elem_of_cons. tauto.
Qed.

Lemma sorted_filter (P : Z -> Prop) `{!forall x, Decision (P x)} (l : list Z) :
  sorted (filter P l) = filter P (sorted l).
Proof.
  apply (StronglySorted_unique Z.le).
  - unfold sorted. apply StronglySorted_merge_sort; apply _.
  - apply StronglySorted_filter. unfold sorted.
    apply StronglySorted_merge_sort; apply _.
  - rewrite !sorted_Permutation. reflexivity.
Qed.

(** The crash of [run_mass_failure] on an environment whose [latest_ring]
    is the sorted active ring: the nodes named are marked inactive, and
    the ring the experiment filters by hand is the ring the second
    [warm_up] computes from the registry, so that ring is the old one
    without the failed nodes. *)
Theorem crash_then_warm_up (e : Env) (failed : list Z) :
  registry_ok (nodes e) ->
  latest_ring e = Some (sorted (active_ids (nodes e))) ->
  (forall x, x ∈ failed -> x ∈ dict_keys (nodes e)) ->
  nodes e <> [] ->
  exists e1 e',
    crash failed e = Ok e1 /\
    warm_up e1 = Ok e' /\
    latest_ring e' = latest_ring e1 /\
    latest_ring e'
    = Some (filter (fun nid => nid ∉ failed) (sorted (active_ids (nodes e)))) /\
    active_ids (nodes e')
    = filter (fun nid => nid ∉ failed) (active_ids (nodes e)) /\
    dict_keys (nodes e') = dict_keys (nodes e).
Proof.
  intros Hok Hlr Hsub Hne.
  destruct (crash_nodes_spec failed e Hok Hsub)
    as (e0 & Hcrash & Hok0 & Hkeys0 & Hact0 & Hlr0).
  unfold crash. rewrite Hcrash. cbn [rbind]. rewrite Hlr0, Hlr.
  set (e1 := set_latest_ring e0 _).
  assert (registry_ok (nodes e1)) as Hok1 by exact Hok0.
  destruct (warm_up_returns e1 Hok1) as [e' Hwarm].
  { change (nodes e1) with (nodes e0). intros Hnil.
    apply Hne. destruct (nodes e) as [|kv d]; [reflexivity|].
    rewrite Hnil in Hkeys0. discriminate. }
  exists e1, e'. split; [reflexivity|]. split; [exact Hwarm|].
  pose proof (warm_up_latest_ring e1 e' Hwarm) as Hlr'.
  change (nodes e1) with (nodes e0) in Hlr'.
  rewrite Hact0, sorted_filter in Hlr'.
  split; [rewrite Hlr'; reflexivity|]. split; [exact Hlr'|].
  destruct (warm_up_ring e1 e' Hok1 Hwarm) as (Hact' & _).
  split; [rewrite Hact'; exact Hact0|].
  unfold warm_up in Hwarm. cbn [nodes set_latest_ring] in Hwarm.
  apply rbind_Ok_inv in Hwarm as (first & _ & H).
  apply rbind_Ok_inv in H as (fnode & _ & H).
  apply rbind_Ok_inv in H as (d' & Hloop & H). injection H as <-.
  cbn [nodes set_nodes].
  assert (NoDup (enumerate (sorted (active_ids (nodes e0)))).*2) as Hndr.
  { rewrite enumerate_snd. apply NoDup_sorted, NoDup_active_ids, Hok0. }
  destruct (warm_loop_spec _ _ _ _ _ Hndr Hloop) as (Hkeys' & _).
  rewrite Hkeys'. exact Hkeys0.
Qed.

Lemma crash_then_warm_up_witness :
  exists e1 e',
    crash [10] env_two_warm = Ok e1 /\
    warm_up e1 = Ok e' /\
    latest_ring e' = latest_ring e1 /\
    latest_ring e'
    = Some (filter (fun nid => nid ∉ [10])
              (sorted (active_ids (nodes env_two_warm)))) /\
    active_ids (nodes e')
    = filter (fun nid => nid ∉ [10]) (active_ids (nodes env_two_warm)) /\
    dict_keys (nodes e') = dict_keys (nodes env_two_warm).
Proof.
  apply (crash_then_warm_up env_two_warm [10]).
  - split.
    + apply (bool_decide_unpack _). vm_compute. reflexivity.
    + apply (bool_decide_unpack _). vm_compute. reflexivity.
  - vm_compute. reflexivity.
  - intros x Hx. apply list_elem_of_singleton in Hx. subst x.
    apply (bool_decide_unpack _). vm_compute. reflexivity.
  - vm_compute. discriminate.
Defined.

(** ** [sim/node.py]: the timeout grows with the ring *)

(** [timeout_duration] never decreases when the number of active nodes
    grows. *)
Theorem timeout_duration_monotone (e1 e2 : Env) :
  (count_active (nodes e1) <= count_active (nodes e2))%nat ->
  (timeout_duration e1 <= timeout_duration e2)%R.
Proof.
  intros Hle. unfold timeout_duration, log2.
  pose proof Q2R_BASE_LATENCY_pos as Hb. pose proof ln_2_pos as H2.
  set (a := Z.max 1 (Z.of_nat (count_active (nodes e1)))).
  set (b := Z.max 1 (Z.of_nat (count_active (nodes e2)))).
  assert (1 <= a <= b) as [Ha Hab] by (unfold a, b; lia).
  assert (ln (IZR a) <= ln (IZR b))%R as Hln.
  { destruct (Z.eq_dec a b) as [->|Hne]; [lra|].
    left. apply ln_increasing.
    - apply IZR_lt. lia.
    - apply IZR_lt. lia. }
  apply Rmult_le_compat_l; [lra|].
  unfold Rdiv. apply Rmult_le_compat_r; [|exact Hln].
  left. apply Rinv_0_lt_compat. exact H2.
Qed.

Lemma timeout_duration_monotone_witness :
  (timeout_duration env_one <= timeout_duration env_two)%R.
Proof.
  apply (timeout_duration_monotone env_one env_two). vm_compute. lia.
Defined.
